(** * Clique-tree elimination of a cluster forest (gtsam/inference/ClusterTree-inst.h)

    A shallow embedding of the elimination engine of [ClusterTree]: the two
    elimination contexts ([EliminationData], [EliminationDataInPlace]), the
    pre-order visitor, the shared post-order helper, the two post-order
    visitors and the entry points [eliminate] and [eliminateInPlace]; and of
    the product of two manifolds (gtsam/base/Manifold.h).

    C++ objects that are shared and mutated through pointers live in an
    explicit store: Bayes-tree cliques in [heap] (a clique pointer is an index
    into it), elimination contexts in [dataList] (the list in which the
    depth-first driver keeps the value returned by the pre-order visitor; a
    context reference is an index into it).  Exceptions and undefined
    behaviour are outcomes of a state-and-failure monad whose state survives
    the failure, as mutations made before a C++ [throw] do. *)

From stdpp Require Import base list gmap strings.
From Stdlib Require Import ZArith Permutation.

#[local] Set Warnings "-register-all,-stdlib-vector".
From Stdlib Require Vector.

(** ** Data model *)

(** [Key] is gtsam's variable index ([size_t]); only its identity is used. *)
Abbreviation Key := N (only parsing).

(** [Ordering(node->keys)] copies the key vector. *)
Abbreviation Ordering := (list Key) (only parsing).

(** A shared pointer to a Bayes-tree clique: an address in [heap]. *)
Abbreviation CliquePtr := nat (only parsing).

(** A reference to an elimination context: an address in [dataList]. *)
Abbreviation DataPtr := nat (only parsing).

(** Modelled from the spec: the factor classes are declared in other
    headers (gtsam/inference/Factor.h, BayesTree.h).  "Immutable payload
    representing a constraint/likelihood over a variable subset"; an orphan
    is "a previously built clique subtree wrapped as a pseudo-factor".
    Factors are a tagged variant: an ordinary factor with an opaque payload,
    or a [BayesTreeOrphanWrapper] around the root clique of a subtree of an
    earlier Bayes tree.  The [dynamic_cast] of the source is the match on the
    tag. *)
Inductive Factor : Type :=
| OrdinaryFactor (keys_ : list Key) (payload : nat)
| BayesTreeOrphanWrapper (keys_ : list Key) (clique : CliquePtr).

Definition Factor_keys (f : Factor) : list Key :=
  match f with
  | OrdinaryFactor ks _ => ks
  | BayesTreeOrphanWrapper ks _ => ks
  end.

(** Modelled from the spec: [Factor::empty()], the test behind "if the
    remaining factor is non-empty"; a factor is empty when it involves no
    key. *)
Definition Factor_empty (f : Factor) : bool :=
  match Factor_keys f with [] => true | _ :: _ => false end.

(** [sharedFactor]: a shared pointer to a factor, possibly null. *)
Abbreviation sharedFactor := (option Factor) (only parsing).

(** Modelled from the spec: [FactorGraph] (gtsam/inference/FactorGraph.h), "a
    list of factor references": a vector of shared factor pointers; null
    entries are allowed and are kept by [+=] and by the range [push_back]. *)
Abbreviation FactorGraph := (list sharedFactor) (only parsing).

(** The non-null factors of a graph, in order. *)
Definition factorsOf (g : FactorGraph) : list Factor := omap id g.

(** Modelled from the spec: the conditional type is a template parameter of
    the cluster tree; the glossary gives it frontal variables ("variables a
    conditional directly solves for") and the remaining ones. *)
Record Conditional : Type := mkConditional {
  frontals : list Key;
  parents : list Key
}.

(** The result pair of the elimination function; either pointer may be null. *)
Abbreviation EliminationResult := (option Conditional * sharedFactor)%type (only parsing).

(** [CLUSTERTREE::Eliminate]: the injected dense elimination function. *)
Abbreviation Eliminate := (FactorGraph → Ordering → EliminationResult) (only parsing).

(** [ClusterTree::Cluster]. *)
Module Cluster.
Inductive t : Type := mk {
  keys : list Key;
  factors : FactorGraph;
  children : list t;
  problemSize_ : Z
}.

(** [problemSize()] reads the cached estimate. *)
Definition problemSize (c : t) : Z := problemSize_ c.
End Cluster.

(** [ClusterTree]: the root clusters and the factors touching no cluster. *)
Record ClusterTree : Type := mkClusterTree {
  roots_ : list Cluster.t;
  remainingFactors_ : FactorGraph
}.

(** Modelled from the spec: [BayesTreeType::Node], the clique of the output
    tree (gtsam/inference/BayesTreeCliqueBase.h).  It "holds the eliminated
    conditional, ... a non-owning back-reference to its parent, and owns its
    children"; the source also writes its cached problem size. *)
Module Node.
Record t : Type := mk {
  conditional_ : option Conditional;
  parent_ : option CliquePtr;
  children : list CliquePtr;
  problemSize_ : Z
}.

(** A default-constructed clique: no conditional, no parent, no children,
    problem size 1. *)
Definition empty : t :=
  {| conditional_ := None; parent_ := None; children := []; problemSize_ := 1 |}.

Definition set_conditional (c : option Conditional) (n : t) : t :=
  {| conditional_ := c; parent_ := parent_ n;
     children := children n; problemSize_ := problemSize_ n |}.
Definition set_parent (p : option CliquePtr) (n : t) : t :=
  {| conditional_ := conditional_ n; parent_ := p;
     children := children n; problemSize_ := problemSize_ n |}.
Definition set_children (cs : list CliquePtr) (n : t) : t :=
  {| conditional_ := conditional_ n; parent_ := parent_ n;
     children := cs; problemSize_ := problemSize_ n |}.
Definition set_problemSize (z : Z) (n : t) : t :=
  {| conditional_ := conditional_ n; parent_ := parent_ n;
     children := children n; problemSize_ := z |}.
End Node.

(** [BayesTree]: the root cliques [roots_] and the key-to-clique index
    [nodes_] (prefixed here, [roots_] being taken by [ClusterTree]). *)
Record BayesTree : Type := mkBayesTree {
  bt_roots_ : list CliquePtr;
  bt_nodes_ : gmap Key CliquePtr
}.

(** [EliminationData] and [EliminationDataInPlace] have the same four
    members; one record serves both.  [bayesTreeNode] is [None] while the raw
    pointer of the reusing variant is not yet set. *)
Record EliminationData : Type := mkEliminationData {
  parentData : option DataPtr;
  myIndexInParent : nat;
  childFactors : list sharedFactor;
  bayesTreeNode : option CliquePtr
}.

Definition set_childFactors (cf : list sharedFactor) (d : EliminationData) : EliminationData :=
  {| parentData := parentData d; myIndexInParent := myIndexInParent d;
     childFactors := cf; bayesTreeNode := bayesTreeNode d |}.
Definition set_bayesTreeNode (p : option CliquePtr) (d : EliminationData) : EliminationData :=
  {| parentData := parentData d; myIndexInParent := myIndexInParent d;
     childFactors := childFactors d; bayesTreeNode := p |}.

(** ** Machine state and the failure monad *)

(** One recorded invocation of the elimination function (ghost data). *)
Abbreviation Call := (FactorGraph * Ordering)%type (only parsing).

Record State : Type := mkState {
  heap : list Node.t;
  dataList : list EliminationData;
  nodesIndex : gmap Key CliquePtr;
  calls : list Call
}.

Definition set_heap (h : list Node.t) (st : State) : State :=
  {| heap := h; dataList := dataList st; nodesIndex := nodesIndex st; calls := calls st |}.
Definition set_dataList (d : list EliminationData) (st : State) : State :=
  {| heap := heap st; dataList := d; nodesIndex := nodesIndex st; calls := calls st |}.
Definition set_nodesIndex (m : gmap Key CliquePtr) (st : State) : State :=
  {| heap := heap st; dataList := dataList st; nodesIndex := m; calls := calls st |}.
Definition set_calls (c : list Call) (st : State) : State :=
  {| heap := heap st; dataList := dataList st; nodesIndex := nodesIndex st; calls := c |}.

(** What C++ leaves undefined and the code does not check. *)
Inductive Fault : Type :=
| NullRemainingFactor   (* [eliminationResult.second->empty()] on a null pointer *)
| NullConditional       (* [conditional()->frontals()] on a null pointer *)
| NullParentData        (* [myData.parentData->...] on the dummy root *)
| NullNode              (* [bayesTreeNode->...] on an unset raw pointer *)
| DanglingNode          (* a clique pointer outside the heap *)
| DanglingData          (* a context reference outside the data list *)
| IndexOutOfRange.      (* [operator[]] past the end of a vector *)

Inductive Failure : Type :=
| RuntimeErrorThreadsafe (what : string)
| UndefinedBehaviour (why : Fault).

Inductive Outcome (A : Type) : Type :=
| Ok (a : A)
| Fail (e : Failure).
Arguments Ok {A} a.
Arguments Fail {A} e.

Definition M (A : Type) : Type := State → Outcome A * State.

#[export] Instance M_ret : MRet M := λ A a st, (Ok a, st).
#[export] Instance M_bind : MBind M := λ A B k m st,
  match m st with
  | (Ok a, st') => k a st'
  | (Fail e, st') => (Fail e, st')
  end.

Definition throw {A} (e : Failure) : M A := λ st, (Fail e, st).
Definition undefined {A} (why : Fault) : M A := throw (UndefinedBehaviour why).
Definition gets {A} (f : State → A) : M A := λ st, (Ok (f st), st).
Definition modify (f : State → State) : M unit := λ st, (Ok tt, f st).

(** Running a visitor over a vector, left to right ([BOOST_FOREACH]). *)
Section ForEach.
Context {A : Type} (body : A → M unit).

Fixpoint forEach (l : list A) : M unit :=
  match l with
  | [] => mret tt
  | x :: l' => body x ;; forEach l'
  end.
End ForEach.

(** *** Store accessors *)

Definition derefData (d : DataPtr) : M EliminationData := λ st,
  match dataList st !! d with
  | Some D => (Ok D, st)
  | None => (Fail (UndefinedBehaviour DanglingData), st)
  end.

Definition updateData (d : DataPtr) (f : EliminationData → EliminationData) : M unit :=
  D ← derefData d;
  modify (λ st, set_dataList (<[d := f D]> (dataList st)) st).

(** Placing a context value in the driver's data list. *)
Definition pushData (D : EliminationData) : M DataPtr := λ st,
  (Ok (length (dataList st)), set_dataList (dataList st ++ [D]) st).

Definition derefNode (p : CliquePtr) : M Node.t := λ st,
  match heap st !! p with
  | Some n => (Ok n, st)
  | None => (Fail (UndefinedBehaviour DanglingNode), st)
  end.

Definition updateNode (p : CliquePtr) (f : Node.t → Node.t) : M unit :=
  n ← derefNode p;
  modify (λ st, set_heap (<[p := f n]> (heap st)) st).

(** [boost::make_shared<Node>()], and a [Node] declared on the stack. *)
Definition allocNode : M CliquePtr := λ st,
  (Ok (length (heap st)), set_heap (heap st ++ [Node.empty]) st).

(** Dereferencing the raw/shared clique pointer held by a context. *)
Definition nodeOf (D : EliminationData) : M CliquePtr :=
  match bayesTreeNode D with
  | Some p => mret p
  | None => undefined NullNode
  end.

(** Ghost: record that the elimination function was invoked. *)
Definition recordCall (c : Call) : M unit :=
  modify (λ st, set_calls (calls st ++ [c]) st).

(** ** Elimination contexts *)

(** The slot bookkeeping shared by both constructors: add a null elimination
    result pointer to the parent and return this node's index in it. *)
Definition reserveSlot (_parentData : option DataPtr) : M nat :=
  match _parentData with
  | Some pd =>
      P ← derefData pd;
      updateData pd (set_childFactors (childFactors P ++ [None]));;
      mret (length (childFactors P))
  | None => mret 0
  end.

(** [EliminationData::EliminationData(_parentData, nChildren)]. *)
Definition EliminationData_ctor (_parentData : option DataPtr) (nChildren : nat)
  : M EliminationData :=
  node ← allocNode;
  idx ← reserveSlot _parentData;
  match _parentData with
  | Some pd =>
      P ← derefData pd;
      pnode ← nodeOf P;
      match parentData P with
      | Some _ => updateNode node (Node.set_parent (Some pnode))
      | None => mret tt
      end;;
      pn ← derefNode pnode;
      updateNode pnode (Node.set_children (Node.children pn ++ [node]))
  | None => mret tt
  end;;
  mret {| parentData := _parentData; myIndexInParent := idx;
          childFactors := []; bayesTreeNode := Some node |}.

(** [EliminationDataInPlace::EliminationDataInPlace(_parentData, nChildren)]. *)
Definition EliminationDataInPlace_ctor (_parentData : option DataPtr) (nChildren : nat)
  : M EliminationData :=
  idx ← reserveSlot _parentData;
  node ← match _parentData with
         | Some pd =>
             P ← derefData pd;
             pnode ← nodeOf P;
             pn ← derefNode pnode;
             match Node.children pn !! idx with
             | Some c => mret (Some c)
             | None => undefined IndexOutOfRange
             end
         | None => mret None
         end;
  mret {| parentData := _parentData; myIndexInParent := idx;
          childFactors := []; bayesTreeNode := node |}.

(** [eliminationPreOrderVisitor], for either constructor. *)
Definition eliminationPreOrderVisitor
    (ctor : option DataPtr → nat → M EliminationData)
    (node : Cluster.t) (parentData : DataPtr) : M EliminationData :=
  myData ← ctor (Some parentData) (length (Cluster.children node));
  p ← nodeOf myData;
  updateNode p (Node.set_problemSize (Cluster.problemSize node));;
  mret myData.

(** ** Post-order visitors *)

(** Modelled from the spec: [setEliminationResult] belongs to the clique base
    class (gtsam/inference/BayesTreeCliqueBase.h); "Store the conditional
    into the node's clique". *)
Definition setEliminationResult (p : CliquePtr) (r : EliminationResult) : M unit :=
  updateNode p (Node.set_conditional (fst r)).

(** [eliminationPostOrderVisitorHelper]. *)
Definition eliminationPostOrderVisitorHelper
    (eliminationFunction : Eliminate) (node : Cluster.t) (myData : DataPtr) : M unit :=
  D ← derefData myData;
  let gatheredFactors := Cluster.factors node ++ childFactors D in
  let eliminationResult := eliminationFunction gatheredFactors (Cluster.keys node) in
  recordCall (gatheredFactors, Cluster.keys node);;
  p ← nodeOf D;
  setEliminationResult p eliminationResult;;
  match snd eliminationResult with
  | None => undefined NullRemainingFactor
  | Some remaining =>
      if negb (Factor_empty remaining) then
        match parentData D with
        | None => undefined NullParentData
        | Some pd =>
            P ← derefData pd;
            if decide (myIndexInParent D < length (childFactors P)) then
              updateData pd (set_childFactors
                (<[myIndexInParent D := snd eliminationResult]> (childFactors P)))
            else undefined IndexOutOfRange
        end
      else mret tt
  end.

(** The [dynamic_cast] to [BayesTreeOrphanWrapper]; a null pointer casts to
    null. *)
Definition asSubtree (f : sharedFactor) : option CliquePtr :=
  match f with
  | Some (BayesTreeOrphanWrapper _ clique) => Some clique
  | _ => None
  end.

(** Insertion into the key index: [insert] keeps an existing entry. *)
Definition nodesIndex_insert (j : Key) (p : CliquePtr) : M unit :=
  modify (λ st, match nodesIndex st !! j with
                | Some _ => st
                | None => set_nodesIndex (<[j := p]> (nodesIndex st)) st
                end).

(** [EliminationPostOrderVisitor::operator()]. *)
Definition EliminationPostOrderVisitor
    (eliminationFunction : Eliminate) (node : Cluster.t) (myData : DataPtr) : M unit :=
  eliminationPostOrderVisitorHelper eliminationFunction node myData;;
  D ← derefData myData;
  p ← nodeOf D;
  forEach (λ f,
    match asSubtree f with
    | Some clique =>
        n ← derefNode p;
        updateNode p (Node.set_children (Node.children n ++ [clique]));;
        updateNode clique (Node.set_parent (Some p))
    | None => mret tt
    end) (Cluster.factors node);;
  n ← derefNode p;
  match Node.conditional_ n with
  | None => undefined NullConditional
  | Some c => forEach (λ j, nodesIndex_insert j p) (frontals c)
  end.

Definition orphanInPlaceMessage : string :=
  "Encountered a BayesTreeOrphanWrapper while doing in-place elimination,
which is not supported.  BayesTreeOrphanWrapper is normally only created
internally, so this may be caused by creating BayesTreeOrphanWrapper
externally to GTSAM.".

(** [EliminationPostOrderVisitorInPlace::operator()]. *)
Definition EliminationPostOrderVisitorInPlace
    (eliminationFunction : Eliminate) (node : Cluster.t) (myData : DataPtr) : M unit :=
  forEach (λ f,
    match asSubtree f with
    | Some _ => throw (RuntimeErrorThreadsafe orphanInPlaceMessage)
    | None => mret tt
    end) (Cluster.factors node);;
  eliminationPostOrderVisitorHelper eliminationFunction node myData.

(** ** The traversal driver *)

Section Driver.
Context (visitorPre : Cluster.t → DataPtr → M EliminationData).
Context (visitorPost : Cluster.t → DataPtr → M unit).

(** Modelled from the spec: [treeTraversal::DepthFirstForestParallel] is
    declared in gtsam/base/treeTraversal-inst.h.  "Depth-first walk of every
    tree in the forest: pre-order hook creates the Elimination Context from
    the parent's context and child count (descending); post-order hook runs
    ascending."  This is the walk in which sibling subtrees run one after
    the other, in child order; the fan-out threshold (the last argument, 10)
    only chooses between this walk and the concurrent one, [Parallel.step]
    below. *)
Fixpoint visitNode (node : Cluster.t) (parentData : DataPtr) : M unit :=
  myData ← visitorPre node parentData;
  d ← pushData myData;
  forEach (λ child, visitNode child d) (Cluster.children node);;
  visitorPost node d.

(** Modelled from the spec: the driver visits "every tree in the forest",
    each root under the dummy root's context. *)
Definition DepthFirstForestParallel (forest : ClusterTree) (rootData : DataPtr) : M unit :=
  forEach (λ root, visitNode root rootData) (roots_ forest).
End Driver.

(** ** Entry points *)

(** The null entries of the dummy root's slots are skipped ([if(factor)]). *)
Definition nonNull (g : list sharedFactor) : list sharedFactor :=
  filter (λ f : sharedFactor, is_Some f) g.

(** [ClusterTree::eliminate]. *)
Definition eliminate (function : Eliminate) (this : ClusterTree)
  : M (BayesTree * FactorGraph) :=
  modify (set_nodesIndex ∅);;
  rc ← EliminationData_ctor None (length (roots_ this));
  rootsContainer ← pushData rc;
  DepthFirstForestParallel
    (eliminationPreOrderVisitor EliminationData_ctor)
    (EliminationPostOrderVisitor function) this rootsContainer;;
  RC ← derefData rootsContainer;
  p ← nodeOf RC;
  dummy ← derefNode p;
  index ← gets nodesIndex;
  let result := {| bt_roots_ := [] ++ Node.children dummy; bt_nodes_ := index |} in
  let allRemainingFactors := remainingFactors_ this ++ nonNull (childFactors RC) in
  mret (result, allRemainingFactors).

(** [ClusterTree::eliminateInPlace]. *)
Definition eliminateInPlace (bayesTree : BayesTree) (function : Eliminate) (this : ClusterTree)
  : M FactorGraph :=
  rc ← EliminationDataInPlace_ctor None (length (roots_ this));
  rootsContainer ← pushData rc;
  rootsBayesTreeNode ← allocNode;
  updateData rootsContainer (set_bayesTreeNode (Some rootsBayesTreeNode));;
  RC ← derefData rootsContainer;
  p ← nodeOf RC;
  updateNode p (Node.set_children (bt_roots_ bayesTree));;
  DepthFirstForestParallel
    (eliminationPreOrderVisitor EliminationDataInPlace_ctor)
    (EliminationPostOrderVisitorInPlace function) this rootsContainer;;
  RC ← derefData rootsContainer;
  let allRemainingFactors := remainingFactors_ this ++ nonNull (childFactors RC) in
  mret allRemainingFactors.

(** ** Reference semantics

    A pure account of what elimination computes, by recursion on the
    cluster tree; the stateful code is compared with it below. *)

(** What a finished child leaves in its parent's slot: its remaining factor
    when that is non-empty, null otherwise. *)
Definition publish (r : sharedFactor) : sharedFactor :=
  match r with
  | Some x => if Factor_empty x then None else Some x
  | None => None
  end.

(** The factor graph handed to the elimination function at a cluster. *)
Fixpoint gathered (f : Eliminate) (c : Cluster.t) : FactorGraph :=
  Cluster.factors c ++
  map (λ ch, publish (snd (f (gathered f ch) (Cluster.keys ch)))) (Cluster.children c).

Definition resultOf (f : Eliminate) (c : Cluster.t) : EliminationResult :=
  f (gathered f c) (Cluster.keys c).

Definition slotOf (f : Eliminate) (c : Cluster.t) : sharedFactor :=
  publish (snd (resultOf f c)).

(** The invocations of the elimination function over a subtree, post-order. *)
Fixpoint callsOf (f : Eliminate) (c : Cluster.t) : list Call :=
  concat (map (callsOf f) (Cluster.children c)) ++ [(gathered f c, Cluster.keys c)].

(** The clusters of a subtree, post-order, and of a forest. *)
Fixpoint clustersOf (c : Cluster.t) : list Cluster.t :=
  concat (map clustersOf (Cluster.children c)) ++ [c].

Definition forestClusters (t : ClusterTree) : list Cluster.t :=
  concat (map clustersOf (roots_ t)).

(** The orphan cliques wrapped among a list of factor pointers. *)
Definition orphansOf (g : FactorGraph) : list CliquePtr := omap asSubtree g.

(** The unchecked precondition on the elimination function: neither pointer
    of the pair it returns is null. *)
Definition returnsRemaining (f : Eliminate) : Prop :=
  ∀ g o, is_Some (snd (f g o)).
Definition returnsConditional (f : Eliminate) : Prop :=
  ∀ g o, is_Some (fst (f g o)).

(** Every orphan wrapper of the subtree wraps a clique below address [bound]. *)
Definition orphansBelow (bound : nat) (c : Cluster.t) : Prop :=
  Forall (λ c', Forall (λ q, q < bound) (orphansOf (Cluster.factors c'))) (clustersOf c).

(** Induction on cluster trees, with the hypothesis for every child. *)
Section ClusterInduction.
Variable P : Cluster.t → Prop.
Hypothesis step : ∀ ks fs cs z, Forall P cs → P (Cluster.mk ks fs cs z).

Fixpoint Cluster_tree_ind (c : Cluster.t) : P c :=
  match c with
  | Cluster.mk ks fs cs z =>
      step ks fs cs z
        ((fix children_ind (l : list Cluster.t) : Forall P l :=
            match l with
            | [] => List.Forall_nil P
            | x :: l' => List.Forall_cons P x l' (Cluster_tree_ind x) (children_ind l')
            end) cs)
  end.
End ClusterInduction.

(** ** Specification vocabulary

    Predicates and records in which the lemmas below are stated. *)

#[export] Instance Factor_eq_dec : EqDecision Factor.
Proof. solve_decision. Defined.

(** The factors attached to the given clusters. *)
Definition ownFactors (cs : list Cluster.t) : list Factor :=
  factorsOf (concat (map Cluster.factors cs)).

(** Every input factor of a forest: attached to a cluster or remaining. *)
Definition inputFactors (t : ClusterTree) : list Factor :=
  ownFactors (forestClusters t) ++ factorsOf (remainingFactors_ t).

(** The non-empty remaining factors the elimination function returns over
    the given clusters. *)
Definition publishedBy (f : Eliminate) (cs : list Cluster.t) : list Factor :=
  factorsOf (map (slotOf f) cs).

(** The factors handed to the elimination function over a list of calls. *)
Definition consumedFactors (cl : list Call) : list Factor :=
  factorsOf (concat (map fst cl)).

(** Over a sequence of subtrees: what is consumed inside, together with
    what the tops publish, is what is attached inside together with
    everything published inside. *)
Definition conserved (f : Eliminate) (cs : list Cluster.t) : Prop :=
  consumedFactors (concat (map (callsOf f) cs)) ++ publishedBy f cs ≡ₚ
  ownFactors (concat (map clustersOf cs)) ++ publishedBy f (concat (map clustersOf cs)).

(** The state once the helper has invoked the elimination function and
    stored its conditional, before it looks at the remaining factor. *)
Definition afterElimination (f : Eliminate) (node : Cluster.t)
    (D : EliminationData) (p : CliquePtr) (n : Node.t) (st : State) : State :=
  let g := Cluster.factors node ++ childFactors D in
  set_heap (<[p := Node.set_conditional (fst (f g (Cluster.keys node))) n]> (heap st))
    (set_calls (calls st ++ [(g, Cluster.keys node)]) st).

(** What the helper does with the remaining factor. *)
Definition forwardRemaining (D : EliminationData) (second : sharedFactor) : M unit :=
  match second with
  | None => undefined NullRemainingFactor
  | Some remaining =>
      if negb (Factor_empty remaining) then
        match parentData D with
        | None => undefined NullParentData
        | Some pd =>
            P ← derefData pd;
            if decide (myIndexInParent D < length (childFactors P)) then
              updateData pd (set_childFactors
                (<[myIndexInParent D := second]> (childFactors P)))
            else undefined IndexOutOfRange
        end
      else mret tt
  end.

Definition attachOrphan (p : CliquePtr) (f : sharedFactor) : M unit :=
  match asSubtree f with
  | Some clique =>
      n ← derefNode p;
      updateNode p (Node.set_children (Node.children n ++ [clique]));;
      updateNode clique (Node.set_parent (Some p))
  | None => mret tt
  end.

(** [h'] is [h] after the cliques [qs] were appended to the children of [p]
    and given [p] as parent; nothing else differs. *)
Definition orphansAttached (p : CliquePtr) (qs : list CliquePtr) (h h' : list Node.t) : Prop :=
  length h' = length h ∧
  ∀ q n, h !! q = Some n →
    ∃ n', h' !! q = Some n' ∧
      Node.conditional_ n' = Node.conditional_ n ∧
      Node.problemSize_ n' = Node.problemSize_ n ∧
      Node.children n' = Node.children n ++ (if decide (q = p) then qs else []) ∧
      Node.parent_ n' = if decide (q ∈ qs) then Some p else Node.parent_ n.

Definition visitBuild (f : Eliminate) : Cluster.t → DataPtr → M unit :=
  visitNode (eliminationPreOrderVisitor EliminationData_ctor) (EliminationPostOrderVisitor f).

(** What the visit of the cluster sequence [cs] under the context [d] (value
    [Dd] before, clique [p]) has done between [st] and [st']: one slot per
    cluster was appended to [d] and filled, the calls of the subtrees were
    made in order, nothing else in the data list changed, and [p] received
    one new child clique per cluster. *)
Record childrenVisited (f : Eliminate) (cs : list Cluster.t) (d : DataPtr)
    (Dd : EliminationData) (p : CliquePtr) (st st' : State) : Prop := {
  cv_length : length (dataList st) ≤ length (dataList st');
  cv_slots : dataList st' !! d =
             Some (set_childFactors (childFactors Dd ++ map (slotOf f) cs) Dd);
  cv_frame : ∀ q, q < length (dataList st) → q ≠ d → dataList st' !! q = dataList st !! q;
  cv_calls : calls st' = calls st ++ concat (map (callsOf f) cs);
  cv_heap_length : length (heap st) ≤ length (heap st');
  cv_heap : ∃ news,
    length news = length cs ∧
    Forall (λ a, length (heap st) ≤ a < length (heap st')) news ∧
    ∀ q n, heap st !! q = Some n →
      ∃ n', heap st' !! q = Some n' ∧
        Node.conditional_ n' = Node.conditional_ n ∧
        Node.children n' = Node.children n ++ (if decide (q = p) then news else []);
  cv_cliques : ∀ c, In c (concat (map clustersOf cs)) →
    ∃ dc Dc q n,
      length (dataList st) ≤ dc ∧ dataList st' !! dc = Some Dc ∧
      childFactors Dc = map (slotOf f) (Cluster.children c) ∧
      bayesTreeNode Dc = Some q ∧
      length (heap st) ≤ q ∧ heap st' !! q = Some n ∧
      Node.conditional_ n = fst (resultOf f c)
}.

(** The statement proved for every cluster by induction on the tree. *)
Definition visitSpec (f : Eliminate) (c : Cluster.t) : Prop :=
  ∀ pd P pp st,
    dataList st !! pd = Some P → bayesTreeNode P = Some pp →
    pp < length (heap st) → orphansBelow (length (heap st)) c →
    ∃ st', visitBuild f c pd st = (Ok tt, st') ∧
           childrenVisited f [c] pd P pp st st'.

(** The forest is well formed for a heap: its orphan wrappers wrap cliques
    that are allocated in it. *)
Definition orphansLive (st : State) (t : ClusterTree) : Prop :=
  Forall (orphansBelow (length (heap st))) (roots_ t).

(** What a run of [eliminate] from [st] leaves: the dummy root context at
    the first free context address, its synthetic clique at the first free
    heap address, the result pair, the calls made. *)
Record eliminated (f : Eliminate) (t : ClusterTree) (st st' : State)
    (result : BayesTree) (remaining : list (option Factor)) : Prop := {
  el_context : dataList st' !! length (dataList st) =
               Some {| parentData := None; myIndexInParent := 0;
                       childFactors := map (slotOf f) (roots_ t);
                       bayesTreeNode := Some (length (heap st)) |};
  el_dummy : ∃ dummy, heap st' !! length (heap st) = Some dummy ∧
                      Node.children dummy = bt_roots_ result;
  el_roots : length (bt_roots_ result) = length (roots_ t) ∧
             Forall (λ a, length (heap st) < a < length (heap st')) (bt_roots_ result);
  el_index : bt_nodes_ result = nodesIndex st';
  el_remaining : remaining = remainingFactors_ t ++ nonNull (map (slotOf f) (roots_ t));
  el_calls : calls st' = calls st ++ concat (map (callsOf f) (roots_ t));
  el_cliques : ∀ c, In c (forestClusters t) →
    ∃ dc Dc q n,
      length (dataList st) < dc ∧ dataList st' !! dc = Some Dc ∧
      childFactors Dc = map (slotOf f) (Cluster.children c) ∧
      bayesTreeNode Dc = Some q ∧
      length (heap st) < q ∧ heap st' !! q = Some n ∧
      Node.conditional_ n = fst (resultOf f c);
  el_old : ∀ q n, q < length (heap st) → heap st !! q = Some n →
             ∃ n', heap st' !! q = Some n' ∧
                   Node.conditional_ n' = Node.conditional_ n ∧
                   Node.children n' = Node.children n
}.


(** Every failure of [m] satisfies [S]. *)
Definition failsOnly (S : Failure → Prop) {A} (m : M A) : Prop :=
  ∀ st e st', m st = (Fail e, st') → S e.

(** Successful runs of [m] leave the component [proj] of the state alone. *)
Definition keeps {X A} (proj : State → X) (m : M A) : Prop :=
  ∀ st a st', m st = (Ok a, st') → proj st' = proj st.

(** The data-list effect of either pre-order visitor: one null slot more in
    the parent, and a context that knows its parent and its index. *)
Definition reservesSlot (pre : Cluster.t → nat → M EliminationData) : Prop :=
  ∀ c pd st D st1, pre c pd st = (Ok D, st1) →
    ∃ P, dataList st !! pd = Some P ∧
         dataList st1 = <[pd := set_childFactors (childFactors P ++ [None]) P]> (dataList st) ∧
         parentData D = Some pd ∧
         myIndexInParent D = length (childFactors P) ∧
         childFactors D = [].

(** The data-list effect of either post-order visitor: the remaining factor
    returned for the gathered graph goes to the parent's slot when it is
    non-empty. *)
Definition forwardsRemaining (f : Eliminate) (post : Cluster.t → nat → M unit) : Prop :=
  ∀ c d st st1, post c d st = (Ok tt, st1) →
    ∃ D r,
      dataList st !! d = Some D ∧
      snd (f (Cluster.factors c ++ childFactors D) (Cluster.keys c)) = Some r ∧
      In (Cluster.factors c ++ childFactors D, Cluster.keys c) (calls st1) ∧
      ((Factor_empty r = true ∧ dataList st1 = dataList st) ∨
       (Factor_empty r = false ∧
        ∃ pd P, parentData D = Some pd ∧ dataList st !! pd = Some P ∧
                myIndexInParent D < length (childFactors P) ∧
                dataList st1 =
                  <[pd := set_childFactors
                            (<[myIndexInParent D := Some r]> (childFactors P)) P]>
                    (dataList st))).

(** ** In-place elimination: the existing tree

    The reusing constructor finds the clique of a cluster among the children
    of its parent's clique, "indexed by the same child ordering"; the shape
    of the existing tree is an unchecked precondition. *)

Section PrefixMatch.
Context {A B : Type} (R : A → B → bool).

(** Every element of [xs] is related to the element of [ys] at its index. *)
Fixpoint prefixMatch (xs : list A) (ys : list B) : bool :=
  match xs, ys with
  | [], _ => true
  | x :: xs', y :: ys' => R x y && prefixMatch xs' ys'
  | _ :: _, [] => false
  end.
End PrefixMatch.

(** The clique at [q] is allocated and has, for every child of the cluster,
    a child clique at the same index, of the child's shape.  [kids] gives
    the children of every allocated clique. *)
Fixpoint hasShape (kids : list (list CliquePtr)) (c : Cluster.t) (q : CliquePtr) : bool :=
  match kids !! q with
  | Some qs => prefixMatch (hasShape kids) (Cluster.children c) qs
  | None => false
  end.

Definition cliqueChildren (st : State) : list (list CliquePtr) :=
  map Node.children (heap st).

(** The precondition of [eliminateInPlace]: the roots of the existing tree
    have the shape of the roots of the forest. *)
Definition existingTreeMatches (st : State) (bayesTree : BayesTree) (t : ClusterTree) : Prop :=
  prefixMatch (hasShape (cliqueChildren st)) (roots_ t) (bt_roots_ bayesTree) = true.

(** No cluster of the subtrees has an orphan wrapper among its own factors. *)
Definition orphanFree (cs : list Cluster.t) : Prop :=
  Forall (λ c, orphansOf (Cluster.factors c) = []) (concat (map clustersOf cs)).

#[export] Instance orphanFree_dec cs : Decision (orphanFree cs).
Proof. unfold orphanFree. apply _. Defined.

Definition orphanError : Failure := RuntimeErrorThreadsafe orphanInPlaceMessage.

Definition visitInPlace (f : Eliminate) : Cluster.t → DataPtr → M unit :=
  visitNode (eliminationPreOrderVisitor EliminationDataInPlace_ctor)
            (EliminationPostOrderVisitorInPlace f).

(** What the in-place visit of the cluster sequence [cs] under the context
    [d] (value [Dd] before) has done between [st] and [st']: one slot per
    cluster was appended to [d] and filled, the calls of the subtrees were
    made in order, nothing else in the data list changed, no clique changed
    its children and the key index was left alone. *)
Record visitedInPlace (f : Eliminate) (cs : list Cluster.t) (d : DataPtr)
    (Dd : EliminationData) (st st' : State) : Prop := {
  ip_length : length (dataList st) ≤ length (dataList st');
  ip_slots : dataList st' !! d =
             Some (set_childFactors (childFactors Dd ++ map (slotOf f) cs) Dd);
  ip_frame : ∀ q, q < length (dataList st) → q ≠ d → dataList st' !! q = dataList st !! q;
  ip_calls : calls st' = calls st ++ concat (map (callsOf f) cs);
  ip_shape : cliqueChildren st' = cliqueChildren st;
  ip_index : nodesIndex st' = nodesIndex st
}.

(** The statement proved for every cluster by induction on the tree: on a
    clique of the cluster's shape the in-place visit completes when the
    subtree has no orphan wrapper and throws the orphan error when it has
    one. *)
Definition visitInPlaceSpec (f : Eliminate) (c : Cluster.t) : Prop :=
  ∀ pd P pp qs q st,
    dataList st !! pd = Some P → bayesTreeNode P = Some pp →
    cliqueChildren st !! pp = Some qs →
    qs !! length (childFactors P) = Some q →
    hasShape (cliqueChildren st) c q = true →
    (orphanFree [c] →
       ∃ st', visitInPlace f c pd st = (Ok tt, st') ∧ visitedInPlace f [c] pd P st st') ∧
    (¬ orphanFree [c] →
       ∃ st', visitInPlace f c pd st = (Fail orphanError, st')).

(** What a completed run of [eliminateInPlace] from [st] leaves. *)
Record eliminatedInPlace (f : Eliminate) (t : ClusterTree) (st st' : State)
    (remaining : list (option Factor)) : Prop := {
  eip_remaining : remaining = remainingFactors_ t ++ nonNull (map (slotOf f) (roots_ t));
  eip_calls : calls st' = calls st ++ concat (map (callsOf f) (roots_ t));
  eip_shape : ∀ q, q < length (heap st) →
                cliqueChildren st' !! q = cliqueChildren st !! q;
  eip_index : nodesIndex st' = nodesIndex st
}.

(** ** The concurrent traversal *)

Module Parallel.

(** A position in the forest, innermost index first: [[]] is the dummy root,
    [i :: ρ] is the [i]-th child of the position [ρ]. *)
Abbreviation Position := (list nat) (only parsing).

(** The children of the cluster at a position; the roots for the dummy. *)
Fixpoint childrenAt (roots : list Cluster.t) (ρ : Position) : option (list Cluster.t) :=
  match ρ with
  | [] => Some roots
  | i :: ρ' =>
      match childrenAt roots ρ' with
      | Some cs => Cluster.children <$> cs !! i
      | None => None
      end
  end.

Definition nodeAt (roots : list Cluster.t) (π : Position) : option Cluster.t :=
  match π with
  | [] => None
  | i :: ρ =>
      match childrenAt roots ρ with
      | Some cs => cs !! i
      | None => None
      end
  end.

(** A configuration of the traversal: the machine state, the context of
    every position whose pre-order step has run, and the positions whose
    post-order step has completed. *)
Record Config : Type := mkConfig {
  machine : State;
  context : gmap (list nat) nat;
  finished : gset (list nat)
}.

Inductive Event : Type :=
| PreOrder (π : Position)
| PostOrder (π : Position).

Definition initial (rootData : DataPtr) (st : State) : Config :=
  {| machine := st; context := {[ [] := rootData ]}; finished := ∅ |}.

Section Steps.
Context (visitorPre : Cluster.t → DataPtr → M EliminationData).
Context (visitorPost : Cluster.t → DataPtr → M unit).
Context (forest : ClusterTree).

(** Modelled from the spec: the concurrent walk of
    [treeTraversal::DepthFirstForestParallel]
    (gtsam/base/treeTraversal-inst.h).  "Sibling subtrees may execute
    concurrently"; "sibling subtrees may run in arbitrary relative order
    concurrently; parent-after-children ordering within one lineage is
    strict, enforced by join synchronization in the traversal driver"; "a
    failure in any subtree aborts the whole traversal".  Visitor calls are the
    atomic steps.  A pre-order step needs the parent's context and runs for
    the children of one parent in child order ("indexed by the same child
    ordering"); a post-order step waits at the join barrier for the
    post-order steps of all children.  Workers interleave freely otherwise. *)
Inductive step : Config → Event → Config → Prop :=
| step_pre cfg i ρ c pd D st1 d st2 :
    nodeAt (roots_ forest) (i :: ρ) = Some c →
    context cfg !! ρ = Some pd →
    context cfg !! (i :: ρ) = None →
    (∀ j, j < i → is_Some (context cfg !! (j :: ρ))) →
    visitorPre c pd (machine cfg) = (Ok D, st1) →
    pushData D st1 = (Ok d, st2) →
    step cfg (PreOrder (i :: ρ))
      {| machine := st2;
         context := <[i :: ρ := d]> (context cfg);
         finished := finished cfg |}
| step_post cfg π c d st1 :
    nodeAt (roots_ forest) π = Some c →
    context cfg !! π = Some d →
    π ∉ finished cfg →
    (∀ i, i < length (Cluster.children c) → (i :: π) ∈ finished cfg) →
    visitorPost c d (machine cfg) = (Ok tt, st1) →
    step cfg (PostOrder π)
      {| machine := st1;
         context := context cfg;
         finished := {[π]} ∪ finished cfg |}.

(** The events of an execution, oldest first. *)
Inductive run : Config → list Event → Config → Prop :=
| run_nil cfg : run cfg [] cfg
| run_snoc cfg evs cfg1 ev cfg2 :
    run cfg evs cfg1 → step cfg1 ev cfg2 → run cfg (evs ++ [ev]) cfg2.
End Steps.

Section Invariant.
Context (f : Eliminate).
Context (visitorPre : Cluster.t → DataPtr → M EliminationData).
Context (visitorPost : Cluster.t → DataPtr → M unit).
Context (forest : ClusterTree).

(** What the [j]-th slot of the context at [π] must hold: nothing before the
    pre-order step of the [j]-th child, null until its post-order step, what
    the child publishes afterwards. *)
Definition expectedSlot (cfg : Config) (π : Position) (j : nat) : option (option Factor) :=
  match childrenAt (roots_ forest) π with
  | Some cs =>
      match cs !! j with
      | Some ch =>
          match context cfg !! (j :: π) with
          | Some _ => Some (if decide ((j :: π) ∈ finished cfg) then slotOf f ch else None)
          | None => None
          end
      | None => None
      end
  | None => None
  end.

Record Inv (evs : list Event) (cfg : Config) : Prop := {
  inv_data : ∀ π d, context cfg !! π = Some d →
    ∃ D, dataList (machine cfg) !! d = Some D ∧
         (∀ j, childFactors D !! j = expectedSlot cfg π j) ∧
         match π with
         | [] => True
         | i :: ρ => parentData D = context cfg !! ρ ∧ myIndexInParent D = i
         end;
  inv_inj : ∀ π1 π2 d,
    context cfg !! π1 = Some d → context cfg !! π2 = Some d → π1 = π2;
  inv_fin : ∀ π, π ∈ finished cfg → is_Some (context cfg !! π);
  inv_closed : ∀ j π, is_Some (context cfg !! (j :: π)) → is_Some (context cfg !! π);
  inv_events : ∀ π, π ∈ finished cfg ↔ In (PostOrder π) evs;
  inv_pre : ∀ i ρ, is_Some (context cfg !! (i :: ρ)) → In (PreOrder (i :: ρ)) evs
}.
End Invariant.

End Parallel.

Import Parallel.

(** The visit of the subtree at position [i :: ρ], started in a
    configuration where nothing at or below that position has run and the
    elder siblings have been entered, is an execution that leaves the rest
    of the configuration alone and finishes the position. *)
Definition visitIsExecution
    (visitorPre : Cluster.t → DataPtr → M EliminationData)
    (visitorPost : Cluster.t → DataPtr → M unit)
    (forest : ClusterTree) (node : Cluster.t) : Prop :=
  ∀ i ρ cfg pd st',
    nodeAt (roots_ forest) (i :: ρ) = Some node →
    context cfg !! ρ = Some pd →
    (∀ j, j < i → is_Some (context cfg !! (j :: ρ))) →
    (∀ π, (i :: ρ) `suffix_of` π → context cfg !! π = None ∧ π ∉ finished cfg) →
    visitNode visitorPre visitorPost node pd (machine cfg) = (Ok tt, st') →
    ∃ evs cfg',
      run visitorPre visitorPost forest cfg evs cfg' ∧
      machine cfg' = st' ∧
      (∀ π, ¬ (i :: ρ) `suffix_of` π →
            context cfg' !! π = context cfg !! π ∧
            (π ∈ finished cfg' ↔ π ∈ finished cfg)) ∧
      is_Some (context cfg' !! (i :: ρ)) ∧
      (i :: ρ) ∈ finished cfg'.

(** ** A worked example *)

Module Example.
(** A symbolic elimination function: the conditional is on the ordered
    keys, the remaining factor is on the other keys of the gathered
    factors (the separator). *)
Definition separator (g : list (option Factor)) (o : list N) : list N :=
  filter (λ k, k ∉ o) (concat (map Factor_keys (factorsOf g))).

Definition symbolic : Eliminate := λ g o,
  (Some {| frontals := o; parents := separator g o |},
   Some (OrdinaryFactor (separator g o) (length g))).

(** An elimination function that returns a null remaining factor. *)
Definition nullRemaining : Eliminate := λ g o,
  (Some {| frontals := o; parents := [] |}, None).

Definition clusterA : Cluster.t :=
  Cluster.mk [1%N] [Some (OrdinaryFactor [1%N; 3%N] 11);
                    Some (BayesTreeOrphanWrapper [1%N] 0)] [] 2.
Definition clusterB : Cluster.t :=
  Cluster.mk [2%N] [Some (OrdinaryFactor [2%N] 12); None] [] 1.
Definition clusterR : Cluster.t :=
  Cluster.mk [3%N] [Some (OrdinaryFactor [2%N; 3%N] 10)] [clusterA; clusterB] 4.

Definition forest : ClusterTree :=
  {| roots_ := [clusterR]; remainingFactors_ := [Some (OrdinaryFactor [9%N] 13)] |}.

(** A heap holding the root clique of an orphan subtree. *)
Definition orphanClique : Node.t :=
  {| Node.conditional_ := Some {| frontals := [7%N]; parents := [1%N] |};
     Node.parent_ := None; Node.children := []; Node.problemSize_ := 1 |}.

Definition start : State :=
  {| heap := [orphanClique]; dataList := []; nodesIndex := ∅; calls := [] |}.

(** An existing tree of the shape of [forest]: the cliques of [clusterA],
    [clusterB] and [clusterR] at the addresses 1, 2 and 3. *)
Definition existing : State :=
  {| heap := [orphanClique;
              {| Node.conditional_ := Some {| frontals := [1%N]; parents := [3%N] |};
                 Node.parent_ := Some 3; Node.children := []; Node.problemSize_ := 2 |};
              {| Node.conditional_ := Some {| frontals := [2%N]; parents := [3%N] |};
                 Node.parent_ := Some 3; Node.children := []; Node.problemSize_ := 1 |};
              {| Node.conditional_ := Some {| frontals := [3%N]; parents := [] |};
                 Node.parent_ := None; Node.children := [1; 2]; Node.problemSize_ := 4 |}];
     dataList := []; nodesIndex := ∅; calls := [] |}.

Definition existingTree : BayesTree :=
  {| bt_roots_ := [3]; bt_nodes_ := list_to_map [(1%N, 1); (2%N, 2); (3%N, 3)] |}.
End Example.

(** A state in the middle of a fresh build: the dummy root context and the
    context of a first root, each with its clique, and the clique of an
    orphan subtree. *)
Definition Example_midBuild : State :=
  {| heap := [Example.orphanClique; Node.empty;
              {| Node.conditional_ := None; Node.parent_ := None;
                 Node.children := []; Node.problemSize_ := 4 |}];
     dataList := [ {| parentData := None; myIndexInParent := 0;
                      childFactors := [None]; bayesTreeNode := Some 1 |};
                   {| parentData := Some 0; myIndexInParent := 0;
                      childFactors := [Some (BayesTreeOrphanWrapper [3%N] 0)];
                      bayesTreeNode := Some 2 |} ];
     nodesIndex := ∅;
     calls := [] |}.

(** The state in which [eliminate] starts the traversal of the example
    forest: the dummy root context, its clique, the orphan clique. *)
Definition Example_traversalStart : State :=
  {| heap := [Example.orphanClique; Node.empty];
     dataList := [ {| parentData := None; myIndexInParent := 0;
                      childFactors := []; bayesTreeNode := Some 1 |} ];
     nodesIndex := ∅;
     calls := [] |}.

(** An execution of the example in which the second child of the root
    finishes before the first. *)
Definition Example_schedule : list Event :=
  [PreOrder [0]; PreOrder [0; 0]; PreOrder [1; 0];
   PostOrder [1; 0]; PostOrder [0; 0]; PostOrder [0]].

(** ** The built tree, address by address

    [allocNode] hands out consecutive addresses, so the walk of [visitNode]
    places the clique of a cluster at the first free address and the
    cliques of its subtrees right after it, child by child.  The
    definitions below compute that placement; the theorems compare the heap
    that [eliminate] leaves with it. *)

#[export] Instance Conditional_eq_dec : EqDecision Conditional.
Proof. solve_decision. Defined.

(** The number of clusters of a subtree, and of a sequence of subtrees. *)
Definition subtreeSize (c : Cluster.t) : nat := length (clustersOf c).

Definition forestSize (cs : list Cluster.t) : nat := length (concat (map clustersOf cs)).

Section Layout.
Context {A : Type} (place : nat → Cluster.t → list A).

(** Consecutive subtrees, the first one at address [b]. *)
Fixpoint layout (b : nat) (cs : list Cluster.t) : list A :=
  match cs with
  | [] => []
  | c :: cs' => place b c ++ layout (b + subtreeSize c) cs'
  end.
End Layout.

(** The addresses of the cliques of sibling clusters, the first at [b]. *)
Definition childAddrs (b : nat) (cs : list Cluster.t) : list CliquePtr :=
  layout (λ a _, [a]) b cs.

(** A cluster with the address of its clique and of its parent's clique
    ([None] under the dummy root, whose clique is not linked). *)
Record Placed : Type := mkPlaced {
  pl_cluster : Cluster.t;
  pl_clique : CliquePtr;
  pl_parent : option CliquePtr
}.

(** The clusters of a subtree in post-order, each with its placement. *)
Fixpoint placed (par : option CliquePtr) (a : CliquePtr) (c : Cluster.t) : list Placed :=
  layout (placed (Some a)) (S a) (Cluster.children c) ++ [mkPlaced c a par].

(** The clique of a placed cluster once its post-order visitor is done. *)
Definition cliqueOf (f : Eliminate) (x : Placed) : Node.t :=
  {| Node.conditional_ := fst (resultOf f (pl_cluster x));
     Node.parent_ := pl_parent x;
     Node.children := childAddrs (S (pl_clique x)) (Cluster.children (pl_cluster x)) ++
                      orphansOf (Cluster.factors (pl_cluster x));
     Node.problemSize_ := Cluster.problemSize (pl_cluster x) |}.

(** The parent pointer of the clique [q] after the orphan loop of one
    cluster, and after those of a post-order sequence: the last cluster that
    wraps [q] among its own factors wins. *)
Definition adopt (q : CliquePtr) (par : option CliquePtr) (x : Placed) : option CliquePtr :=
  if decide (q ∈ orphansOf (Cluster.factors (pl_cluster x))) then Some (pl_clique x) else par.

Definition reparent (q : CliquePtr) (l : list Placed) (par : option CliquePtr)
  : option CliquePtr :=
  foldl (adopt q) par l.

(** The frontal keys of the conditional returned for a cluster. *)
Definition frontalsOf (f : Eliminate) (c : Cluster.t) : list Key :=
  match fst (resultOf f c) with
  | Some cond => frontals cond
  | None => []
  end.

(** [nodesIndex.insert(std::make_pair(j, p))] as a function on the index,
    and the index after the post-order visitors of a post-order sequence:
    the first cluster that has [j] as a frontal key wins. *)
Definition indexInsert (p : CliquePtr) (m : gmap Key CliquePtr) (j : Key)
  : gmap Key CliquePtr :=
  match m !! j with
  | Some _ => m
  | None => <[j := p]> m
  end.

Definition indexAll (f : Eliminate) (l : list Placed) (m : gmap Key CliquePtr)
  : gmap Key CliquePtr :=
  foldl (λ m x, foldl (indexInsert (pl_clique x)) m (frontalsOf f (pl_cluster x))) m l.

(** The parent pointer that the allocating constructor gives a new clique
    under the context [D] with clique [p]: none under the dummy root. *)
Definition linkOf (D : EliminationData) (p : CliquePtr) : option CliquePtr :=
  match parentData D with Some _ => Some p | None => None end.

(** What the fresh-build visit of the cluster sequence [cs] under the
    clique [p] has done to the heap and the key index between [st] and
    [st'].  Cliques below [h0] are the ones that orphan wrappers may wrap. *)
Record builtExactly (f : Eliminate) (h0 : nat) (par : option CliquePtr)
    (cs : list Cluster.t) (p : CliquePtr) (st st' : State) : Prop := {
  bx_length : length (heap st') = length (heap st) + forestSize cs;
  bx_new : ∀ x, x ∈ layout (placed par) (length (heap st)) cs →
             heap st' !! pl_clique x = Some (cliqueOf f x);
  bx_parent : ∀ n, heap st !! p = Some n →
             heap st' !! p =
             Some (Node.set_children (Node.children n ++ childAddrs (length (heap st)) cs) n);
  bx_frame : ∀ q, h0 ≤ q < length (heap st) → q ≠ p → heap st' !! q = heap st !! q;
  bx_old : ∀ q n, q < h0 → heap st !! q = Some n →
             heap st' !! q =
             Some (Node.set_parent
                     (reparent q (layout (placed par) (length (heap st)) cs) (Node.parent_ n)) n);
  bx_index : nodesIndex st' =
             indexAll f (layout (placed par) (length (heap st)) cs) (nodesIndex st)
}.

(** The statement proved for every cluster by induction on the tree. *)
Definition builtSpec (f : Eliminate) (h0 : nat) (c : Cluster.t) : Prop :=
  ∀ pd P pp st st',
    dataList st !! pd = Some P → bayesTreeNode P = Some pp →
    h0 ≤ pp < length (heap st) → orphansBelow h0 c →
    visitBuild f c pd st = (Ok tt, st') →
    builtExactly f h0 (linkOf P pp) [c] pp st st'.

(** The clique at [a] mirrors the cluster [c]: it holds the conditional
    returned for [c] and the problem size of [c], its parent pointer is
    [par], its first children mirror the children of [c] in child order and
    point back to it, and its other children are the cliques wrapped by the
    orphan wrappers among the own factors of [c]. *)
Fixpoint mirrors (h : list Node.t) (f : Eliminate) (par : option CliquePtr)
    (c : Cluster.t) (a : CliquePtr) : bool :=
  match h !! a with
  | Some n =>
      bool_decide (Node.conditional_ n = fst (resultOf f c)) &&
      bool_decide (Node.parent_ n = par) &&
      bool_decide (Node.problemSize_ n = Cluster.problemSize c) &&
      bool_decide (drop (length (Cluster.children c)) (Node.children n) =
                   orphansOf (Cluster.factors c)) &&
      prefixMatch (mirrors h f (Some a)) (Cluster.children c) (Node.children n)
  | None => false
  end.

(** ** In-place elimination, clique by clique *)

Section ZipPlace.
Context {A B C : Type} (place : A → B → list C).

Fixpoint zipPlace (xs : list A) (ys : list B) : list C :=
  match xs, ys with
  | x :: xs', y :: ys' => place x y ++ zipPlace xs' ys'
  | _, _ => []
  end.
End ZipPlace.

(** The clusters of a subtree in post-order, each with the clique that the
    reusing constructor locates for it when the cluster [c] is given the
    clique [q]: the [i]-th child gets the [i]-th child clique. *)
Fixpoint matched (kids : list (list CliquePtr)) (c : Cluster.t) (q : CliquePtr)
  : list (Cluster.t * CliquePtr) :=
  zipPlace (matched kids) (Cluster.children c) (default [] (kids !! q)) ++ [(c, q)].

Definition matchedForest (st : State) (bayesTree : BayesTree) (t : ClusterTree)
  : list (Cluster.t * CliquePtr) :=
  zipPlace (matched (cliqueChildren st)) (roots_ t) (bt_roots_ bayesTree).

(** What an in-place visit has done to the heap: the clique of every
    visited cluster has received the cluster's problem size and the
    conditional returned for it; no other clique has changed. *)
Record updatedInPlace (f : Eliminate) (l : list (Cluster.t * CliquePtr))
    (st st' : State) : Prop := {
  ux_set : ∀ c q n, (c, q) ∈ l → heap st !! q = Some n →
             heap st' !! q =
             Some (Node.set_conditional (fst (resultOf f c))
                     (Node.set_problemSize (Cluster.problemSize c) n));
  ux_frame : ∀ q, q ∉ map snd l → heap st' !! q = heap st !! q
}.

(** The statement proved for every cluster by induction on the tree. *)
Definition inPlaceSpec (f : Eliminate) (c : Cluster.t) : Prop :=
  ∀ pd P pp qs q st st',
    dataList st !! pd = Some P → bayesTreeNode P = Some pp →
    cliqueChildren st !! pp = Some qs →
    qs !! length (childFactors P) = Some q →
    hasShape (cliqueChildren st) c q = true →
    NoDup (map snd (matched (cliqueChildren st) c q)) →
    visitInPlace f c pd st = (Ok tt, st') →
    updatedInPlace f (matched (cliqueChildren st) c q) st st'.

(** ** In-place elimination that stops at an orphan wrapper *)

(** The cluster of a matched pair has no orphan wrapper among its own
    factors. *)
Definition ownOrphanFree (x : Cluster.t * CliquePtr) : bool :=
  bool_decide (orphansOf (Cluster.factors x.1) = []).

(** The matched pairs before the first cluster with an orphan wrapper. *)
Fixpoint cleanPrefix (l : list (Cluster.t * CliquePtr)) : list (Cluster.t * CliquePtr) :=
  match l with
  | [] => []
  | x :: l' => if ownOrphanFree x then x :: cleanPrefix l' else []
  end.

Definition afterPrefix (l : list (Cluster.t * CliquePtr)) : list (Cluster.t * CliquePtr) :=
  drop (length (cleanPrefix l)) l.

Definition callOf (f : Eliminate) (x : Cluster.t * CliquePtr) : Call :=
  (gathered f x.1, Cluster.keys x.1).

(** What an in-place visit that stops at the first cluster with an orphan
    wrapper has done: the clusters before it were eliminated into their
    cliques; the clique of the rejected cluster has received the cluster's
    problem size and nothing else; the cliques of the clusters after it kept
    their conditional, parent and children; no other clique changed. *)
Record abortedInPlace (f : Eliminate) (l : list (Cluster.t * CliquePtr))
    (st st' : State) : Prop := {
  ab_calls : calls st' = calls st ++ map (callOf f) (cleanPrefix l);
  ab_done : ∀ c q n, (c, q) ∈ cleanPrefix l → heap st !! q = Some n →
              heap st' !! q =
              Some (Node.set_conditional (fst (resultOf f c))
                      (Node.set_problemSize (Cluster.problemSize c) n));
  ab_first : ∀ c q n, head (afterPrefix l) = Some (c, q) → heap st !! q = Some n →
               heap st' !! q = Some (Node.set_problemSize (Cluster.problemSize c) n);
  ab_rest : ∀ c q n, (c, q) ∈ afterPrefix l → heap st !! q = Some n →
              ∃ n', heap st' !! q = Some n' ∧
                    Node.conditional_ n' = Node.conditional_ n ∧
                    Node.parent_ n' = Node.parent_ n ∧
                    Node.children n' = Node.children n;
  ab_frame : ∀ q, q ∉ map snd l → heap st' !! q = heap st !! q
}.


(** ** Product manifolds (gtsam/base/Manifold.h) *)

Module Manifold.
Section Traits.
(** The coefficients of tangent vectors ([double] in the source) are only
    moved around by the code embedded here, never computed with. *)
Context {Scalar : Type}.

(** [HasManifoldPrereqs]: a class with a compile-time [dimension], and
    [localCoordinates] and [retract] on tangent vectors of that fixed size
    ([Eigen::Matrix<double, dimension, 1>]). *)
Class HasManifoldPrereqs (T : Type) : Type := {
  dimension : nat;
  localCoordinates : T → T → Vector.t Scalar dimension;
  retract : T → Vector.t Scalar dimension → T
}.

(** [ManifoldImpl<Class, N>::GetDimension] for a fixed dimension. *)
Definition GetDimension {T} `{HasManifoldPrereqs T} (_ : T) : nat := dimension.

(** [ManifoldTraits::Local] and [ManifoldTraits::Retract]. *)
Definition Local {T} `{HasManifoldPrereqs T} (origin other : T)
  : Vector.t Scalar dimension :=
  localCoordinates origin other.

Definition Retract {T} `{HasManifoldPrereqs T} (origin : T)
    (v : Vector.t Scalar dimension) : T :=
  retract origin v.

(** Eigen's [head<n>()] and [tail<m>()] on a vector of [n + m]
    coefficients: the first [n] and the last [m] of them. *)
Definition head (n : nat) {m : nat} (v : Vector.t Scalar (n + m)) : Vector.t Scalar n :=
  fst (Vector.splitat n v).
Definition tail {n : nat} (m : nat) (v : Vector.t Scalar (n + m)) : Vector.t Scalar m :=
  snd (Vector.splitat n v).

(** [ProductManifold<M1, M2>], a [std::pair<M1, M2>]: [dimension],
    [retract] and [localCoordinates]; [v << v1, v2] is the concatenation. *)
#[global] Instance ProductManifold {M1 M2 : Type}
    `{HasManifoldPrereqs M1} `{HasManifoldPrereqs M2} : HasManifoldPrereqs (M1 * M2) := {|
  dimension := dimension (T := M1) + dimension (T := M2);
  retract p xi :=
    let m1 := Retract (fst p) (head dimension xi) in
    let m2 := Retract (snd p) (tail dimension xi) in
    (m1, m2);
  localCoordinates p other :=
    let v1 := Local (fst p) (fst other) in
    let v2 := Local (snd p) (snd other) in
    Vector.append v1 v2
|}.
End Traits.
End Manifold.

(** ** Further examples *)

Module Scenario.
(** The forest of [Example] without the orphan wrapper. *)
Definition clusterC : Cluster.t :=
  Cluster.mk [1%N] [Some (OrdinaryFactor [1%N; 3%N] 11)] [] 2.
Definition clusterS : Cluster.t :=
  Cluster.mk [3%N] [Some (OrdinaryFactor [2%N; 3%N] 10)] [clusterC; Example.clusterB] 4.
Definition plainForest : ClusterTree :=
  {| roots_ := [clusterS]; remainingFactors_ := [Some (OrdinaryFactor [9%N] 13); None] |}.

(** A forest without clusters. *)
Definition rootless : ClusterTree :=
  {| roots_ := []; remainingFactors_ := [None; Some (OrdinaryFactor [9%N] 13)] |}.


(** An elimination function that returns a null conditional. *)
Definition nullConditional : Eliminate := λ g o,
  (None, Some (OrdinaryFactor (Example.separator g o) (length g))).

(** The integers as a manifold of dimension 1 over integer coefficients. *)
#[global] Instance ZLine : Manifold.HasManifoldPrereqs (Scalar := Z) Z :=
  {| Manifold.dimension := 1;
     Manifold.localCoordinates a b := @Vector.cons Z (b - a)%Z 0 (@Vector.nil Z);
     Manifold.retract a v := (a + @Vector.hd Z 0 v)%Z |}.
End Scenario.

(** A forest in which a cluster with an orphan wrapper, [Example.clusterA],
    comes after a sibling in post-order, and an existing tree of its shape
    whose cliques carry outdated problem sizes: the cliques of
    [Example.clusterB], [Example.clusterA] and [clusterT] at the addresses
    1, 2 and 3. *)
Module Rejected.
Definition clusterT : Cluster.t :=
  Cluster.mk [3%N] [Some (OrdinaryFactor [2%N; 3%N] 10)]
             [Example.clusterB; Example.clusterA] 4.

Definition forest : ClusterTree := {| roots_ := [clusterT]; remainingFactors_ := [] |}.

Definition existing : State :=
  {| heap := [Example.orphanClique;
              {| Node.conditional_ := Some {| frontals := [2%N]; parents := [3%N] |};
                 Node.parent_ := Some 3; Node.children := []; Node.problemSize_ := 7 |};
              {| Node.conditional_ := Some {| frontals := [1%N]; parents := [3%N] |};
                 Node.parent_ := Some 3; Node.children := []; Node.problemSize_ := 7 |};
              {| Node.conditional_ := Some {| frontals := [3%N]; parents := [] |};
                 Node.parent_ := None; Node.children := [1; 2]; Node.problemSize_ := 7 |}];
     dataList := []; nodesIndex := ∅; calls := [] |}.
End Rejected.

(** A state in the middle of a fresh build over a heap with the root
    cliques of two orphan subtrees, at the addresses 0 and 1: the dummy
    root context and the context of a first root, each with its clique; a
    child of the first root has left a wrapper around the clique 1 in its
    slot. *)
Definition Example_twoOrphans : State :=
  {| heap := [Example.orphanClique;
              {| Node.conditional_ := Some {| frontals := [8%N]; parents := [3%N] |};
                 Node.parent_ := None; Node.children := []; Node.problemSize_ := 1 |};
              Node.empty;
              {| Node.conditional_ := None; Node.parent_ := None;
                 Node.children := [5]; Node.problemSize_ := 4 |}];
     dataList := [ {| parentData := None; myIndexInParent := 0;
                      childFactors := [None]; bayesTreeNode := Some 2 |};
                   {| parentData := Some 0; myIndexInParent := 0;
                      childFactors := [Some (BayesTreeOrphanWrapper [3%N] 1)];
                      bayesTreeNode := Some 3 |} ];
     nodesIndex := ∅;
     calls := [] |}.

(** The example forest with a second root, whose remaining factor is
    empty. *)
Definition Example_twoRoots : ClusterTree :=
  {| roots_ := [Example.clusterR; Example.clusterB];
     remainingFactors_ := [Some (OrdinaryFactor [9%N] 13)] |}.

Module PassThrough.
(** An elimination function that hands the first factor of the graph back
    as the remaining factor. *)
Definition passThrough : Eliminate := λ g o,
  (Some {| frontals := o; parents := [] |},
   Some (default (OrdinaryFactor [] 0) (head (factorsOf g)))).

Definition x : Factor := OrdinaryFactor [1%N; 3%N] 11.

Definition leaf : Cluster.t := Cluster.mk [1%N] [Some x] [] 1.
Definition top : Cluster.t := Cluster.mk [3%N] [] [leaf] 2.

Definition forest : ClusterTree := {| roots_ := [top]; remainingFactors_ := [] |}.

Definition start : State :=
  {| heap := []; dataList := []; nodesIndex := ∅; calls := [] |}.
End PassThrough.

(** * Lemmas and theorems *)

(** Closed decidable goals are settled by evaluation. *)
Ltac decide_by_computation :=
  match goal with
  | |- ?P => apply (@bool_decide_unpack P _); vm_compute; exact I
  end.

(** ** Reasoning about the monad *)

Lemma bind_run {A B} (m : M A) (k : A → M B) (st : State) :
  (m ≫= k) st =
  match m st with
  | (Ok a, st') => k a st'
  | (Fail e, st') => (Fail e, st')
  end.
Proof. reflexivity. Qed.

Lemma bind_Ok {A B} (m : M A) (k : A → M B) st a st' :
  m st = (Ok a, st') → (m ≫= k) st = k a st'.
Proof. intros H. rewrite bind_run, H. reflexivity. Qed.

Lemma bind_Fail {A B} (m : M A) (k : A → M B) st e st' :
  m st = (Fail e, st') → (m ≫= k) st = (Fail e, st').
Proof. intros H. rewrite bind_run, H. reflexivity. Qed.

Lemma bind_Ok_inv {A B} (m : M A) (k : A → M B) st b st2 :
  (m ≫= k) st = (Ok b, st2) →
  ∃ a st1, m st = (Ok a, st1) ∧ k a st1 = (Ok b, st2).
Proof.
  rewrite bind_run. destruct (m st) as [[a|e] st1]; intros H.
  - eauto.
  - discriminate.
Qed.

Lemma bind_Fail_inv {A B} (m : M A) (k : A → M B) st e st2 :
  (m ≫= k) st = (Fail e, st2) →
  m st = (Fail e, st2) ∨ ∃ a st1, m st = (Ok a, st1) ∧ k a st1 = (Fail e, st2).
Proof.
  rewrite bind_run. destruct (m st) as [[a|e'] st1]; intros H.
  - right. eauto.
  - left. congruence.
Qed.

Lemma bind_assoc_run {A B C} (m : M A) (k : A → M B) (k' : B → M C) st :
  ((m ≫= k) ≫= k') st = (m ≫= (λ a, k a ≫= k')) st.
Proof. rewrite !bind_run. destruct (m st) as [[a|e] st']; reflexivity. Qed.

Lemma nodeOf_run D p st : bayesTreeNode D = Some p → nodeOf D st = (Ok p, st).
Proof. unfold nodeOf. intros ->. reflexivity. Qed.

Lemma derefData_run d D st :
  dataList st !! d = Some D → derefData d st = (Ok D, st).
Proof. unfold derefData. intros ->. reflexivity. Qed.

Lemma derefNode_run p n st :
  heap st !! p = Some n → derefNode p st = (Ok n, st).
Proof. unfold derefNode. intros ->. reflexivity. Qed.

Lemma updateData_run d g D st :
  dataList st !! d = Some D →
  updateData d g st = (Ok tt, set_dataList (<[d := g D]> (dataList st)) st).
Proof. intros H. unfold updateData. rewrite (bind_Ok _ _ _ _ _ (derefData_run _ _ _ H)). reflexivity. Qed.

Lemma updateNode_run p g n st :
  heap st !! p = Some n →
  updateNode p g st = (Ok tt, set_heap (<[p := g n]> (heap st)) st).
Proof. intros H. unfold updateNode. rewrite (bind_Ok _ _ _ _ _ (derefNode_run _ _ _ H)). reflexivity. Qed.

(** ** The allocating context constructor *)

Lemma allocNode_run st :
  allocNode st = (Ok (length (heap st)), set_heap (heap st ++ [Node.empty]) st).
Proof. reflexivity. Qed.

Lemma pushData_run D st :
  pushData D st = (Ok (length (dataList st)), set_dataList (dataList st ++ [D]) st).
Proof. reflexivity. Qed.

Lemma ret_run {A} (a : A) st : (mret a : M A) st = (Ok a, st).
Proof. reflexivity. Qed.

Lemma reserveSlot_run pd P st :
  dataList st !! pd = Some P →
  reserveSlot (Some pd) st =
  (Ok (length (childFactors P)),
   set_dataList (<[pd := set_childFactors (childFactors P ++ [None]) P]> (dataList st)) st).
Proof.
  intros H. unfold reserveSlot.
  rewrite (bind_Ok _ _ _ _ _ (derefData_run _ _ _ H)).
  rewrite (bind_Ok _ _ _ _ _ (updateData_run _ _ _ _ H)).
  reflexivity.
Qed.

Lemma insert_snoc {A} (l : list A) (x y : A) : <[length l := y]> (l ++ [x]) = l ++ [y].
Proof.
  replace (length l) with (length l + 0) by lia. rewrite insert_app_r. reflexivity.
Qed.

Lemma lookup_snoc {A} (l : list A) (x : A) : (l ++ [x]) !! length l = Some x.
Proof. apply list_lookup_middle. reflexivity. Qed.

Ltac simp_state :=
  unfold set_heap, set_dataList, set_nodesIndex, set_calls in *; simpl in *.

(** One step of symbolic execution: run the first action of a bind with the
    given equation. *)
Ltac mstep lem := erewrite bind_Ok; [ | apply lem ]; simp_state.
Ltac mstep_by lem tac := erewrite bind_Ok; [ | apply lem; simp_state; tac ]; simp_state.

Lemma EliminationData_ctor_run pd nChildren P pp pn st :
  dataList st !! pd = Some P →
  bayesTreeNode P = Some pp →
  heap st !! pp = Some pn →
  let new := length (heap st) in
  let newNode := Node.set_parent (match parentData P with Some _ => Some pp | None => None end) Node.empty in
  EliminationData_ctor (Some pd) nChildren st =
  (Ok {| parentData := Some pd; myIndexInParent := length (childFactors P);
         childFactors := []; bayesTreeNode := Some new |},
   set_heap (<[pp := Node.set_children (Node.children pn ++ [new]) pn]> (heap st ++ [newNode]))
     (set_dataList (<[pd := set_childFactors (childFactors P ++ [None]) P]> (dataList st)) st)).
Proof.
  intros HP Hpp Hpn new newNode.
  destruct st as [h dl ni cl]; simpl in *.
  assert (Hlt : pp < length h) by (eapply lookup_lt_Some; eauto).
  assert (Hpd : pd < length dl) by (eapply lookup_lt_Some; eauto).
  unfold EliminationData_ctor.
  mstep allocNode_run.
  mstep_by reserveSlot_run ltac:(exact HP).
  erewrite bind_Ok; [reflexivity|].
  mstep_by derefData_run ltac:(apply list_lookup_insert_eq; done).
  unfold nodeOf at 1; simpl. rewrite Hpp.
  mstep @ret_run.
  subst new newNode.
  destruct (parentData P) as [gp|] eqn:Hgp.
  - mstep_by updateNode_run ltac:(apply lookup_snoc).
    rewrite insert_snoc.
    mstep_by derefNode_run ltac:(rewrite lookup_app_l by done; exact Hpn).
    erewrite updateNode_run; simp_state; [reflexivity|].
    rewrite lookup_app_l by done; exact Hpn.
  - mstep @ret_run.
    mstep_by derefNode_run ltac:(rewrite lookup_app_l by done; exact Hpn).
    erewrite updateNode_run; simp_state; [reflexivity|].
    rewrite lookup_app_l by done; exact Hpn.
Qed.

Lemma EliminationData_ctor_root_run nChildren st :
  EliminationData_ctor None nChildren st =
  (Ok {| parentData := None; myIndexInParent := 0;
         childFactors := []; bayesTreeNode := Some (length (heap st)) |},
   set_heap (heap st ++ [Node.empty]) st).
Proof. reflexivity. Qed.

(** The pre-order visitor of the allocating variant. *)
Lemma eliminationPreOrderVisitor_run node pd P pp pn st :
  dataList st !! pd = Some P →
  bayesTreeNode P = Some pp →
  heap st !! pp = Some pn →
  let new := length (heap st) in
  let newNode :=
    {| Node.conditional_ := None;
       Node.parent_ := match parentData P with Some _ => Some pp | None => None end;
       Node.children := [];
       Node.problemSize_ := Cluster.problemSize node |} in
  eliminationPreOrderVisitor EliminationData_ctor node pd st =
  (Ok {| parentData := Some pd; myIndexInParent := length (childFactors P);
         childFactors := []; bayesTreeNode := Some new |},
   set_heap (<[pp := Node.set_children (Node.children pn ++ [new]) pn]> (heap st ++ [newNode]))
     (set_dataList (<[pd := set_childFactors (childFactors P ++ [None]) P]> (dataList st)) st)).
Proof.
  intros HP Hpp Hpn new newNode.
  assert (Hlt : pp < length (heap st)) by (eapply lookup_lt_Some; eauto).
  unfold eliminationPreOrderVisitor.
  mstep_by EliminationData_ctor_run ltac:(eauto).
  mstep @ret_run.
  mstep_by updateNode_run ltac:(rewrite list_lookup_insert_ne by lia; apply lookup_snoc).
  rewrite ret_run. subst new newNode. f_equal. destruct st; simp_state. f_equal.
  rewrite list_insert_insert_ne by lia. rewrite insert_snoc. reflexivity.
Qed.

(** ** The shared post-order helper *)

Lemma helper_run f node d D p n st :
  dataList st !! d = Some D →
  bayesTreeNode D = Some p →
  heap st !! p = Some n →
  eliminationPostOrderVisitorHelper f node d st =
  forwardRemaining D (snd (f (Cluster.factors node ++ childFactors D) (Cluster.keys node)))
    (afterElimination f node D p n st).
Proof.
  intros HD Hp Hn. unfold eliminationPostOrderVisitorHelper.
  mstep_by derefData_run ltac:(exact HD).
  erewrite bind_Ok; [|reflexivity]. simp_state.
  unfold nodeOf at 1. rewrite Hp. mstep @ret_run.
  unfold setEliminationResult.
  mstep_by updateNode_run ltac:(exact Hn).
  unfold forwardRemaining, afterElimination. simp_state.
  destruct (snd _) as [r|]; reflexivity.
Qed.

(** The helper only touches the data list after the elimination. *)
Lemma forwardRemaining_state D second st :
  ∃ out dl', forwardRemaining D second st = (out, set_dataList dl' st).
Proof.
  destruct st as [h dl ni cl]. unfold forwardRemaining.
  destruct second as [r|]; [|by eexists _, _].
  destruct (negb (Factor_empty r)); [|by eexists _, _].
  destruct (parentData D) as [pd|]; [|by eexists _, _].
  rewrite bind_run. unfold derefData at 1. simpl.
  destruct (dl !! pd) as [P|] eqn:HP; [|by eexists _, _].
  destruct (decide _); [|by eexists _, _].
  erewrite updateData_run by exact HP. by eexists _, _.
Qed.

(** When the parent's slot is reserved and still null, forwarding leaves in
    it what [publish] says. *)
Lemma forwardRemaining_run D pd P r st :
  parentData D = Some pd →
  dataList st !! pd = Some P →
  childFactors P !! myIndexInParent D = Some None →
  forwardRemaining D (Some r) st =
  (Ok tt, set_dataList
     (<[pd := set_childFactors (<[myIndexInParent D := publish (Some r)]> (childFactors P)) P]>
        (dataList st)) st).
Proof.
  intros Hpd HP Hslot. unfold forwardRemaining, publish.
  destruct (Factor_empty r); simpl.
  - rewrite (list_insert_id (childFactors P)) by done.
    replace (set_childFactors (childFactors P) P) with P by (destruct P; reflexivity).
    rewrite list_insert_id by done. destruct st; reflexivity.
  - rewrite Hpd. mstep_by derefData_run ltac:(exact HP).
    apply lookup_lt_Some in Hslot.
    destruct (decide _); [|done].
    erewrite updateData_run by exact HP. reflexivity.
Qed.

(** ** The orphan loop and the key index loop of the fresh-build visitor *)

Lemma orphansAttached_nil p h : orphansAttached p [] h h.
Proof.
  split; [done|]. intros q n Hq. exists n.
  split; [done|]. split; [done|]. split; [done|]. split.
  - destruct (decide _); by rewrite ?app_nil_r.
  - destruct (decide _) as [Hin|]; [by apply elem_of_nil in Hin|done].
Qed.

Lemma orphansAttached_cons p q qs h h1 h2 :
  orphansAttached p [q] h h1 → orphansAttached p qs h1 h2 →
  orphansAttached p (q :: qs) h h2.
Proof.
  intros [Hl1 H1] [Hl2 H2]. split; [congruence|].
  intros a n Ha.
  destruct (H1 a n Ha) as (n1 & Ha1 & Hc1 & Hs1 & Hk1 & Hp1).
  destruct (H2 a n1 Ha1) as (n2 & Ha2 & Hc2 & Hs2 & Hk2 & Hp2).
  exists n2. split; [done|]. split; [congruence|]. split; [congruence|]. split.
  - rewrite Hk2, Hk1, <- app_assoc. f_equal. destruct (decide (a = p)); done.
  - rewrite Hp2, Hp1.
    destruct (decide (a ∈ qs)) as [Hin|Hin].
    + rewrite decide_True by (by apply list_elem_of_further). done.
    + destruct (decide (a ∈ [q])) as [Hq|Hq].
      * apply list_elem_of_singleton in Hq as ->.
        rewrite decide_True by apply list_elem_of_here. done.
      * rewrite decide_False; [done|].
        intros [->|Hc]%elem_of_cons; [apply Hq, list_elem_of_here|done].
Qed.

Lemma attachOrphan_run p q ks st :
  p < length (heap st) → q < length (heap st) →
  ∃ h', attachOrphan p (Some (BayesTreeOrphanWrapper ks q)) st = (Ok tt, set_heap h' st) ∧
        orphansAttached p [q] (heap st) h'.
Proof.
  intros Hp Hq. unfold attachOrphan. simpl.
  destruct st as [h dl ni cl]; simp_state.
  destruct (lookup_lt_is_Some_2 _ _ Hp) as [n Hn].
  mstep_by derefNode_run ltac:(exact Hn).
  mstep_by updateNode_run ltac:(exact Hn).
  set (h1 := <[p := Node.set_children (Node.children n ++ [q]) n]> h).
  assert (Hq1 : q < length h1) by (subst h1; by rewrite length_insert).
  destruct (lookup_lt_is_Some_2 _ _ Hq1) as [nq Hnq].
  erewrite updateNode_run by exact Hnq. simp_state.
  eexists; split; [reflexivity|].
  split; [by subst h1; rewrite !length_insert|].
  intros a na Ha.
  assert (Hnq' : nq = if decide (q = p)
                      then Node.set_children (Node.children n ++ [q]) n
                      else default Node.empty (h !! q)).
  { subst h1. destruct (decide (q = p)) as [->|Hqp].
    - rewrite list_lookup_insert_eq in Hnq by done. congruence.
    - rewrite list_lookup_insert_ne in Hnq by done. rewrite Hnq. done. }
  destruct (decide (a = q)) as [->|Haq].
  - rewrite list_lookup_insert_eq by done. eexists; split; [done|].
    rewrite (decide_True (P := q ∈ [q])) by apply list_elem_of_here.
    subst nq. destruct (decide (q = p)) as [->|Hqp].
    + assert (na = n) by congruence. subst na. by repeat split.
    + rewrite Ha. simpl. rewrite app_nil_r. by repeat split.
  - rewrite list_lookup_insert_ne by done.
    rewrite (decide_False (P := a ∈ [q])) by (by intros ->%list_elem_of_singleton).
    subst h1. destruct (decide (a = p)) as [->|Hap].
    + rewrite list_lookup_insert_eq by done. eexists; split; [done|].
      assert (na = n) by congruence. subst na. by repeat split.
    + rewrite list_lookup_insert_ne by done. eexists; split; [done|].
      rewrite app_nil_r. by repeat split.
Qed.

Lemma attachOrphans_run p fs st :
  p < length (heap st) →
  Forall (λ q, q < length (heap st)) (orphansOf fs) →
  ∃ h', forEach (attachOrphan p) fs st = (Ok tt, set_heap h' st) ∧
        orphansAttached p (orphansOf fs) (heap st) h'.
Proof.
  revert st. induction fs as [|f fs IH]; intros st Hp Hqs.
  - exists (heap st). split; [destruct st; reflexivity|apply orphansAttached_nil].
  - simpl. destruct f as [[ks pay|ks q]|].
    + apply (IH st Hp Hqs).
    + unfold orphansOf in *. simpl in *. apply Forall_cons in Hqs as [Hq Hqs].
      destruct (attachOrphan_run p q ks st Hp Hq) as (h1 & Hrun & Hrel).
      rewrite (bind_Ok _ _ _ _ _ Hrun).
      destruct (IH (set_heap h1 st)) as (h2 & Hrun2 & Hrel2).
      * simpl. destruct Hrel as [-> _]. done.
      * simpl. destruct Hrel as [-> _]. done.
      * exists h2. rewrite Hrun2. split; [destruct st; reflexivity|].
        eapply orphansAttached_cons; eauto.
    + apply (IH st Hp Hqs).
Qed.

Lemma nodesIndex_loop_run p js st :
  ∃ ni', forEach (λ j, nodesIndex_insert j p) js st = (Ok tt, set_nodesIndex ni' st).
Proof.
  revert st. induction js as [|j js IH]; intros st.
  - exists (nodesIndex st). destruct st; reflexivity.
  - simpl. rewrite bind_run. unfold nodesIndex_insert at 1, modify.
    destruct (nodesIndex st !! j).
    + apply IH.
    + destruct (IH (set_nodesIndex (<[j:=p]> (nodesIndex st)) st)) as [ni' ->].
      exists ni'. destruct st; reflexivity.
Qed.

(** ** The fresh-build post-order visitor *)

Lemma EliminationPostOrderVisitor_unfold f node d :
  EliminationPostOrderVisitor f node d =
  (eliminationPostOrderVisitorHelper f node d;;
   D ← derefData d;
   p ← nodeOf D;
   forEach (attachOrphan p) (Cluster.factors node);;
   n ← derefNode p;
   match Node.conditional_ n with
   | None => undefined NullConditional
   | Some c => forEach (λ j, nodesIndex_insert j p) (frontals c)
   end).
Proof. reflexivity. Qed.

Lemma EliminationPostOrderVisitor_run f node d D p n pd P st :
  returnsRemaining f → returnsConditional f →
  dataList st !! d = Some D → bayesTreeNode D = Some p → heap st !! p = Some n →
  parentData D = Some pd → d ≠ pd → dataList st !! pd = Some P →
  childFactors P !! myIndexInParent D = Some None →
  Forall (λ q, q < length (heap st)) (orphansOf (Cluster.factors node)) →
  let g := Cluster.factors node ++ childFactors D in
  let res := f g (Cluster.keys node) in
  ∃ h' ni',
    EliminationPostOrderVisitor f node d st =
    (Ok tt,
     {| heap := h';
        dataList := <[pd := set_childFactors
                        (<[myIndexInParent D := publish (snd res)]> (childFactors P)) P]>
                      (dataList st);
        nodesIndex := ni';
        calls := calls st ++ [(g, Cluster.keys node)] |}) ∧
    orphansAttached p (orphansOf (Cluster.factors node))
      (<[p := Node.set_conditional (fst res) n]> (heap st)) h'.
Proof.
  intros Hrem Hcond HD Hp Hn Hpd Hne HP Hslot Horph g res.
  assert (Hplt : p < length (heap st)) by (eapply lookup_lt_Some; eauto).
  rewrite EliminationPostOrderVisitor_unfold.
  destruct (Hrem g (Cluster.keys node)) as [r Hr].
  destruct (Hcond g (Cluster.keys node)) as [c Hc].
  fold res in Hr, Hc.
  erewrite bind_Ok.
  2:{ erewrite helper_run by eauto. fold g res. rewrite Hr.
      apply forwardRemaining_run; eauto. }
  destruct st as [h dl ni cl]. unfold afterElimination. simp_state.
  mstep_by derefData_run ltac:(rewrite list_lookup_insert_ne by done; exact HD).
  unfold nodeOf at 1. rewrite Hp. mstep @ret_run.
  edestruct (attachOrphans_run p (Cluster.factors node)) as (h' & Hrun & Hatt);
    [| |erewrite bind_Ok; [|exact Hrun]]; simp_state.
  { by rewrite length_insert. }
  { by rewrite length_insert. }
  pose proof Hatt as Hatt0. destruct Hatt as [Hlen Hatt].
  destruct (Hatt p (Node.set_conditional (fst res) n)) as (n' & Hn' & Hc' & _).
  { apply list_lookup_insert_eq. done. }
  mstep_by derefNode_run ltac:(exact Hn').
  rewrite Hc'. simpl. fold g res. rewrite Hc.
  edestruct (nodesIndex_loop_run p (frontals c)) as [ni' ->]. simp_state.
  exists h', ni'. fold g res. rewrite Hr. split; [reflexivity|].
  rewrite <- Hc. exact Hatt0.
Qed.

(** ** The fresh-build traversal against the reference semantics *)

Lemma visitNode_unfold pre post node pd :
  visitNode pre post node pd =
  (myData ← pre node pd;
   d ← pushData myData;
   forEach (λ child, visitNode pre post child d) (Cluster.children node);;
   post node d).
Proof. destruct node; reflexivity. Qed.

Lemma orphansBelow_mono b b' c : b ≤ b' → orphansBelow b c → orphansBelow b' c.
Proof.
  intros Hle H. unfold orphansBelow in *.
  eapply Forall_impl; [exact H|]. intros c' H'. simpl in *.
  eapply Forall_impl; [exact H'|]. intros q. simpl. lia.
Qed.

Lemma set_childFactors_twice cf cf' D :
  set_childFactors cf (set_childFactors cf' D) = set_childFactors cf D.
Proof. reflexivity. Qed.

Section Children.
Context (f : Eliminate).

Lemma visitChildren_run cs :
  Forall (visitSpec f) cs →
  ∀ d Dd p st,
    dataList st !! d = Some Dd → bayesTreeNode Dd = Some p →
    p < length (heap st) → Forall (orphansBelow (length (heap st))) cs →
    ∃ st', forEach (λ c, visitBuild f c d) cs st = (Ok tt, st') ∧
           childrenVisited f cs d Dd p st st'.
Proof.
  induction 1 as [|c cs Hc _ IH]; intros d Dd p st HD Hp Hlt Horph.
  - exists st. split; [reflexivity|]. constructor; simpl; try done.
    + rewrite app_nil_r. by destruct Dd.
    + by rewrite app_nil_r.
    + exists []. split; [done|]. split; [constructor|].
      intros q n Hq. exists n. split; [done|]. split; [done|].
      destruct (decide _); by rewrite app_nil_r.
  - apply Forall_cons in Horph as [Hoc Hocs].
    destruct (Hc d Dd p st HD Hp Hlt Hoc) as (st1 & Hrun1 & V1).
    destruct V1 as [L1 S1 F1 C1 HL1 (news1 & Hn1 & Hr1 & H1) K1].
    destruct (IH d _ p st1 S1 Hp) as (st2 & Hrun2 & V2).
    { lia. }
    { eapply Forall_impl; [exact Hocs|]. intros c'. apply orphansBelow_mono. done. }
    destruct V2 as [L2 S2 F2 C2 HL2 (news2 & Hn2 & Hr2 & H2) K2].
    exists st2. split.
    { simpl. rewrite (bind_Ok _ _ _ _ _ Hrun1). exact Hrun2. }
    constructor.
    + lia.
    + rewrite S2. simpl. rewrite set_childFactors_twice, <- app_assoc. done.
    + intros q Hq Hne. rewrite F2 by (done || lia). by apply F1.
    + rewrite C2, C1. simpl. rewrite app_nil_r, <- app_assoc. done.
    + lia.
    + exists (news1 ++ news2). split; [rewrite length_app; simpl in *; lia|].
      split.
      { apply Forall_app. split.
        - eapply Forall_impl; [exact Hr1|]. simpl. lia.
        - eapply Forall_impl; [exact Hr2|]. simpl. lia. }
      intros q n Hq.
      destruct (H1 q n Hq) as (n1 & Hq1 & Hc1 & Hk1).
      destruct (H2 q n1 Hq1) as (n2 & Hq2 & Hc2 & Hk2).
      exists n2. split; [done|]. split; [congruence|].
      rewrite Hk2, Hk1, <- app_assoc. f_equal.
      destruct (decide _); done.
    + intros c0 Hin. simpl in Hin. apply in_app_iff in Hin as [Hin|Hin].
      * destruct (K1 c0) as (dc & Dc & q & n & Hdge & Hdc & Hcf & Hbt & Hge & Hq & Hcond).
        { simpl. rewrite app_nil_r. exact Hin. }
        destruct (H2 q n Hq) as (n2 & Hq2 & Hc2 & _).
        assert (Hdclt : dc < length (dataList st1)) by (eapply lookup_lt_Some; eauto).
        assert (Hdlt : d < length (dataList st)) by (eapply lookup_lt_Some; eauto).
        exists dc, Dc, q, n2. split; [done|]. split; [rewrite F2 by lia; done|].
        split; [done|]. split; [done|]. split; [done|]. split; [done|]. congruence.
      * destruct (K2 c0 Hin) as (dc & Dc & q & n & Hdge & Hdc & Hcf & Hbt & Hge & Hq & Hcond).
        exists dc, Dc, q, n. split; [lia|]. split; [done|].
        split; [done|]. split; [done|]. split; [lia|]. done.
Qed.
End Children.

Lemma gathered_unfold f c :
  gathered f c = Cluster.factors c ++ map (slotOf f) (Cluster.children c).
Proof. destruct c; reflexivity. Qed.

Lemma callsOf_unfold f c :
  callsOf f c = concat (map (callsOf f) (Cluster.children c)) ++ [(gathered f c, Cluster.keys c)].
Proof. destruct c; reflexivity. Qed.

Lemma clustersOf_unfold c :
  clustersOf c = concat (map clustersOf (Cluster.children c)) ++ [c].
Proof. destruct c; reflexivity. Qed.

Lemma orphansBelow_own b c :
  orphansBelow b c → Forall (λ q, q < b) (orphansOf (Cluster.factors c)).
Proof.
  unfold orphansBelow. rewrite clustersOf_unfold. intros H.
  apply Forall_app in H as [_ H]. by inversion H.
Qed.

Lemma orphansBelow_children b c :
  orphansBelow b c → Forall (orphansBelow b) (Cluster.children c).
Proof.
  unfold orphansBelow. rewrite clustersOf_unfold. intros H.
  apply Forall_app in H as [H _].
  induction (Cluster.children c) as [|x l IH]; [constructor|].
  simpl in H. apply Forall_app in H as [Hx Hl].
  constructor; [exact Hx|]. apply IH, Hl.
Qed.

Theorem visitBuild_run f :
  returnsRemaining f → returnsConditional f → ∀ c, visitSpec f c.
Proof.
  intros Hrem Hcond. induction c as [ks fs cs z IH] using Cluster_tree_ind.
  intros pd P pp st HP Hpp Hlt Horph.
  set (node := Cluster.mk ks fs cs z) in *.
  destruct (lookup_lt_is_Some_2 _ _ Hlt) as [pn Hpn].
  assert (Hpdlt : pd < length (dataList st)) by (eapply lookup_lt_Some; eauto).
  unfold visitBuild. rewrite visitNode_unfold. fold (visitBuild f).
  erewrite bind_Ok; [|eapply eliminationPreOrderVisitor_run; eauto].
  destruct st as [h dl ni cl]. simp_state.
  mstep @pushData_run. rewrite length_insert.
  set (P' := set_childFactors (childFactors P ++ [None]) P).
  set (D0 := {| parentData := Some pd; myIndexInParent := length (childFactors P);
                childFactors := []; bayesTreeNode := Some (length h) |}).
  set (newNode := Node.mk None _ [] z).
  set (h2 := <[pp := _]> (h ++ [newNode])).
  set (dl2 := <[pd := P']> dl ++ [D0]).
  assert (Hh2 : length h2 = S (length h)).
  { subst h2. rewrite length_insert, length_app. simpl. lia. }
  assert (Hdl2 : length dl2 = S (length dl)).
  { subst dl2. rewrite length_app, length_insert. simpl. lia. }
  destruct (visitChildren_run f cs IH (length dl) D0 (length h) (mkState h2 dl2 ni cl))
    as (st3 & Hrun3 & V3).
  { simpl. subst dl2. rewrite <- (length_insert dl pd P'). apply lookup_snoc. }
  { reflexivity. }
  { simpl. lia. }
  { simpl. eapply Forall_impl; [apply (orphansBelow_children _ _ Horph)|].
    intros c'. apply orphansBelow_mono. lia. }
  simpl in Hrun3. rewrite (bind_Ok _ _ _ _ _ Hrun3).
  destruct V3 as [L3 S3 F3 C3 HL3 (news & Hnl & Hnr & H3) K3].
  simpl in *. rewrite Hh2 in *. rewrite Hdl2 in *.
  assert (HP3 : dataList st3 !! pd = Some P').
  { rewrite F3 by lia. subst dl2. rewrite lookup_app_l by (rewrite length_insert; lia).
    apply list_lookup_insert_eq. done. }
  destruct (H3 (length h) newNode) as (n3 & Hn3 & Hc3 & Hk3).
  { subst h2. rewrite list_lookup_insert_ne by lia. apply lookup_snoc. }
  assert (Hne : length dl ≠ pd) by lia.
  assert (Hslot : childFactors P' !! myIndexInParent (set_childFactors (map (slotOf f) cs) D0)
                  = Some None).
  { subst P'. simpl. apply lookup_snoc. }
  assert (Horph4 : Forall (λ q, q < length (heap st3)) (orphansOf (Cluster.factors node))).
  { eapply Forall_impl; [apply (orphansBelow_own _ _ Horph)|]. simpl. lia. }
  destruct (EliminationPostOrderVisitor_run f node (length dl) _ (length h) n3 pd P' st3
              Hrem Hcond S3 eq_refl Hn3 eq_refl Hne HP3 Hslot Horph4)
    as (h4 & ni4 & Hrun4 & Hatt).
  simpl in Hrun4. eexists. split; [exact Hrun4|].
  destruct Hatt as [Hl4 Hatt].
  constructor; simpl.
  - rewrite length_insert. lia.
  - rewrite list_lookup_insert_eq by (eapply lookup_lt_Some; eauto).
    subst P'. simpl. rewrite insert_snoc. done.
  - intros q Hq Hqne. rewrite list_lookup_insert_ne by done.
    rewrite F3 by lia. subst dl2. rewrite lookup_app_l by (rewrite length_insert; lia).
    by rewrite list_lookup_insert_ne.
  - rewrite C3, app_nil_r, <- app_assoc. reflexivity.
  - rewrite Hl4, length_insert. lia.
  - exists [length h]. split; [done|]. split.
    { constructor; [|constructor]. rewrite Hl4, length_insert. lia. }
    intros q n Hq.
    assert (Hqlt : q < length h) by (eapply lookup_lt_Some; eauto).
    destruct (H3 q (if decide (q = pp) then Node.set_children (Node.children pn ++ [length h]) pn else n))
      as (nq3 & Hq3 & Hcq3 & Hkq3).
    { subst h2. destruct (decide (q = pp)) as [->|Hqp].
      - apply list_lookup_insert_eq. rewrite length_app. simpl. lia.
      - rewrite list_lookup_insert_ne by done. by rewrite lookup_app_l. }
    destruct (Hatt q nq3) as (nq4 & Hq4 & Hcq4 & _ & Hkq4 & _).
    { rewrite list_lookup_insert_ne by lia. done. }
    exists nq4. split; [done|].
    rewrite Hcq4, Hcq3, Hkq4, Hkq3.
    rewrite !(decide_False (P := q = length h)) by lia. rewrite !app_nil_r.
    destruct (decide (q = pp)) as [->|Hqp]; simpl.
    + assert (n = pn) by congruence. subst. done.
    + by rewrite app_nil_r.
  - intros c0 Hin. rewrite app_nil_r in Hin. apply in_app_iff in Hin as [Hin|Hin].
    + destruct (K3 c0 Hin) as (dc & Dc & q & n & Hdge & Hdc & Hcf & Hbt & Hge & Hq & Hcq).
      destruct (Hatt q n) as (n4 & Hq4 & Hc4 & _).
      { rewrite list_lookup_insert_ne by lia. done. }
      exists dc, Dc, q, n4. split; [lia|].
      split; [rewrite list_lookup_insert_ne by lia; done|].
      split; [done|]. split; [done|]. split; [lia|]. split; [done|]. congruence.
    + destruct Hin as [<-|[]].
      destruct (Hatt (length h) (Node.set_conditional
                  (f (Cluster.factors node ++ map (slotOf f) cs) (Cluster.keys node)).1 n3))
        as (n4 & Hq4 & Hc4 & _).
      { apply list_lookup_insert_eq. eapply lookup_lt_Some; eauto. }
      exists (length dl), (set_childFactors (map (slotOf f) cs) D0), (length h), n4.
      split; [lia|]. split; [rewrite list_lookup_insert_ne by lia; done|].
      split; [done|]. split; [done|]. split; [lia|]. split; [done|].
      rewrite Hc4. reflexivity.
Qed.

(** ** The build entry point *)

Lemma eliminate_run f t st :
  returnsRemaining f → returnsConditional f → orphansLive st t →
  ∃ result remaining st',
    eliminate f t st = (Ok (result, remaining), st') ∧
    eliminated f t st st' result remaining.
Proof.
  intros Hrem Hcond Hlive. destruct st as [h dl ni cl]. unfold orphansLive in Hlive.
  simpl in Hlive. unfold eliminate.
  erewrite bind_Ok; [|reflexivity]. simp_state.
  mstep EliminationData_ctor_root_run.
  mstep @pushData_run.
  set (rc := {| parentData := None; myIndexInParent := 0; childFactors := [];
                bayesTreeNode := Some (length h) |}).
  assert (Hall : Forall (visitSpec f) (roots_ t)).
  { apply Forall_forall. intros c _. by apply visitBuild_run. }
  destruct (visitChildren_run f (roots_ t) Hall
              (length dl) rc (length h) (mkState (h ++ [Node.empty]) (dl ++ [rc]) ∅ cl))
    as (st3 & Hrun3 & V3); simpl.
  { apply lookup_snoc. }
  { reflexivity. }
  { rewrite length_app. simpl. lia. }
  { eapply Forall_impl; [exact Hlive|]. intros c. apply orphansBelow_mono.
    rewrite length_app. simpl. lia. }
  unfold DepthFirstForestParallel. fold (visitBuild f).
  rewrite (bind_Ok _ _ _ _ _ Hrun3).
  destruct V3 as [L3 S3 F3 C3 HL3 (news & Hnl & Hnr & H3) K3]. simpl in *.
  rewrite length_app in *. simpl in *.
  mstep_by derefData_run ltac:(exact S3).
  mstep @ret_run.
  destruct (H3 (length h) Node.empty) as (dummy & Hd & _ & Hk).
  { apply lookup_snoc. }
  rewrite decide_True in Hk by done. simpl in Hk.
  mstep_by derefNode_run ltac:(exact Hd).
  erewrite bind_Ok; [|reflexivity]. rewrite ret_run.
  eexists _, _, _. split; [reflexivity|].
  constructor; simpl.
  - exact S3.
  - exists dummy. done.
  - rewrite Hk. split; [done|]. eapply Forall_impl; [exact Hnr|]. simpl. lia.
  - done.
  - done.
  - done.
  - intros c Hin.
    destruct (K3 c Hin) as (dc & Dc & q & n & Hdge & Hdc & Hcf & Hbt & Hge & Hq & Hc).
    rewrite ?length_app in Hdge. rewrite ?length_app in Hge. simpl in Hdge, Hge.
    exists dc, Dc, q, n. split; [lia|]. split; [done|].
    split; [done|]. split; [done|]. split; [lia|]. done.
  - intros q n Hq Hqn. destruct (H3 q n) as (n' & Hq' & Hc' & Hk').
    { by rewrite lookup_app_l. }
    exists n'. rewrite decide_False in Hk' by lia. rewrite app_nil_r in Hk'. done.
Qed.

(** ** Conservation of factors in the reference semantics *)

Lemma factorsOf_app g1 g2 : factorsOf (g1 ++ g2) = factorsOf g1 ++ factorsOf g2.
Proof. apply omap_app. Qed.

Lemma ownFactors_app cs1 cs2 : ownFactors (cs1 ++ cs2) = ownFactors cs1 ++ ownFactors cs2.
Proof. unfold ownFactors. by rewrite List.map_app, concat_app, factorsOf_app. Qed.

Lemma publishedBy_app f cs1 cs2 :
  publishedBy f (cs1 ++ cs2) = publishedBy f cs1 ++ publishedBy f cs2.
Proof. unfold publishedBy. by rewrite List.map_app, factorsOf_app. Qed.

Lemma consumedFactors_app cl1 cl2 :
  consumedFactors (cl1 ++ cl2) = consumedFactors cl1 ++ consumedFactors cl2.
Proof. unfold consumedFactors. by rewrite List.map_app, concat_app, factorsOf_app. Qed.

(** Permutations of factor lists are settled by counting occurrences. *)
Lemma Permutation_by_count (l l' : list Factor) :
  l ≡ₚ l' ↔ ∀ x, count_occ Factor_eq_dec l x = count_occ Factor_eq_dec l' x.
Proof. apply Permutation_count_occ. Qed.

Ltac count_factors :=
  repeat match goal with
         | H : _ ≡ₚ _ |- _ => rewrite Permutation_by_count in H
         end;
  apply Permutation_by_count; intros x;
  repeat match goal with
         | H : ∀ y, count_occ _ _ y = count_occ _ _ y |- _ => specialize (H x)
         end;
  rewrite ?count_occ_app in *; lia.

Section Conservation.
Context (f : Eliminate).

Lemma conserved_list cs : Forall (λ c, conserved f [c]) cs → conserved f cs.
Proof.
  unfold conserved. induction 1 as [|c cs Hc _ IH]; [done|].
  simpl in *. rewrite !app_nil_r in Hc.
  rewrite consumedFactors_app, ownFactors_app, publishedBy_app.
  rewrite (publishedBy_app f [c] cs : publishedBy f (c :: cs) = _).
  count_factors.
Qed.

Lemma conserved_tree c : conserved f [c].
Proof.
  induction c as [ks fs cs z IH] using Cluster_tree_ind.
  apply conserved_list in IH. unfold conserved in *.
  cbn [map concat]. rewrite !app_nil_r.
  rewrite callsOf_unfold, clustersOf_unfold, gathered_unfold.
  cbn [Cluster.children Cluster.factors Cluster.keys].
  rewrite consumedFactors_app, ownFactors_app, publishedBy_app.
  unfold consumedFactors at 2. cbn [map concat fst]. rewrite app_nil_r, factorsOf_app.
  fold (publishedBy f cs).
  unfold ownFactors at 2. cbn [map concat Cluster.factors]. rewrite app_nil_r.
  count_factors.
Qed.

Lemma factorsOf_nonNull g : factorsOf (nonNull g) = factorsOf g.
Proof.
  unfold nonNull, factorsOf. induction g as [|[x|] g IHg]; [done| |].
  - rewrite filter_cons_True by done. simpl. by f_equal.
  - rewrite filter_cons_False by (by intros [? ?]). done.
Qed.

Lemma conserved_forest (t : ClusterTree) :
  consumedFactors (concat (map (callsOf f) (roots_ t))) ++
  factorsOf (remainingFactors_ t ++ nonNull (map (slotOf f) (roots_ t))) ≡ₚ
  inputFactors t ++ publishedBy f (forestClusters t).
Proof.
  assert (Hc : conserved f (roots_ t)).
  { apply conserved_list, Forall_forall. intros c _. apply conserved_tree. }
  unfold conserved in Hc. unfold inputFactors. fold (forestClusters t) in Hc.
  rewrite factorsOf_app, factorsOf_nonNull. fold (publishedBy f (roots_ t)).
  count_factors.
Qed.
End Conservation.

(** ** The build entry point: results *)

Lemma callsOf_clustersOf f c :
  callsOf f c =
  map (λ c', (Cluster.factors c' ++ map (slotOf f) (Cluster.children c'), Cluster.keys c'))
      (clustersOf c).
Proof.
  induction c as [ks fs cs z IH] using Cluster_tree_ind.
  rewrite callsOf_unfold, clustersOf_unfold, gathered_unfold.
  cbn [Cluster.children Cluster.factors Cluster.keys].
  rewrite List.map_app. f_equal.
  induction IH as [|c cs Hc _ IHcs]; [done|].
  cbn [map concat]. rewrite List.map_app. by f_equal.
Qed.

Lemma forest_calls f t :
  concat (map (callsOf f) (roots_ t)) =
  map (λ c, (Cluster.factors c ++ map (slotOf f) (Cluster.children c), Cluster.keys c))
      (forestClusters t).
Proof.
  unfold forestClusters. induction (roots_ t) as [|c cs IH]; [done|].
  cbn [map concat]. rewrite List.map_app, callsOf_clustersOf. by f_equal.
Qed.

Lemma Example_returnsRemaining : returnsRemaining Example.symbolic.
Proof. intros g o. eexists. reflexivity. Defined.

Lemma Example_returnsConditional : returnsConditional Example.symbolic.
Proof. intros g o. eexists. reflexivity. Defined.

Lemma Example_orphansLive : orphansLive Example.start Example.forest.
Proof.
  unfold orphansLive, orphansBelow. simpl.
  repeat (constructor; simpl); lia.
Defined.

(** C2.  Factor conservation.  Over a run of [eliminate], the factors
    handed to the elimination function together with the factors returned
    as uneliminated are, counted with multiplicity, the input factors of the
    forest (attached to a cluster or remaining) together with the non-empty
    remaining factors the elimination function returned; so a factor that
    the elimination function never returns as a non-empty remaining factor
    occurs among the outputs as often as among the inputs, exactly once
    when the input factors are distinct: none is dropped, none
    duplicated. *)
Theorem eliminate_factor_conservation f t st :
  returnsRemaining f → returnsConditional f → orphansLive st t →
  ∃ result remaining st' made,
    eliminate f t st = (Ok (result, remaining), st') ∧
    calls st' = calls st ++ made ∧
    consumedFactors made ++ factorsOf remaining ≡ₚ
      inputFactors t ++ publishedBy f (forestClusters t) ∧
    (∀ x, ¬ In x (publishedBy f (forestClusters t)) →
       count_occ Factor_eq_dec (consumedFactors made ++ factorsOf remaining) x =
       count_occ Factor_eq_dec (inputFactors t) x) ∧
    (NoDup (inputFactors t) →
     ∀ x, In x (inputFactors t) → ¬ In x (publishedBy f (forestClusters t)) →
       count_occ Factor_eq_dec (consumedFactors made ++ factorsOf remaining) x = 1).
Proof.
  intros Hrem Hcond Hlive.
  destruct (eliminate_run f t st Hrem Hcond Hlive) as (result & remaining & st' & Hrun & E).
  destruct E as [_ _ _ _ Hr Hcalls _ _].
  exists result, remaining, st', (concat (map (callsOf f) (roots_ t))).
  split; [exact Hrun|]. split; [exact Hcalls|].
  assert (HP := conserved_forest f t). rewrite <- Hr in HP.
  split; [exact HP|].
  assert (Hcount : ∀ x, ¬ In x (publishedBy f (forestClusters t)) →
            count_occ Factor_eq_dec
              (consumedFactors (concat (map (callsOf f) (roots_ t))) ++ factorsOf remaining) x =
            count_occ Factor_eq_dec (inputFactors t) x).
  { intros x Hx. rewrite Permutation_by_count in HP. rewrite HP, count_occ_app.
    apply (count_occ_not_In Factor_eq_dec) in Hx. lia. }
  split; [exact Hcount|].
  intros Hnd x Hin Hx. rewrite (Hcount x Hx).
  apply NoDup_ListNoDup in Hnd.
  by apply (proj1 (NoDup_count_occ' Factor_eq_dec (inputFactors t)) Hnd).
Qed.

Lemma eliminate_factor_conservation_witness :
  ∃ result remaining st' made,
    eliminate Example.symbolic Example.forest Example.start = (Ok (result, remaining), st') ∧
    calls st' = calls Example.start ++ made ∧
    consumedFactors made ++ factorsOf remaining ≡ₚ
      inputFactors Example.forest ++ publishedBy Example.symbolic (forestClusters Example.forest) ∧
    (∀ x, ¬ In x (publishedBy Example.symbolic (forestClusters Example.forest)) →
       count_occ Factor_eq_dec (consumedFactors made ++ factorsOf remaining) x =
       count_occ Factor_eq_dec (inputFactors Example.forest) x) ∧
    (∀ x, In x (inputFactors Example.forest) →
       count_occ Factor_eq_dec (consumedFactors made ++ factorsOf remaining) x = 1).
Proof.
  destruct (eliminate_factor_conservation Example.symbolic Example.forest Example.start
              Example_returnsRemaining Example_returnsConditional Example_orphansLive)
    as (result & remaining & st' & made & Hrun & Hcalls & Hperm & Hcount & Honce).
  exists result, remaining, st', made.
  split; [exact Hrun|]. split; [exact Hcalls|]. split; [exact Hperm|]. split; [exact Hcount|].
  assert (Hfresh : Forall (λ x, x ∉ publishedBy Example.symbolic (forestClusters Example.forest))
                     (inputFactors Example.forest)) by decide_by_computation.
  intros x Hin. apply Honce; [|exact Hin|].
  - decide_by_computation.
  - intros Hx%list_elem_of_In. rewrite Forall_forall in Hfresh.
    by apply (Hfresh x); [apply list_elem_of_In|].
Defined.

(** With an elimination function that returns one of the factors it was
    given, an input factor is handed to the elimination function at its
    cluster and again at the parent of its cluster, and is returned as
    uneliminated as well. *)
Lemma eliminate_factor_conservation_counterexample :
  returnsRemaining PassThrough.passThrough ∧
  returnsConditional PassThrough.passThrough ∧
  orphansLive PassThrough.start PassThrough.forest ∧
  ∃ result remaining st' made,
    eliminate PassThrough.passThrough PassThrough.forest PassThrough.start =
      (Ok (result, remaining), st') ∧
    calls st' = calls PassThrough.start ++ made ∧
    inputFactors PassThrough.forest = [PassThrough.x] ∧
    consumedFactors made = [PassThrough.x; PassThrough.x] ∧
    factorsOf remaining = [PassThrough.x] ∧
    In PassThrough.x (inputFactors PassThrough.forest) ∧
    count_occ Factor_eq_dec (inputFactors PassThrough.forest) PassThrough.x = 1 ∧
    count_occ Factor_eq_dec (consumedFactors made ++ factorsOf remaining) PassThrough.x = 3.
Proof.
  split; [intros g o; eexists; reflexivity|].
  split; [intros g o; eexists; reflexivity|].
  split; [unfold orphansLive, orphansBelow; simpl; repeat (constructor; simpl)|].
  destruct (eliminate PassThrough.passThrough PassThrough.forest PassThrough.start)
    as [[[result remaining]|e] st'] eqn:E; vm_compute in E; [|discriminate].
  injection E as <- <- <-.
  eexists _, _, _, _. split; [reflexivity|]. split; [vm_compute; reflexivity|].
  split; [vm_compute; reflexivity|]. split; [vm_compute; reflexivity|].
  split; [vm_compute; reflexivity|].
  split; [vm_compute; auto|]. split; vm_compute; reflexivity.
Qed.

Lemma lookup_map {A B} (g : A → B) (l : list A) (i : nat) :
  map g l !! i = g <$> l !! i.
Proof. revert i. induction l as [|x l IH]; intros [|i]; simpl; auto. Qed.

(** C3.  Over a run of [eliminate], the elimination function is invoked
    once per cluster, in post-order, on the cluster's own factors followed by
    the slots its children filled (whose non-null entries are the factors the
    children contributed), with the cluster's keys as ordering; and the
    conditional it returns is the one held by the clique of that cluster's
    context. *)
Theorem postorder_step_elimination f t st :
  returnsRemaining f → returnsConditional f → orphansLive st t →
  ∃ result remaining st',
    eliminate f t st = (Ok (result, remaining), st') ∧
    calls st' = calls st ++
      map (λ c, (Cluster.factors c ++ map (slotOf f) (Cluster.children c), Cluster.keys c))
          (forestClusters t) ∧
    ∀ c, In c (forestClusters t) →
      ∃ dc Dc q n,
        dataList st' !! dc = Some Dc ∧
        childFactors Dc = map (slotOf f) (Cluster.children c) ∧
        factorsOf (Cluster.factors c ++ childFactors Dc) =
          factorsOf (Cluster.factors c) ++ publishedBy f (Cluster.children c) ∧
        bayesTreeNode Dc = Some q ∧
        heap st' !! q = Some n ∧
        Node.conditional_ n =
          fst (f (Cluster.factors c ++ childFactors Dc) (Cluster.keys c)).
Proof.
  intros Hrem Hcond Hlive.
  destruct (eliminate_run f t st Hrem Hcond Hlive) as (result & remaining & st' & Hrun & E).
  destruct E as [_ _ _ _ _ Hcalls Hcl _].
  exists result, remaining, st'. split; [exact Hrun|].
  split; [by rewrite Hcalls, forest_calls|].
  intros c Hin.
  destruct (Hcl c Hin) as (dc & Dc & q & n & _ & Hdc & Hcf & Hbt & _ & Hq & Hc).
  exists dc, Dc, q, n. split; [done|]. split; [done|].
  split; [by rewrite factorsOf_app, Hcf|]. split; [done|]. split; [done|].
  rewrite Hc, Hcf. unfold resultOf. by rewrite gathered_unfold.
Qed.

Lemma postorder_step_elimination_witness :
  ∃ result remaining st',
    eliminate Example.symbolic Example.forest Example.start = (Ok (result, remaining), st') ∧
    calls st' = calls Example.start ++
      map (λ c, (Cluster.factors c ++ map (slotOf Example.symbolic) (Cluster.children c),
                 Cluster.keys c))
          (forestClusters Example.forest) ∧
    ∀ c, In c (forestClusters Example.forest) →
      ∃ dc Dc q n,
        dataList st' !! dc = Some Dc ∧
        childFactors Dc = map (slotOf Example.symbolic) (Cluster.children c) ∧
        factorsOf (Cluster.factors c ++ childFactors Dc) =
          factorsOf (Cluster.factors c) ++ publishedBy Example.symbolic (Cluster.children c) ∧
        bayesTreeNode Dc = Some q ∧
        heap st' !! q = Some n ∧
        Node.conditional_ n =
          fst (Example.symbolic (Cluster.factors c ++ childFactors Dc) (Cluster.keys c)).
Proof.
  apply postorder_step_elimination.
  - exact Example_returnsRemaining.
  - exact Example_returnsConditional.
  - exact Example_orphansLive.
Defined.

(** C4.  Over a run of [eliminate], the slot that a cluster's context
    reserved for its [i]-th child holds that child's remaining factor when it
    is non-empty and is null otherwise; the same holds for the slots of the
    dummy root and the roots of the forest, and a root's non-empty remaining
    factor is among the uneliminated factors returned. *)
Theorem remaining_factor_forwarding f t st :
  returnsRemaining f → returnsConditional f → orphansLive st t →
  ∃ result remaining st' RC,
    eliminate f t st = (Ok (result, remaining), st') ∧
    dataList st' !! length (dataList st) = Some RC ∧
    parentData RC = None ∧
    (∀ c i ch, In c (forestClusters t) → Cluster.children c !! i = Some ch →
       ∃ dc Dc,
         dataList st' !! dc = Some Dc ∧
         In (Cluster.factors c ++ childFactors Dc, Cluster.keys c) (calls st') ∧
         childFactors Dc !! i =
           Some (match snd (resultOf f ch) with
                 | Some x => if Factor_empty x then None else Some x
                 | None => None
                 end)) ∧
    (∀ i r, roots_ t !! i = Some r →
       childFactors RC !! i =
         Some (match snd (resultOf f r) with
               | Some x => if Factor_empty x then None else Some x
               | None => None
               end) ∧
       ∀ x, snd (resultOf f r) = Some x → Factor_empty x = false →
            In (Some x) remaining).
Proof.
  intros Hrem Hcond Hlive.
  destruct (eliminate_run f t st Hrem Hcond Hlive) as (result & remaining & st' & Hrun & E).
  destruct E as [Hctx _ _ _ Hr Hcalls Hcl _].
  eexists result, remaining, st', _. split; [exact Hrun|]. split; [exact Hctx|].
  split; [done|]. split.
  - intros c i ch Hin Hch.
    destruct (Hcl c Hin) as (dc & Dc & q & n & _ & Hdc & Hcf & _).
    exists dc, Dc. split; [done|]. split.
    + rewrite Hcalls, forest_calls, Hcf. apply in_or_app. right.
      apply in_map_iff. exists c. done.
    + rewrite Hcf, lookup_map, Hch. reflexivity.
  - intros i r Hi. simpl. split.
    + rewrite lookup_map, Hi. reflexivity.
    + intros x Hx Hne. rewrite Hr. apply in_or_app. right.
      apply list_elem_of_In. unfold nonNull. apply list_elem_of_filter. split; [done|].
      apply list_elem_of_In, in_map_iff. exists r. split.
      * unfold slotOf, publish. by rewrite Hx, Hne.
      * apply list_elem_of_In. eapply list_elem_of_lookup_2. exact Hi.
Qed.

Lemma remaining_factor_forwarding_witness :
  ∃ result remaining st' RC,
    eliminate Example.symbolic Example.forest Example.start = (Ok (result, remaining), st') ∧
    dataList st' !! length (dataList Example.start) = Some RC ∧
    parentData RC = None ∧
    (∀ c i ch, In c (forestClusters Example.forest) → Cluster.children c !! i = Some ch →
       ∃ dc Dc,
         dataList st' !! dc = Some Dc ∧
         In (Cluster.factors c ++ childFactors Dc, Cluster.keys c) (calls st') ∧
         childFactors Dc !! i =
           Some (match snd (resultOf Example.symbolic ch) with
                 | Some x => if Factor_empty x then None else Some x
                 | None => None
                 end)) ∧
    (∀ i r, roots_ Example.forest !! i = Some r →
       childFactors RC !! i =
         Some (match snd (resultOf Example.symbolic r) with
               | Some x => if Factor_empty x then None else Some x
               | None => None
               end) ∧
       ∀ x, snd (resultOf Example.symbolic r) = Some x → Factor_empty x = false →
            In (Some x) remaining).
Proof.
  apply remaining_factor_forwarding.
  - exact Example_returnsRemaining.
  - exact Example_returnsConditional.
  - exact Example_orphansLive.
Defined.

(** ** Which failures a computation can end in *)




Lemma failsOnly_ret S {A} (a : A) : failsOnly S (mret a : M A).
Proof. intros st e st' H. discriminate. Qed.

Lemma failsOnly_bind S {A B} (m : M A) (k : A → M B) :
  failsOnly S m → (∀ a, failsOnly S (k a)) → failsOnly S (m ≫= k).
Proof.
  intros Hm Hk st e st' Hrun.
  apply bind_Fail_inv in Hrun as [Hrun|(a & st1 & _ & Hrun)].
  - by apply Hm in Hrun.
  - by apply Hk in Hrun.
Qed.

Lemma failsOnly_forEach S {A} (body : A → M unit) (l : list A) :
  (∀ x, failsOnly S (body x)) → failsOnly S (forEach body l).
Proof.
  intros Hb. induction l as [|x l IH]; simpl.
  - apply failsOnly_ret.
  - apply failsOnly_bind; [apply Hb|]. intros _. apply IH.
Qed.

Lemma failsOnly_throw S {A} e : S e → failsOnly S (throw e : M A).
Proof. intros He st e' st' H. unfold throw in H. by simplify_eq. Qed.

Lemma failsOnly_modify S g : failsOnly S (modify g).
Proof. intros st e st' H. discriminate. Qed.

Lemma failsOnly_gets S {A} (g : State → A) : failsOnly S (gets g).
Proof. intros st e st' H. discriminate. Qed.

Section FailsOnly.
Context (S : Failure → Prop).
(** [S] admits every undefined behaviour except the null remaining factor. *)
Hypothesis S_undefined : ∀ u, u ≠ NullRemainingFactor → S (UndefinedBehaviour u).

Lemma failsOnly_undefined {A} u :
  u ≠ NullRemainingFactor → failsOnly S (undefined u : M A).
Proof. intros Hu. apply failsOnly_throw. by apply S_undefined. Qed.

Lemma failsOnly_derefData d : failsOnly S (derefData d).
Proof.
  intros st e st' H. unfold derefData in H.
  destruct (dataList st !! d); simplify_eq. by apply S_undefined.
Qed.

Lemma failsOnly_derefNode p : failsOnly S (derefNode p).
Proof.
  intros st e st' H. unfold derefNode in H.
  destruct (heap st !! p); simplify_eq. by apply S_undefined.
Qed.

Lemma failsOnly_pushData D : failsOnly S (pushData D).
Proof. intros st e st' H. discriminate. Qed.

Lemma failsOnly_allocNode : failsOnly S allocNode.
Proof. intros st e st' H. discriminate. Qed.

Lemma failsOnly_nodeOf D : failsOnly S (nodeOf D).
Proof.
  unfold nodeOf. destruct (bayesTreeNode D).
  - apply failsOnly_ret.
  - by apply failsOnly_undefined.
Qed.

(** Decompose a computation into its actions. *)
Ltac fails_only :=
  repeat first
    [ apply failsOnly_ret
    | apply failsOnly_modify
    | apply failsOnly_gets
    | apply failsOnly_derefData
    | apply failsOnly_derefNode
    | apply failsOnly_pushData
    | apply failsOnly_allocNode
    | apply failsOnly_nodeOf
    | apply failsOnly_undefined; discriminate
    | apply failsOnly_forEach; intros ?
    | apply failsOnly_bind; [|intros ?]
    | match goal with
      | |- failsOnly _ (match ?x with _ => _ end) => destruct x
      | |- failsOnly _ (if ?x then _ else _) => destruct x
      end ].

Lemma failsOnly_updateData d g : failsOnly S (updateData d g).
Proof. unfold updateData. fails_only. Qed.

Lemma failsOnly_updateNode p g : failsOnly S (updateNode p g).
Proof. unfold updateNode. fails_only. Qed.

Lemma failsOnly_reserveSlot pd : failsOnly S (reserveSlot pd).
Proof. unfold reserveSlot. fails_only; apply failsOnly_updateData. Qed.

Lemma failsOnly_EliminationData_ctor pd n : failsOnly S (EliminationData_ctor pd n).
Proof.
  unfold EliminationData_ctor.
  fails_only; first [apply failsOnly_reserveSlot | apply failsOnly_updateNode].
Qed.

Lemma failsOnly_EliminationDataInPlace_ctor pd n :
  failsOnly S (EliminationDataInPlace_ctor pd n).
Proof. unfold EliminationDataInPlace_ctor. fails_only; apply failsOnly_reserveSlot. Qed.

Lemma failsOnly_eliminationPreOrderVisitor ctor node pd :
  (∀ pd' n, failsOnly S (ctor pd' n)) →
  failsOnly S (eliminationPreOrderVisitor ctor node pd).
Proof.
  intros Hctor. unfold eliminationPreOrderVisitor.
  fails_only; first [apply Hctor | apply failsOnly_updateNode].
Qed.

Lemma failsOnly_helper f node d :
  returnsRemaining f ∨ S (UndefinedBehaviour NullRemainingFactor) →
  failsOnly S (eliminationPostOrderVisitorHelper f node d).
Proof.
  intros Hrem. unfold eliminationPostOrderVisitorHelper, recordCall, setEliminationResult.
  apply failsOnly_bind; [apply failsOnly_derefData|]. intros D. cbv zeta.
  destruct Hrem as [Hrem|HS].
  - destruct (Hrem (Cluster.factors node ++ childFactors D) (Cluster.keys node)) as [r Hr].
    rewrite Hr.
    fails_only; first [apply failsOnly_updateNode | apply failsOnly_updateData].
  - fails_only;
      first [apply failsOnly_updateNode | apply failsOnly_updateData
            | by apply failsOnly_throw].
Qed.

Lemma failsOnly_EliminationPostOrderVisitor f node d :
  returnsRemaining f ∨ S (UndefinedBehaviour NullRemainingFactor) →
  failsOnly S (EliminationPostOrderVisitor f node d).
Proof.
  intros Hrem. unfold EliminationPostOrderVisitor, nodesIndex_insert.
  apply failsOnly_bind; [by apply failsOnly_helper|]. intros _.
  fails_only; apply failsOnly_updateNode.
Qed.

Lemma failsOnly_EliminationPostOrderVisitorInPlace f node d :
  S (RuntimeErrorThreadsafe orphanInPlaceMessage) →
  returnsRemaining f ∨ S (UndefinedBehaviour NullRemainingFactor) →
  failsOnly S (EliminationPostOrderVisitorInPlace f node d).
Proof.
  intros HS Hrem. unfold EliminationPostOrderVisitorInPlace.
  apply failsOnly_bind; [|intros _; by apply failsOnly_helper].
  apply failsOnly_forEach. intros x. destruct (asSubtree x).
  - by apply failsOnly_throw.
  - apply failsOnly_ret.
Qed.

Lemma failsOnly_visitNode pre post node pd :
  (∀ c d, failsOnly S (pre c d)) → (∀ c d, failsOnly S (post c d)) →
  failsOnly S (visitNode pre post node pd).
Proof.
  intros Hpre Hpost. revert pd.
  induction node as [ks fs cs z IH] using Cluster_tree_ind. intros pd.
  rewrite visitNode_unfold. cbn [Cluster.children].
  apply failsOnly_bind; [apply Hpre|]. intros D.
  apply failsOnly_bind; [apply failsOnly_pushData|]. intros d.
  apply failsOnly_bind; [|intros _; apply Hpost].
  induction IH as [|c cs Hc _ IHcs]; simpl.
  - apply failsOnly_ret.
  - apply failsOnly_bind; [apply Hc|]. intros _. apply IHcs.
Qed.

Lemma failsOnly_DepthFirstForestParallel pre post t d :
  (∀ c d, failsOnly S (pre c d)) → (∀ c d, failsOnly S (post c d)) →
  failsOnly S (DepthFirstForestParallel pre post t d).
Proof.
  intros Hpre Hpost. unfold DepthFirstForestParallel.
  apply failsOnly_forEach. intros c. by apply failsOnly_visitNode.
Qed.

Lemma failsOnly_eliminate f t :
  returnsRemaining f ∨ S (UndefinedBehaviour NullRemainingFactor) →
  failsOnly S (eliminate f t).
Proof.
  intros Hrem. unfold eliminate.
  apply failsOnly_bind; [apply failsOnly_modify|]. intros _.
  apply failsOnly_bind; [apply failsOnly_EliminationData_ctor|]. intros rc.
  apply failsOnly_bind; [apply failsOnly_pushData|]. intros d.
  apply failsOnly_bind.
  { apply failsOnly_DepthFirstForestParallel.
    - intros c pd. apply failsOnly_eliminationPreOrderVisitor.
      apply failsOnly_EliminationData_ctor.
    - intros c pd. by apply failsOnly_EliminationPostOrderVisitor. }
  intros _. fails_only.
Qed.

Lemma failsOnly_eliminateInPlace bayesTree f t :
  S (RuntimeErrorThreadsafe orphanInPlaceMessage) →
  returnsRemaining f ∨ S (UndefinedBehaviour NullRemainingFactor) →
  failsOnly S (eliminateInPlace bayesTree f t).
Proof.
  intros HS Hrem. unfold eliminateInPlace.
  apply failsOnly_bind; [apply failsOnly_EliminationDataInPlace_ctor|]. intros rc.
  apply failsOnly_bind; [apply failsOnly_pushData|]. intros d.
  apply failsOnly_bind; [apply failsOnly_allocNode|]. intros r.
  apply failsOnly_bind; [apply failsOnly_updateData|]. intros _.
  apply failsOnly_bind; [apply failsOnly_derefData|]. intros RC.
  apply failsOnly_bind; [apply failsOnly_nodeOf|]. intros p.
  apply failsOnly_bind; [apply failsOnly_updateNode|]. intros _.
  apply failsOnly_bind.
  { apply failsOnly_DepthFirstForestParallel.
    - intros c pd. apply failsOnly_eliminationPreOrderVisitor.
      apply failsOnly_EliminationDataInPlace_ctor.
    - intros c pd. by apply failsOnly_EliminationPostOrderVisitorInPlace. }
  intros _. fails_only.
Qed.
End FailsOnly.

(** ** In-place elimination and orphan wrappers *)

Lemma orphan_loop_throws (fs : list (option Factor)) st :
  orphansOf fs ≠ [] →
  forEach (λ f, match asSubtree f with
                | Some _ => throw (RuntimeErrorThreadsafe orphanInPlaceMessage)
                | None => mret tt
                end) fs st =
  (Fail (RuntimeErrorThreadsafe orphanInPlaceMessage), st).
Proof.
  induction fs as [|x fs IH]; intros Hne; [done|].
  simpl. unfold orphansOf in *. simpl in Hne.
  destruct (asSubtree x) as [q|].
  - reflexivity.
  - rewrite bind_run, ret_run. by apply IH.
Qed.

Lemma EliminationPostOrderVisitorInPlace_orphan f node d st :
  orphansOf (Cluster.factors node) ≠ [] →
  EliminationPostOrderVisitorInPlace f node d st =
  (Fail (RuntimeErrorThreadsafe orphanInPlaceMessage), st).
Proof.
  intros Hne. unfold EliminationPostOrderVisitorInPlace.
  erewrite bind_Fail; [reflexivity|]. by apply orphan_loop_throws.
Qed.



(** *** In-place elimination on an existing tree of the forest's shape *)

Lemma hasShape_unfold kids c q :
  hasShape kids c q =
  match kids !! q with
  | Some qs => prefixMatch (hasShape kids) (Cluster.children c) qs
  | None => false
  end.
Proof. destruct c; reflexivity. Qed.

Lemma cliqueChildren_lookup st q qs :
  cliqueChildren st !! q = Some qs ↔ ∃ n, heap st !! q = Some n ∧ Node.children n = qs.
Proof.
  unfold cliqueChildren. rewrite lookup_map.
  destruct (heap st !! q) as [n|]; simpl; split.
  - intros [= <-]. eauto.
  - intros (n' & [= <-] & <-). done.
  - done.
  - intros (n' & [=] & _).
Qed.

Lemma map_insert_same {A B} (g : A → B) (l : list A) i x y :
  l !! i = Some x → g y = g x → map g (<[i := y]> l) = map g l.
Proof.
  revert i. induction l as [|a l IH]; intros [|i]; simpl; try done.
  - intros [= ->] ->. done.
  - intros Hi Hg. f_equal. by apply IH.
Qed.

Lemma prefixMatch_cons_inv {A B} (R : A → B → bool) x xs ys :
  prefixMatch R (x :: xs) ys = true →
  ∃ y ys', ys = y :: ys' ∧ R x y = true ∧ prefixMatch R xs ys' = true.
Proof.
  destruct ys as [|y ys']; simpl; [done|].
  intros H. apply andb_prop in H as [H1 H2]. eauto.
Qed.

Lemma prefixMatch_impl {A B} (R R' : A → B → bool) xs ys :
  Forall (λ x, ∀ y, R x y = true → R' x y = true) xs →
  prefixMatch R xs ys = true → prefixMatch R' xs ys = true.
Proof.
  intros HF. revert ys. induction HF as [|x xs Hx _ IH]; intros ys; [done|].
  intros H. apply prefixMatch_cons_inv in H as (y & ys' & -> & H1 & H2).
  simpl. rewrite (Hx _ H1). simpl. by apply IH.
Qed.

Lemma hasShape_extend kids more c q :
  hasShape kids c q = true → hasShape (kids ++ more) c q = true.
Proof.
  revert q. induction c as [ks fs cs z IH] using Cluster_tree_ind. intros q.
  rewrite !hasShape_unfold. cbn [Cluster.children].
  destruct (kids !! q) as [qs|] eqn:Hq; [|done].
  rewrite (lookup_app_l_Some _ _ _ _ Hq).
  apply prefixMatch_impl. exact IH.
Qed.

Lemma EliminationDataInPlace_ctor_run pd nChildren P pp pn q st :
  dataList st !! pd = Some P →
  bayesTreeNode P = Some pp →
  heap st !! pp = Some pn →
  Node.children pn !! length (childFactors P) = Some q →
  EliminationDataInPlace_ctor (Some pd) nChildren st =
  (Ok {| parentData := Some pd; myIndexInParent := length (childFactors P);
         childFactors := []; bayesTreeNode := Some q |},
   set_dataList (<[pd := set_childFactors (childFactors P ++ [None]) P]> (dataList st)) st).
Proof.
  intros HP Hpp Hpn Hq.
  destruct st as [h dl ni cl]; simpl in *.
  assert (Hpd : pd < length dl) by (eapply lookup_lt_Some; eauto).
  unfold EliminationDataInPlace_ctor.
  mstep_by reserveSlot_run ltac:(exact HP).
  erewrite bind_Ok; [reflexivity|].
  mstep_by derefData_run ltac:(apply list_lookup_insert_eq; done).
  unfold nodeOf at 1; simpl. rewrite Hpp.
  mstep @ret_run.
  mstep_by derefNode_run ltac:(exact Hpn).
  rewrite Hq. reflexivity.
Qed.

Lemma eliminationPreOrderVisitor_inPlace_run node pd P pp pn q nq st :
  dataList st !! pd = Some P →
  bayesTreeNode P = Some pp →
  heap st !! pp = Some pn →
  Node.children pn !! length (childFactors P) = Some q →
  heap st !! q = Some nq →
  eliminationPreOrderVisitor EliminationDataInPlace_ctor node pd st =
  (Ok {| parentData := Some pd; myIndexInParent := length (childFactors P);
         childFactors := []; bayesTreeNode := Some q |},
   set_heap (<[q := Node.set_problemSize (Cluster.problemSize node) nq]> (heap st))
     (set_dataList (<[pd := set_childFactors (childFactors P ++ [None]) P]> (dataList st)) st)).
Proof.
  intros HP Hpp Hpn Hq Hnq.
  unfold eliminationPreOrderVisitor.
  erewrite bind_Ok; [|eapply EliminationDataInPlace_ctor_run; eauto]. simp_state.
  mstep @ret_run.
  mstep_by updateNode_run ltac:(exact Hnq).
  reflexivity.
Qed.

Lemma orphan_loop_passes (fs : list (option Factor)) st :
  orphansOf fs = [] →
  forEach (λ f, match asSubtree f with
                | Some _ => throw (RuntimeErrorThreadsafe orphanInPlaceMessage)
                | None => mret tt
                end) fs st = (Ok tt, st).
Proof.
  induction fs as [|x fs IH]; intros Hnil; [done|].
  simpl. unfold orphansOf in *. simpl in Hnil.
  destruct (asSubtree x) as [q|]; [done|].
  rewrite bind_run, ret_run. by apply IH.
Qed.

Lemma EliminationPostOrderVisitorInPlace_run f node d D p n pd P st :
  returnsRemaining f →
  orphansOf (Cluster.factors node) = [] →
  dataList st !! d = Some D → bayesTreeNode D = Some p → heap st !! p = Some n →
  parentData D = Some pd → dataList st !! pd = Some P →
  childFactors P !! myIndexInParent D = Some None →
  let g := Cluster.factors node ++ childFactors D in
  let res := f g (Cluster.keys node) in
  EliminationPostOrderVisitorInPlace f node d st =
  (Ok tt,
   {| heap := <[p := Node.set_conditional (fst res) n]> (heap st);
      dataList := <[pd := set_childFactors
                      (<[myIndexInParent D := publish (snd res)]> (childFactors P)) P]>
                    (dataList st);
      nodesIndex := nodesIndex st;
      calls := calls st ++ [(g, Cluster.keys node)] |}).
Proof.
  intros Hrem Hnil HD Hp Hn Hpd HP Hslot g res.
  unfold EliminationPostOrderVisitorInPlace.
  erewrite bind_Ok; [|by apply orphan_loop_passes].
  destruct (Hrem g (Cluster.keys node)) as [r Hr]. fold res in Hr.
  erewrite helper_run by eauto. fold g res. rewrite Hr.
  erewrite forwardRemaining_run; eauto.
Qed.

Lemma orphanFree_cons c cs : orphanFree (c :: cs) ↔ orphanFree [c] ∧ orphanFree cs.
Proof.
  unfold orphanFree. cbn [map concat]. rewrite app_nil_r. apply Forall_app.
Qed.

Lemma orphanFree_node c :
  orphanFree [c] ↔ orphanFree (Cluster.children c) ∧ orphansOf (Cluster.factors c) = [].
Proof.
  unfold orphanFree. cbn [map concat]. rewrite app_nil_r, clustersOf_unfold.
  rewrite Forall_app, Forall_singleton. done.
Qed.

Section ChildrenInPlace.
Context (f : Eliminate).

Lemma visitChildrenInPlace_run cs :
  Forall (visitInPlaceSpec f) cs →
  ∀ d Dd p qs st,
    dataList st !! d = Some Dd → bayesTreeNode Dd = Some p →
    cliqueChildren st !! p = Some qs →
    prefixMatch (hasShape (cliqueChildren st)) cs (drop (length (childFactors Dd)) qs) = true →
    (orphanFree cs →
       ∃ st', forEach (λ c, visitInPlace f c d) cs st = (Ok tt, st') ∧
              visitedInPlace f cs d Dd st st') ∧
    (¬ orphanFree cs →
       ∃ st', forEach (λ c, visitInPlace f c d) cs st = (Fail orphanError, st')).
Proof.
  induction 1 as [|c cs Hc _ IH]; intros d Dd p qs st HD Hp Hqs Hshape.
  - split.
    + intros _. exists st. split; [reflexivity|]. constructor; simpl; try done.
      * rewrite app_nil_r. by destruct Dd.
      * by rewrite app_nil_r.
    + intros Hn. destruct Hn. constructor.
  - apply prefixMatch_cons_inv in Hshape as (q & rest & Hdrop & Hq & Hrest).
    assert (Hqk : qs !! length (childFactors Dd) = Some q).
    { rewrite <- (Nat.add_0_r (length _)), <- lookup_drop, Hdrop. done. }
    destruct (Hc d Dd p qs q st HD Hp Hqs Hqk Hq) as [Hok Hfail].
    destruct (decide (orphanFree [c])) as [Hfree|Hbad].
    + destruct (Hok Hfree) as (st1 & Hrun1 & V1).
      destruct V1 as [L1 S1 F1 C1 K1 I1].
      destruct (IH d _ p qs st1 S1 Hp) as [Hok2 Hfail2].
      { by rewrite K1. }
      { rewrite K1. simpl. rewrite length_app. simpl.
        rewrite <- drop_drop, Hdrop. done. }
      split.
      * intros Hall. apply orphanFree_cons in Hall as [_ Hall].
        destruct (Hok2 Hall) as (st2 & Hrun2 & V2).
        destruct V2 as [L2 S2 F2 C2 K2 I2].
        exists st2. split.
        { simpl. rewrite (bind_Ok _ _ _ _ _ Hrun1). exact Hrun2. }
        assert (Hdlt : d < length (dataList st)) by (eapply lookup_lt_Some; eauto).
        constructor.
        -- lia.
        -- rewrite S2. simpl. rewrite set_childFactors_twice, <- app_assoc. done.
        -- intros q' Hq' Hne. rewrite F2 by (done || lia). by apply F1.
        -- rewrite C2, C1. simpl. rewrite app_nil_r, <- app_assoc. done.
        -- congruence.
        -- congruence.
      * intros Hn.
        assert (Hcs : ¬ orphanFree cs).
        { intros Hcs. apply Hn, orphanFree_cons. done. }
        destruct (Hfail2 Hcs) as (st2 & Hrun2).
        exists st2. simpl. rewrite (bind_Ok _ _ _ _ _ Hrun1). exact Hrun2.
    + destruct (Hfail Hbad) as (st1 & Hrun1). split.
      * intros Hall. apply orphanFree_cons in Hall as [Hall _]. done.
      * intros _. exists st1. simpl. by rewrite (bind_Fail _ _ _ _ _ Hrun1).
Qed.
End ChildrenInPlace.

Theorem visitInPlace_run f :
  returnsRemaining f → ∀ c, visitInPlaceSpec f c.
Proof.
  intros Hrem. induction c as [ks fs cs z IH] using Cluster_tree_ind.
  intros pd P pp qs q st HP Hpp Hqs Hq Hshape.
  set (node := Cluster.mk ks fs cs z) in *.
  apply cliqueChildren_lookup in Hqs as (pn & Hpn & <-).
  rewrite hasShape_unfold in Hshape. cbn [Cluster.children node] in Hshape.
  destruct (cliqueChildren st !! q) as [qs'|] eqn:Hqs'; [|done].
  apply cliqueChildren_lookup in Hqs' as (nq & Hnq & <-).
  assert (Hpdlt : pd < length (dataList st)) by (eapply lookup_lt_Some; eauto).
  unfold visitInPlace. rewrite visitNode_unfold. fold (visitInPlace f).
  assert (Hpre := eliminationPreOrderVisitor_inPlace_run node pd P pp pn q nq st
                    HP Hpp Hpn Hq Hnq).
  destruct st as [h dl ni cl]. simp_state.
  set (P' := set_childFactors (childFactors P ++ [None]) P) in *.
  set (D0 := {| parentData := Some pd; myIndexInParent := length (childFactors P);
                childFactors := []; bayesTreeNode := Some q |}) in *.
  set (h2 := <[q := Node.set_problemSize z nq]> h) in *.
  set (dl2 := <[pd := P']> dl ++ [D0]).
  assert (Hk2 : map Node.children h2 = map Node.children h).
  { subst h2. by eapply map_insert_same. }
  assert (Hdl2 : length dl2 = S (length dl)).
  { subst dl2. rewrite length_app, length_insert. simpl. lia. }
  destruct (visitChildrenInPlace_run f cs IH (length dl) D0 q (Node.children nq)
              (mkState h2 dl2 ni cl)) as [Hok Hfail].
  { simpl. subst dl2. rewrite <- (length_insert dl pd P'). apply lookup_snoc. }
  { reflexivity. }
  { unfold cliqueChildren. simpl. rewrite Hk2, lookup_map, Hnq. done. }
  { unfold cliqueChildren. simpl. rewrite Hk2. exact Hshape. }
  destruct (decide (orphanFree cs)) as [Hfree|Hbad].
  - destruct (Hok Hfree) as (st3 & Hrun3 & V3).
    destruct V3 as [L3 S3 F3 C3 K3 I3]. unfold cliqueChildren in K3.
    simpl in *. rewrite Hdl2 in *.
    assert (HP3 : dataList st3 !! pd = Some P').
    { rewrite F3 by lia. subst dl2. rewrite lookup_app_l by (rewrite length_insert; lia).
      apply list_lookup_insert_eq. done. }
    assert (Hq3 : ∃ n3, heap st3 !! q = Some n3).
    { apply lookup_lt_is_Some. apply lookup_lt_Some in Hnq.
      rewrite <- (length_map Node.children), K3, Hk2, length_map. done. }
    destruct Hq3 as [n3 Hn3].
    split.
    + intros Hall. apply orphanFree_node in Hall as [_ Hown]. cbn [Cluster.factors node] in Hown.
      eexists. split.
      { erewrite bind_Ok; [|exact Hpre]. simp_state.
        mstep @pushData_run. rewrite length_insert.
        fold dl2. rewrite (bind_Ok _ _ _ _ _ Hrun3).
        eapply (EliminationPostOrderVisitorInPlace_run f node (length dl) _ q n3 pd P' st3);
          eauto.
        subst P'. simpl. apply lookup_snoc. }
      constructor; simpl.
      * rewrite length_insert. lia.
      * rewrite list_lookup_insert_eq by (eapply lookup_lt_Some; eauto).
        subst P'. simpl. rewrite insert_snoc. done.
      * intros q' Hq' Hqne. rewrite list_lookup_insert_ne by done.
        rewrite F3 by lia. subst dl2. rewrite lookup_app_l by (rewrite length_insert; lia).
        by rewrite list_lookup_insert_ne.
      * rewrite C3, app_nil_r, <- app_assoc. reflexivity.
      * unfold cliqueChildren. simpl.
        erewrite map_insert_same; [|exact Hn3|reflexivity]. by rewrite K3.
      * done.
    + intros Hn.
      assert (Hown : orphansOf fs ≠ []).
      { intros Hown. apply Hn, orphanFree_node. done. }
      exists st3.
      erewrite bind_Ok; [|exact Hpre]. simp_state.
      mstep @pushData_run. rewrite length_insert.
      fold dl2. rewrite (bind_Ok _ _ _ _ _ Hrun3).
      by apply EliminationPostOrderVisitorInPlace_orphan.
  - destruct (Hfail Hbad) as (st3 & Hrun3). split.
    + intros Hall. apply orphanFree_node in Hall as [Hall _]. done.
    + intros _. exists st3.
      erewrite bind_Ok; [|exact Hpre]. simp_state.
      mstep @pushData_run. rewrite length_insert.
      fold dl2. by rewrite (bind_Fail _ _ _ _ _ Hrun3).
Qed.

Lemma eliminateInPlace_run bayesTree f t st :
  returnsRemaining f → existingTreeMatches st bayesTree t →
  (orphanFree (roots_ t) →
     ∃ remaining st',
       eliminateInPlace bayesTree f t st = (Ok remaining, st') ∧
       eliminatedInPlace f t st st' remaining) ∧
  (¬ orphanFree (roots_ t) →
     ∃ st', eliminateInPlace bayesTree f t st = (Fail orphanError, st')).
Proof.
  intros Hrem Hshape. destruct st as [h dl ni cl].
  unfold existingTreeMatches, cliqueChildren in Hshape. simpl in Hshape.
  set (rc := {| parentData := None; myIndexInParent := 0; childFactors := [];
                bayesTreeNode := Some (length h) |}).
  set (dummy := Node.set_children (bt_roots_ bayesTree) Node.empty).
  set (st1 := mkState (h ++ [dummy]) (dl ++ [rc]) ni cl).
  assert (Hall : Forall (visitInPlaceSpec f) (roots_ t)).
  { apply Forall_forall. intros c _. by apply visitInPlace_run. }
  destruct (visitChildrenInPlace_run f (roots_ t) Hall
              (length dl) rc (length h) (bt_roots_ bayesTree) st1) as [Hok Hfail].
  { apply lookup_snoc. }
  { reflexivity. }
  { unfold cliqueChildren. simpl. rewrite List.map_app. simpl.
    rewrite <- (length_map Node.children h). apply lookup_snoc. }
  { unfold cliqueChildren. simpl. rewrite List.map_app.
    eapply prefixMatch_impl; [|exact Hshape].
    apply Forall_forall. intros c _ q. apply hasShape_extend. }
  assert (Hstart : ∀ {A} (k : DataPtr → M A),
    (rc ← EliminationDataInPlace_ctor None (length (roots_ t));
     rootsContainer ← pushData rc;
     rootsBayesTreeNode ← allocNode;
     updateData rootsContainer (set_bayesTreeNode (Some rootsBayesTreeNode));;
     RC ← derefData rootsContainer;
     p ← nodeOf RC;
     updateNode p (Node.set_children (bt_roots_ bayesTree));;
     k rootsContainer) (mkState h dl ni cl) = k (length dl) st1).
  { intros A k.
    erewrite bind_Ok; [|reflexivity]. simp_state.
    mstep @pushData_run. mstep allocNode_run.
    mstep_by updateData_run ltac:(apply lookup_snoc). rewrite insert_snoc.
    mstep_by derefData_run ltac:(apply lookup_snoc).
    mstep @ret_run.
    mstep_by updateNode_run ltac:(apply lookup_snoc). rewrite insert_snoc.
    reflexivity. }
  split.
  - intros Hfree. destruct (Hok Hfree) as (st3 & Hrun3 & V3).
    destruct V3 as [L3 S3 F3 C3 K3 I3].
    eexists _, st3. split.
    { unfold eliminateInPlace.
      rewrite Hstart.
      unfold DepthFirstForestParallel. fold (visitInPlace f).
      rewrite (bind_Ok _ _ _ _ _ Hrun3).
      mstep_by derefData_run ltac:(exact S3).
      reflexivity. }
    constructor; simpl in *.
    + done.
    + done.
    + intros q Hq. rewrite K3. unfold cliqueChildren. simpl.
      rewrite List.map_app. rewrite lookup_app_l by (by rewrite length_map). done.
    + done.
  - intros Hn. destruct (Hfail Hn) as (st3 & Hrun3).
    exists st3. unfold eliminateInPlace.
    rewrite Hstart.
    unfold DepthFirstForestParallel. fold (visitInPlace f).
    by rewrite (bind_Fail _ _ _ _ _ Hrun3).
Qed.



(** ** The unchecked non-null precondition *)

Lemma helper_null_remaining f node d D p n st :
  dataList st !! d = Some D → bayesTreeNode D = Some p → heap st !! p = Some n →
  snd (f (Cluster.factors node ++ childFactors D) (Cluster.keys node)) = None →
  eliminationPostOrderVisitorHelper f node d st =
  (Fail (UndefinedBehaviour NullRemainingFactor), afterElimination f node D p n st).
Proof.
  intros HD Hp Hn Hnull. erewrite helper_run by eauto. rewrite Hnull. reflexivity.
Qed.

(** C9.  The helper dereferences the remaining factor it was returned
    without a check: when the pointer is null the step is undefined, after
    the call was made and the conditional stored.  When the elimination
    function always returns a non-null remaining factor, neither entry point
    can fail on that dereference. *)
Theorem remaining_factor_dereference f :
  (∀ node d D p n st,
     dataList st !! d = Some D → bayesTreeNode D = Some p → heap st !! p = Some n →
     snd (f (Cluster.factors node ++ childFactors D) (Cluster.keys node)) = None →
     eliminationPostOrderVisitorHelper f node d st =
     (Fail (UndefinedBehaviour NullRemainingFactor), afterElimination f node D p n st)) ∧
  (returnsRemaining f →
   ∀ bayesTree t st,
     fst (eliminate f t st) ≠ Fail (UndefinedBehaviour NullRemainingFactor) ∧
     fst (eliminateInPlace bayesTree f t st) ≠ Fail (UndefinedBehaviour NullRemainingFactor)).
Proof.
  split.
  - intros. by eapply helper_null_remaining.
  - intros Hrem bayesTree t st.
    assert (HS : ∀ u, u ≠ NullRemainingFactor →
                 UndefinedBehaviour u ≠ UndefinedBehaviour NullRemainingFactor)
      by congruence.
    split.
    + destruct (eliminate f t st) as [[a|e] st'] eqn:Hrun; [done|]. simpl.
      apply (failsOnly_eliminate (λ e, e ≠ UndefinedBehaviour NullRemainingFactor) HS)
        in Hrun; [congruence|by left].
    + destruct (eliminateInPlace bayesTree f t st) as [[a|e] st'] eqn:Hrun; [done|]. simpl.
      apply (failsOnly_eliminateInPlace
               (λ e, e ≠ UndefinedBehaviour NullRemainingFactor) HS) in Hrun;
        [congruence|done|by left].
Qed.

Lemma remaining_factor_dereference_witness :
  returnsRemaining Example.symbolic ∧
  ∀ bayesTree t st,
    fst (eliminate Example.symbolic t st) ≠ Fail (UndefinedBehaviour NullRemainingFactor) ∧
    fst (eliminateInPlace bayesTree Example.symbolic t st)
      ≠ Fail (UndefinedBehaviour NullRemainingFactor).
Proof.
  split; [exact Example_returnsRemaining|].
  exact (proj2 (remaining_factor_dereference Example.symbolic) Example_returnsRemaining).
Defined.

(** The null case does occur: an elimination function that returns a null
    remaining factor makes [eliminate] undefined at the first cluster. *)
Example eliminate_null_remaining :
  fst (eliminate Example.nullRemaining Example.forest Example.start) =
  Fail (UndefinedBehaviour NullRemainingFactor).
Proof. reflexivity. Qed.

(** ** What a successful visitor does to the data list *)

Section Keeps.
Context {X : Type} (proj : State → X).

Lemma keeps_ret {A} (a : A) : keeps proj (mret a : M A).
Proof. intros st a' st' H. unfold mret, M_ret in H. by simplify_eq. Qed.

Lemma keeps_bind {A B} (m : M A) (k : A → M B) :
  keeps proj m → (∀ a, keeps proj (k a)) → keeps proj (m ≫= k).
Proof.
  intros Hm Hk st b st2 Hrun. apply bind_Ok_inv in Hrun as (a & st1 & H1 & H2).
  apply Hm in H1. apply Hk in H2. congruence.
Qed.

Lemma keeps_forEach {A} (body : A → M unit) (l : list A) :
  (∀ x, keeps proj (body x)) → keeps proj (forEach body l).
Proof.
  intros Hb. induction l as [|x l IH]; simpl.
  - apply keeps_ret.
  - apply keeps_bind; [apply Hb|]. intros _. apply IH.
Qed.

Lemma keeps_throw {A} e : keeps proj (throw e : M A).
Proof. intros st a st' H. discriminate. Qed.

Lemma keeps_derefData d : keeps proj (derefData d).
Proof. intros st a st' H. unfold derefData in H. destruct (_ !! _); by simplify_eq. Qed.

Lemma keeps_derefNode p : keeps proj (derefNode p).
Proof. intros st a st' H. unfold derefNode in H. destruct (_ !! _); by simplify_eq. Qed.

Lemma keeps_nodeOf D : keeps proj (nodeOf D).
Proof. unfold nodeOf. destruct (bayesTreeNode D); [apply keeps_ret|apply keeps_throw]. Qed.

Lemma keeps_modify g : (∀ st, proj (g st) = proj st) → keeps proj (modify g).
Proof. intros Hg st a st' H. unfold modify in H. simplify_eq. apply Hg. Qed.

Lemma keeps_updateNode p g :
  (∀ h st, proj (set_heap h st) = proj st) → keeps proj (updateNode p g).
Proof.
  intros Hh. unfold updateNode. apply keeps_bind; [apply keeps_derefNode|].
  intros n. apply keeps_modify. intros st. apply Hh.
Qed.

Lemma keeps_allocNode :
  (∀ h st, proj (set_heap h st) = proj st) → keeps proj allocNode.
Proof. intros Hh st a st' H. unfold allocNode in H. simplify_eq. apply Hh. Qed.

Lemma keeps_nodesIndex_insert j p :
  (∀ m st, proj (set_nodesIndex m st) = proj st) → keeps proj (nodesIndex_insert j p).
Proof. intros Hh. apply keeps_modify. intros st. destruct (_ !! _); [done|apply Hh]. Qed.
End Keeps.

(** Decompose a computation that leaves the data list or the call log alone
    into its actions. *)
Ltac keeps_proj :=
  repeat first
    [ apply keeps_ret
    | apply keeps_throw
    | apply keeps_derefData
    | apply keeps_derefNode
    | apply keeps_nodeOf
    | apply keeps_updateNode; reflexivity
    | apply keeps_allocNode; reflexivity
    | apply keeps_nodesIndex_insert; reflexivity
    | apply keeps_forEach; intros ?
    | apply keeps_bind; [|intros ?]
    | match goal with
      | |- keeps _ (match ?x with _ => _ end) => destruct x
      end ].

Lemma reserveSlot_inv pd st idx st1 :
  reserveSlot (Some pd) st = (Ok idx, st1) →
  ∃ P, dataList st !! pd = Some P ∧ idx = length (childFactors P) ∧
       dataList st1 = <[pd := set_childFactors (childFactors P ++ [None]) P]> (dataList st).
Proof.
  intros Hrun. destruct (dataList st !! pd) as [P|] eqn:HP.
  - rewrite (reserveSlot_run _ _ _ HP) in Hrun. simplify_eq. eauto.
  - unfold reserveSlot in Hrun. rewrite bind_run in Hrun. unfold derefData in Hrun.
    rewrite HP in Hrun. discriminate.
Qed.

Lemma reservesSlot_allocating : reservesSlot (eliminationPreOrderVisitor EliminationData_ctor).
Proof.
  intros c pd st D st1 Hrun. unfold eliminationPreOrderVisitor in Hrun.
  apply bind_Ok_inv in Hrun as (D' & s1 & Hctor & Hrest).
  assert (Hk : dataList st1 = dataList s1 ∧ D = D').
  { apply bind_Ok_inv in Hrest as (p & s2 & H1 & H2).
    apply bind_Ok_inv in H2 as ([] & s3 & H2 & H3).
    apply (keeps_nodeOf dataList) in H1. apply (keeps_updateNode dataList) in H2; [|done].
    unfold mret, M_ret in H3. simplify_eq. split; congruence. }
  destruct Hk as [-> ->].
  unfold EliminationData_ctor in Hctor.
  apply bind_Ok_inv in Hctor as (node & s2 & Halloc & Hctor).
  apply bind_Ok_inv in Hctor as (idx & s3 & Hslot & Hctor).
  apply bind_Ok_inv in Hctor as ([] & s4 & Hlink & Hret).
  unfold mret, M_ret in Hret. simplify_eq.
  apply (keeps_allocNode dataList) in Halloc; [|done].
  apply reserveSlot_inv in Hslot as (P & HP & -> & Hdl).
  match type of Hlink with
  | ?m _ = _ => assert (Hkd : keeps dataList m) by keeps_proj
  end.
  apply Hkd in Hlink.
  exists P. rewrite <- Halloc. simpl. split; [done|]. split; [congruence|]. done.
Qed.

Lemma reservesSlot_reusing : reservesSlot (eliminationPreOrderVisitor EliminationDataInPlace_ctor).
Proof.
  intros c pd st D st1 Hrun. unfold eliminationPreOrderVisitor in Hrun.
  apply bind_Ok_inv in Hrun as (D' & s1 & Hctor & Hrest).
  assert (Hk : dataList st1 = dataList s1 ∧ D = D').
  { apply bind_Ok_inv in Hrest as (p & s2 & H1 & H2).
    apply bind_Ok_inv in H2 as ([] & s3 & H2 & H3).
    apply (keeps_nodeOf dataList) in H1. apply (keeps_updateNode dataList) in H2; [|done].
    unfold mret, M_ret in H3. simplify_eq. split; congruence. }
  destruct Hk as [-> ->].
  unfold EliminationDataInPlace_ctor in Hctor.
  apply bind_Ok_inv in Hctor as (idx & s3 & Hslot & Hctor).
  apply bind_Ok_inv in Hctor as (node & s4 & Hlink & Hret).
  unfold mret, M_ret in Hret. simplify_eq.
  apply reserveSlot_inv in Hslot as (P & HP & -> & Hdl).
  match type of Hlink with
  | ?m _ = _ => assert (Hkd : keeps dataList m) by (keeps_proj; apply keeps_throw)
  end.
  apply Hkd in Hlink.
  exists P. simpl. split; [done|]. split; [congruence|]. done.
Qed.

Lemma forwardRemaining_inv D second st st1 :
  forwardRemaining D second st = (Ok tt, st1) →
  ∃ r, second = Some r ∧
    ((Factor_empty r = true ∧ st1 = st) ∨
     (Factor_empty r = false ∧
      ∃ pd P, parentData D = Some pd ∧ dataList st !! pd = Some P ∧
              myIndexInParent D < length (childFactors P) ∧
              dataList st1 =
                <[pd := set_childFactors
                          (<[myIndexInParent D := Some r]> (childFactors P)) P]>
                  (dataList st))).
Proof.
  unfold forwardRemaining. intros Hrun.
  destruct second as [r|]; [|discriminate]. exists r. split; [done|].
  destruct (Factor_empty r); simpl in Hrun.
  - left. unfold mret, M_ret in Hrun. by simplify_eq.
  - right. split; [done|].
    destruct (parentData D) as [pd|]; [|discriminate].
    rewrite bind_run in Hrun. unfold derefData at 1 in Hrun.
    destruct (dataList st !! pd) as [P|] eqn:HP; [|discriminate].
    destruct (decide _) as [Hlt|]; [|discriminate].
    rewrite (updateData_run _ _ _ _ HP) in Hrun. simplify_eq. eauto 10.
Qed.

Lemma helper_inv f node d st st1 :
  eliminationPostOrderVisitorHelper f node d st = (Ok tt, st1) →
  ∃ D p n,
    dataList st !! d = Some D ∧ bayesTreeNode D = Some p ∧ heap st !! p = Some n ∧
    forwardRemaining D (snd (f (Cluster.factors node ++ childFactors D) (Cluster.keys node)))
      (afterElimination f node D p n st) = (Ok tt, st1).
Proof.
  intros Hrun.
  destruct (dataList st !! d) as [D|] eqn:HD.
  2:{ unfold eliminationPostOrderVisitorHelper in Hrun. rewrite bind_run in Hrun.
      unfold derefData in Hrun. rewrite HD in Hrun. discriminate. }
  destruct (bayesTreeNode D) as [p|] eqn:Hp.
  2:{ unfold eliminationPostOrderVisitorHelper in Hrun.
      rewrite (bind_Ok _ _ _ _ _ (derefData_run _ _ _ HD)) in Hrun.
      rewrite bind_run in Hrun. simpl in Hrun. rewrite bind_run in Hrun.
      unfold nodeOf in Hrun. rewrite Hp in Hrun. discriminate. }
  destruct (heap st !! p) as [n|] eqn:Hn.
  2:{ unfold eliminationPostOrderVisitorHelper in Hrun.
      rewrite (bind_Ok _ _ _ _ _ (derefData_run _ _ _ HD)) in Hrun.
      rewrite bind_run in Hrun. simpl in Hrun.
      rewrite (bind_Ok _ _ _ _ _ (nodeOf_run _ _ _ Hp)) in Hrun.
      rewrite bind_run in Hrun. unfold setEliminationResult, updateNode in Hrun.
      rewrite bind_run in Hrun. unfold derefNode in Hrun. simpl in Hrun.
      rewrite Hn in Hrun. discriminate. }
  exists D, p, n. rewrite (helper_run _ _ _ _ _ _ _ HD Hp Hn) in Hrun. done.
Qed.

Lemma helper_forwards f c d st st1 :
  eliminationPostOrderVisitorHelper f c d st = (Ok tt, st1) →
  ∃ D r,
    dataList st !! d = Some D ∧
    snd (f (Cluster.factors c ++ childFactors D) (Cluster.keys c)) = Some r ∧
    calls st1 = calls st ++ [(Cluster.factors c ++ childFactors D, Cluster.keys c)] ∧
    ((Factor_empty r = true ∧ dataList st1 = dataList st) ∨
     (Factor_empty r = false ∧
      ∃ pd P, parentData D = Some pd ∧ dataList st !! pd = Some P ∧
              myIndexInParent D < length (childFactors P) ∧
              dataList st1 =
                <[pd := set_childFactors
                          (<[myIndexInParent D := Some r]> (childFactors P)) P]>
                  (dataList st))).
Proof.
  intros Hrun. apply helper_inv in Hrun as (D & p & n & HD & Hp & Hn & Hfw).
  destruct (forwardRemaining_state D
              (snd (f (Cluster.factors c ++ childFactors D) (Cluster.keys c)))
              (afterElimination f c D p n st)) as (out & dl' & Hst).
  rewrite Hst in Hfw. injection Hfw as -> <-.
  apply forwardRemaining_inv in Hst as (r & Hr & Hcase).
  exists D, r. split; [done|]. split; [done|]. split; [reflexivity|].
  destruct Hcase as [[He Heq]|(He & pd & P & Hpd & HP & Hlt & Hdl)].
  - left. split; [done|]. rewrite Heq. reflexivity.
  - right. split; [done|]. exists pd, P. done.
Qed.

Lemma forwardsRemaining_build f : forwardsRemaining f (EliminationPostOrderVisitor f).
Proof.
  intros c d st st1 Hrun. rewrite EliminationPostOrderVisitor_unfold in Hrun.
  apply bind_Ok_inv in Hrun as ([] & sH & Hhelper & Hrest).
  apply helper_forwards in Hhelper as (D & r & HD & Hr & Hcalls & Hcase).
  match type of Hrest with
  | ?m _ = _ =>
      assert (Hkd : keeps dataList m) by (unfold attachOrphan; keeps_proj; apply keeps_throw);
      assert (Hkc : keeps calls m) by (unfold attachOrphan; keeps_proj; apply keeps_throw)
  end.
  apply Hkd in Hrest as Hd1. apply Hkc in Hrest as Hc1.
  exists D, r. split; [done|]. split; [done|].
  split; [rewrite Hc1, Hcalls; apply in_or_app; right; by left|].
  rewrite Hd1. exact Hcase.
Qed.

Lemma forwardsRemaining_inPlace f : forwardsRemaining f (EliminationPostOrderVisitorInPlace f).
Proof.
  intros c d st st1 Hrun. unfold EliminationPostOrderVisitorInPlace in Hrun.
  apply bind_Ok_inv in Hrun as ([] & s0 & Hloop & Hhelper).
  assert (s0 = st) as ->.
  { clear Hhelper. revert Hloop. generalize (Cluster.factors c). intros fs.
    induction fs as [|x fs IH]; simpl; intros H.
    - unfold mret, M_ret in H. by simplify_eq.
    - rewrite bind_run in H. destruct (asSubtree x); [discriminate|]. by apply IH. }
  apply helper_forwards in Hhelper as (D & r & HD & Hr & Hcalls & Hcase).
  exists D, r. split; [done|]. split; [done|].
  split; [rewrite Hcalls; apply in_or_app; right; by left|]. exact Hcase.
Qed.

Lemma nodeAt_children roots π c :
  nodeAt roots π = Some c → childrenAt roots π = Some (Cluster.children c).
Proof.
  destruct π as [|i ρ]; [done|]. simpl.
  destruct (childrenAt roots ρ) as [cs|]; [|done]. by intros ->.
Qed.

Lemma cons_neq {A} (x : A) (l : list A) : x :: l ≠ l.
Proof. intros H. apply (f_equal length) in H. simpl in H. lia. Qed.

Lemma Inv_initial f forest rd st RC :
  dataList st !! rd = Some RC → childFactors RC = [] →
  Inv f forest [] (initial rd st).
Proof.
  intros HRC Hcf. constructor; simpl.
  - intros π d Hπ. apply lookup_singleton_Some in Hπ as [<- <-].
    exists RC. split; [done|]. split; [|done].
    intros j. rewrite Hcf. unfold expectedSlot. simpl.
    destruct (roots_ forest !! j); [|done].
    by rewrite lookup_singleton_ne.
  - intros π1 π2 d H1 H2.
    apply lookup_singleton_Some in H1 as [<- _].
    by apply lookup_singleton_Some in H2 as [<- _].
  - intros π Hπ. by apply elem_of_empty in Hπ.
  - intros j π [d Hd]. by apply lookup_singleton_Some in Hd as [? _].
  - intros π. split; [intros H; by apply elem_of_empty in H|intros []].
  - intros i ρ [d Hd]. by apply lookup_singleton_Some in Hd as [? _].
Qed.

Lemma expectedSlot_length f forest cfg i ρ c (cf : list (option Factor)) :
  nodeAt (roots_ forest) (i :: ρ) = Some c →
  context cfg !! (i :: ρ) = None →
  (∀ j, j < i → is_Some (context cfg !! (j :: ρ))) →
  (∀ j, cf !! j = expectedSlot f forest cfg ρ j) →
  length cf = i.
Proof.
  intros Hc Hnone Helder Hcf. simpl in Hc.
  destruct (childrenAt (roots_ forest) ρ) as [cs|] eqn:Hcs; [|done].
  apply Nat.le_antisymm.
  - apply lookup_ge_None. rewrite Hcf. unfold expectedSlot. by rewrite Hcs, Hc, Hnone.
  - apply Nat.nlt_ge. intros Hlt. destruct (Helder _ Hlt) as [dj Hdj].
    assert (is_Some (cs !! length cf)) as [ch Hch].
    { apply lookup_lt_is_Some_2. apply lookup_lt_Some in Hc. lia. }
    pose proof (Hcf (length cf)) as Hj. unfold expectedSlot in Hj.
    rewrite Hcs, Hch, Hdj in Hj. rewrite lookup_ge_None_2 in Hj by done. discriminate.
Qed.

Lemma Inv_step_pre f pre forest evs cfg i ρ c pd D st1 d st2 :
  reservesSlot pre →
  Inv f forest evs cfg →
  nodeAt (roots_ forest) (i :: ρ) = Some c →
  context cfg !! ρ = Some pd →
  context cfg !! (i :: ρ) = None →
  (∀ j, j < i → is_Some (context cfg !! (j :: ρ))) →
  pre c pd (machine cfg) = (Ok D, st1) →
  pushData D st1 = (Ok d, st2) →
  Inv f forest (evs ++ [PreOrder (i :: ρ)])
    {| machine := st2; context := <[i :: ρ := d]> (context cfg);
       finished := finished cfg |}.
Proof.
  intros Hpre [Hdata Hinj Hfin Hclosed Hev Hbefore] Hc Hρ Hnone Helder Hrun Hpush.
  apply Hpre in Hrun as (P & HP & Hdl1 & HDp & HDi & HDc).
  rewrite pushData_run in Hpush. injection Hpush as <- <-.
  destruct (Hdata ρ pd Hρ) as (P0 & HP0 & Hslots & Hlink).
  assert (P0 = P) as -> by congruence.
  assert (Hlen : length (childFactors P) = i) by (eapply expectedSlot_length; eauto).
  assert (Hpdlt : pd < length (dataList (machine cfg))) by (eapply lookup_lt_Some; eauto).
  assert (Hl1 : length (dataList st1) = length (dataList (machine cfg))).
  { by rewrite Hdl1, length_insert. }
  assert (Hnotfin : (i :: ρ) ∉ finished cfg).
  { intros Hin. apply Hfin in Hin as [x Hx]. congruence. }
  assert (Hnochild : ∀ j, context cfg !! (j :: i :: ρ) = None).
  { intros j. destruct (context cfg !! (j :: i :: ρ)) eqn:E; [|done].
    destruct (Hclosed j (i :: ρ)) as [x Hx]; [by eexists|]. congruence. }
  assert (Hcs : ∃ cs, childrenAt (roots_ forest) ρ = Some cs ∧ cs !! i = Some c).
  { simpl in Hc. destruct (childrenAt (roots_ forest) ρ) as [cs|]; [eauto|done]. }
  destruct Hcs as (cs & Hcs & Hci).
  constructor; simpl.
  - intros π d' Hπ.
    destruct (decide (π = i :: ρ)) as [->|Hne].
    + rewrite lookup_insert_eq in Hπ. injection Hπ as <-.
      exists D. split; [rewrite Hl1, <- Hl1; apply lookup_snoc|].
      split.
      * intros j. rewrite HDc. unfold expectedSlot. simpl.
        destruct (childrenAt (roots_ forest) ρ) as [cs'|]; [|done].
        destruct (Cluster.children <$> cs' !! i) as [cs''|]; [|done].
        destruct (cs'' !! j); [|done].
        rewrite lookup_insert_ne by (apply not_eq_sym, cons_neq). by rewrite Hnochild.
      * rewrite lookup_insert_ne by apply cons_neq.
        split; [congruence|congruence].
    + rewrite lookup_insert_ne in Hπ by done.
      destruct (Hdata π d' Hπ) as (D' & HD' & Hslots' & Hlink').
      assert (Hd'lt : d' < length (dataList (machine cfg))) by (eapply lookup_lt_Some; eauto).
      assert (Hlink'' : match π with
                        | [] => True
                        | k :: π0 => ∀ X : EliminationData,
                            parentData X = parentData D' →
                            myIndexInParent X = myIndexInParent D' →
                            parentData X = <[i :: ρ := length (dataList st1)]> (context cfg) !! π0
                            ∧ myIndexInParent X = k
                        end).
      { destruct π as [|k π0]; [done|]. intros X HX1 HX2. destruct Hlink' as [Hl1' Hl2'].
        rewrite lookup_insert_ne; [split; congruence|].
        intros <-. destruct (Hclosed k (i :: ρ)) as [x Hx]; [by eexists|]. congruence. }
      destruct (decide (π = ρ)) as [->|Hneρ].
      * assert (d' = pd) as -> by congruence. assert (D' = P) as -> by congruence.
        exists (set_childFactors (childFactors P ++ [None]) P).
        split; [rewrite lookup_app_l by lia; rewrite Hdl1; by apply list_lookup_insert_eq|].
        split.
        -- intros j. simpl. unfold expectedSlot. simpl. rewrite Hcs.
           destruct (decide (j = i)) as [->|Hji].
           ++ rewrite <- Hlen at 1. rewrite lookup_snoc, Hci, lookup_insert_eq.
              by rewrite decide_False.
           ++ rewrite lookup_insert_ne by congruence.
              pose proof (Hslots j) as Hj. unfold expectedSlot in Hj. rewrite Hcs in Hj.
              rewrite <- Hj. destruct (decide (j < i)).
              ** by rewrite lookup_app_l by lia.
              ** rewrite !lookup_ge_None_2; [done|lia|rewrite length_app; simpl; lia].
        -- destruct ρ as [|k π0]; [done|]. by apply Hlink''.
      * exists D'. split.
        { rewrite lookup_app_l by lia. rewrite Hdl1, list_lookup_insert_ne; [done|].
          intros <-. apply Hneρ. by eapply Hinj. }
        split.
        -- intros j. rewrite Hslots'. unfold expectedSlot. simpl.
           destruct (childrenAt (roots_ forest) π) as [cs'|]; [|done].
           destruct (cs' !! j); [|done].
           rewrite lookup_insert_ne by congruence. done.
        -- destruct π as [|k π0]; [done|]. by apply Hlink''.
  - intros π1 π2 d' H1 H2.
    destruct (decide (π1 = i :: ρ)) as [->|Hne1];
      destruct (decide (π2 = i :: ρ)) as [->|Hne2]; [done| | |].
    + rewrite lookup_insert_eq in H1. rewrite lookup_insert_ne in H2 by done.
      injection H1 as <-. apply Hdata in H2 as (D' & HD' & _).
      apply lookup_lt_Some in HD'. lia.
    + rewrite lookup_insert_eq in H2. rewrite lookup_insert_ne in H1 by done.
      injection H2 as <-. apply Hdata in H1 as (D' & HD' & _).
      apply lookup_lt_Some in HD'. lia.
    + rewrite lookup_insert_ne in H1, H2 by done. by eapply Hinj.
  - intros π Hπ. apply Hfin in Hπ as [x Hx].
    destruct (decide (π = i :: ρ)) as [->|Hne]; [congruence|].
    rewrite lookup_insert_ne by done. by eexists.
  - intros j π [x Hx].
    destruct (decide (j :: π = i :: ρ)) as [Heq|Hne].
    + injection Heq as -> ->. rewrite lookup_insert_ne by apply cons_neq.
      by eexists.
    + rewrite lookup_insert_ne in Hx by done.
      destruct (Hclosed j π) as [y Hy]; [by eexists|].
      destruct (decide (π = i :: ρ)) as [->|Hne']; [congruence|].
      rewrite lookup_insert_ne by done. by eexists.
  - intros π. rewrite Hev, in_app_iff. simpl. split; [tauto|].
    intros [H|[H|[]]]; [done|discriminate].
  - intros k π Hk. apply in_or_app.
    destruct (decide (k :: π = i :: ρ)) as [->|Hne]; [right; by left|].
    left. apply Hbefore. by rewrite lookup_insert_ne in Hk.
Qed.

(** At the join barrier the slots of a context hold what every child
    published. *)
Lemma children_published f forest evs cfg π c d :
  Inv f forest evs cfg →
  nodeAt (roots_ forest) π = Some c →
  context cfg !! π = Some d →
  (∀ i, i < length (Cluster.children c) → (i :: π) ∈ finished cfg) →
  ∃ D, dataList (machine cfg) !! d = Some D ∧
       childFactors D = map (slotOf f) (Cluster.children c).
Proof.
  intros [Hdata _ Hfin _ _ _] Hc Hπ Hjoin.
  destruct (Hdata π d Hπ) as (D & HD & Hslots & _).
  exists D. split; [done|]. apply list_eq. intros j.
  rewrite Hslots, lookup_map. unfold expectedSlot.
  rewrite (nodeAt_children _ _ _ Hc).
  destruct (Cluster.children c !! j) as [ch|] eqn:Hch; [|done]. simpl.
  assert (Hin : (j :: π) ∈ finished cfg) by (apply Hjoin; by eapply lookup_lt_Some).
  destruct (Hfin _ Hin) as [x ->]. by rewrite decide_True.
Qed.

Lemma Inv_step_post f post forest evs cfg π c d st1 :
  forwardsRemaining f post →
  Inv f forest evs cfg →
  nodeAt (roots_ forest) π = Some c →
  context cfg !! π = Some d →
  π ∉ finished cfg →
  (∀ i, i < length (Cluster.children c) → (i :: π) ∈ finished cfg) →
  post c d (machine cfg) = (Ok tt, st1) →
  Inv f forest (evs ++ [PostOrder π])
    {| machine := st1; context := context cfg; finished := {[π]} ∪ finished cfg |}.
Proof.
  intros Hpost HInv Hc Hπ Hnotfin Hjoin Hrun.
  destruct (children_published f forest evs cfg π c d HInv Hc Hπ Hjoin) as (D & HD & Hcf).
  destruct HInv as [Hdata Hinj Hfin Hclosed Hev Hbefore].
  apply Hpost in Hrun as (D0 & r & HD0 & Hr & _ & Hcase).
  assert (D0 = D) as -> by congruence.
  destruct π as [|i ρ]; [done|].
  destruct (Hdata _ _ Hπ) as (D1 & HD1 & _ & Hpar & Hidx).
  assert (D1 = D) as -> by congruence.
  destruct (Hclosed i ρ) as [pd Hρ]; [by eexists|].
  rewrite Hρ in Hpar.
  destruct (Hdata _ _ Hρ) as (P & HP & HPslots & HPlink).
  assert (Hcs : ∃ cs, childrenAt (roots_ forest) ρ = Some cs ∧ cs !! i = Some c).
  { simpl in Hc. destruct (childrenAt (roots_ forest) ρ) as [cs|]; [eauto|done]. }
  destruct Hcs as (cs & Hcs & Hci).
  assert (Hslot : slotOf f c = if Factor_empty r then None else Some r).
  { unfold slotOf, resultOf. rewrite gathered_unfold, <- Hcf, Hr. done. }
  assert (Hold : childFactors P !! i = Some None).
  { rewrite HPslots. unfold expectedSlot. rewrite Hcs, Hci, Hπ. by rewrite decide_False. }
  (* the new data list, in one form for both cases *)
  assert (Hdl : dataList st1 =
                <[pd := set_childFactors (<[i := slotOf f c]> (childFactors P)) P]>
                  (dataList (machine cfg))).
  { destruct Hcase as [[He ->]|(He & pd' & P' & Hpd' & HP' & Hlt & ->)].
    - rewrite Hslot, He. rewrite (list_insert_id (childFactors P)) by done.
      replace (set_childFactors (childFactors P) P) with P by (by destruct P).
      by rewrite list_insert_id.
    - assert (pd' = pd) as -> by congruence. assert (P' = P) as -> by congruence.
      by rewrite Hslot, He, Hidx. }
  assert (Hexp : ∀ π' j, (π' ≠ ρ ∨ j ≠ i) →
            expectedSlot f forest
              {| machine := st1; context := context cfg; finished := {[i :: ρ]} ∪ finished cfg |}
              π' j = expectedSlot f forest cfg π' j).
  { intros π' j Hne. unfold expectedSlot. simpl.
    destruct (childrenAt (roots_ forest) π') as [cs'|]; [|done].
    destruct (cs' !! j); [|done]. destruct (context cfg !! (j :: π')); [|done].
    f_equal. destruct (decide (j :: π' ∈ finished cfg)) as [Hin|Hin].
    + rewrite decide_True; [done|]. apply elem_of_union. by right.
    + rewrite decide_False; [done|]. intros [Heq%elem_of_singleton|?]%elem_of_union; [|done].
      injection Heq as -> ->. by destruct Hne. }
  constructor; simpl.
  - intros π' d' Hπ'.
    destruct (Hdata _ _ Hπ') as (D' & HD' & Hslots' & Hlink').
    destruct (decide (π' = ρ)) as [->|Hne].
    + assert (d' = pd) as -> by congruence. assert (D' = P) as -> by congruence.
      exists (set_childFactors (<[i := slotOf f c]> (childFactors P)) P).
      split; [rewrite Hdl; apply list_lookup_insert_eq; by eapply lookup_lt_Some|].
      split; [|by destruct ρ].
      intros j. simpl. destruct (decide (j = i)) as [->|Hji].
      * rewrite list_lookup_insert_eq by (by eapply lookup_lt_Some).
        unfold expectedSlot. simpl. rewrite Hcs, Hci, Hπ.
        rewrite decide_True; [done|]. apply elem_of_union. left. by apply elem_of_singleton.
      * rewrite list_lookup_insert_ne by done. rewrite Hexp by (by right). apply HPslots.
    + exists D'. split.
      { rewrite Hdl, list_lookup_insert_ne; [done|]. intros <-. apply Hne. by eapply Hinj. }
      split; [|done]. intros j. rewrite Hexp by (by left). apply Hslots'.
  - exact Hinj.
  - intros π' [Heq%elem_of_singleton|Hin]%elem_of_union.
    + subst. by eexists.
    + by apply Hfin.
  - exact Hclosed.
  - intros π'. rewrite elem_of_union, elem_of_singleton, Hev, in_app_iff. simpl.
    split.
    + intros [->|H]; [right; by left|by left].
    + intros [H|[H|[]]]; [by right|left; congruence].
  - intros k π Hk. apply in_or_app. left. by apply Hbefore.
Qed.

Section Runs.
Context (f : Eliminate).
Context (visitorPre : Cluster.t → DataPtr → M EliminationData).
Context (visitorPost : Cluster.t → DataPtr → M unit).
Context (forest : ClusterTree).
Hypothesis pre_reserves : reservesSlot visitorPre.
Hypothesis post_forwards : forwardsRemaining f visitorPost.

Lemma Inv_step evs cfg ev cfg' :
  Inv f forest evs cfg → step visitorPre visitorPost forest cfg ev cfg' →
  Inv f forest (evs ++ [ev]) cfg'.
Proof.
  intros HInv Hstep. destruct Hstep.
  - eapply Inv_step_pre; eauto.
  - eapply Inv_step_post; eauto.
Qed.

Lemma Inv_run rd st RC evs cfg :
  dataList st !! rd = Some RC → childFactors RC = [] →
  run visitorPre visitorPost forest (initial rd st) evs cfg →
  Inv f forest evs cfg.
Proof.
  intros HRC Hcf Hrun. remember (initial rd st) as cfg0 eqn:E.
  induction Hrun as [cfg0|cfg0 evs cfg1 ev cfg2 Hrun IH Hstep]; subst.
  - by eapply Inv_initial.
  - eapply Inv_step; eauto.
Qed.

Lemma run_snoc_inv cfg0 evs ev cfg :
  run visitorPre visitorPost forest cfg0 (evs ++ [ev]) cfg →
  ∃ cfg1, run visitorPre visitorPost forest cfg0 evs cfg1 ∧
          step visitorPre visitorPost forest cfg1 ev cfg.
Proof.
  intros Hrun. remember (evs ++ [ev]) as l eqn:El.
  destruct Hrun as [cfg0|cfg0 evs' cfg1 ev' cfg2 Hrun Hstep].
  - by destruct evs.
  - apply app_inj_tail in El as [-> ->]. eauto.
Qed.

Lemma run_app_inv cfg0 evs1 evs2 cfg :
  run visitorPre visitorPost forest cfg0 (evs1 ++ evs2) cfg →
  ∃ mid, run visitorPre visitorPost forest cfg0 evs1 mid ∧
         run visitorPre visitorPost forest mid evs2 cfg.
Proof.
  revert cfg. induction evs2 as [|ev evs2 IH] using rev_ind; intros cfg Hrun.
  - rewrite app_nil_r in Hrun. exists cfg. split; [done|constructor].
  - rewrite app_assoc in Hrun. apply run_snoc_inv in Hrun as (cfg1 & Hrun1 & Hstep).
    destruct (IH _ Hrun1) as (mid & Hm1 & Hm2).
    exists mid. split; [done|]. econstructor; eauto.
Qed.

(** In every execution, when the post-order step of a position runs, the
    post-order steps of all its children are in the past and its context
    holds what each child published; the step makes the call of the
    reference semantics. *)
Lemma join_barrier rd st RC evs1 π evs2 cfg c :
  dataList st !! rd = Some RC → childFactors RC = [] →
  run visitorPre visitorPost forest (initial rd st) (evs1 ++ PostOrder π :: evs2) cfg →
  nodeAt (roots_ forest) π = Some c →
  ∃ mid after d D,
    run visitorPre visitorPost forest (initial rd st) evs1 mid ∧
    step visitorPre visitorPost forest mid (PostOrder π) after ∧
    context mid !! π = Some d ∧
    dataList (machine mid) !! d = Some D ∧
    childFactors D = map (slotOf f) (Cluster.children c) ∧
    (∀ i ch, Cluster.children c !! i = Some ch →
       In (PostOrder (i :: π)) evs1 ∧ childFactors D !! i = Some (slotOf f ch)) ∧
    In (gathered f c, Cluster.keys c) (calls (machine after)).
Proof.
  intros HRC Hcf Hrun Hc.
  change (PostOrder π :: evs2) with ([PostOrder π] ++ evs2) in Hrun.
  rewrite app_assoc in Hrun.
  apply run_app_inv in Hrun as (after & Hrun & _).
  apply run_snoc_inv in Hrun as (mid & Hrun1 & Hstep).
  pose proof (Inv_run rd st RC _ _ HRC Hcf Hrun1) as HInv.
  pose proof Hstep as Hstep0.
  inversion Hstep as [|? ? c' d st1 Hc' Hπ Hnotfin Hjoin Hpost]; subst.
  assert (c' = c) as -> by congruence.
  destruct (children_published f forest _ _ _ _ _ HInv Hc Hπ Hjoin) as (D & HD & Hslots).
  eexists mid, _, d, D. split; [done|]. split; [exact Hstep0|]. split; [done|].
  split; [done|]. split; [done|]. split.
  - intros i ch Hch. split.
    + apply (inv_events _ _ _ _ HInv). apply Hjoin. by eapply lookup_lt_Some.
    + by rewrite Hslots, lookup_map, Hch.
  - apply post_forwards in Hpost as (D' & r & HD' & _ & Hcall & _).
    assert (D' = D) as -> by congruence. simpl.
    by rewrite gathered_unfold, <- Hslots.
Qed.
End Runs.

Section Executions.
Context (f : Eliminate).
Context (visitorPre : Cluster.t → DataPtr → M EliminationData).
Context (visitorPost : Cluster.t → DataPtr → M unit).
Context (forest : ClusterTree).
Hypothesis pre_reserves : reservesSlot visitorPre.
Hypothesis post_forwards : forwardsRemaining f visitorPost.

(** The pre-order step of a cluster and those of its children come before
    its post-order step. *)
Lemma pre_before_post rd st RC evs1 π evs2 cfg c :
  dataList st !! rd = Some RC → childFactors RC = [] →
  run visitorPre visitorPost forest (initial rd st) (evs1 ++ PostOrder π :: evs2) cfg →
  nodeAt (roots_ forest) π = Some c →
  In (PreOrder π) evs1 ∧
  ∀ i ch, Cluster.children c !! i = Some ch → In (PreOrder (i :: π)) evs1.
Proof.
  intros HRC Hcf Hrun Hc.
  change (PostOrder π :: evs2) with ([PostOrder π] ++ evs2) in Hrun.
  rewrite app_assoc in Hrun.
  apply run_app_inv in Hrun as (after & Hrun & _).
  apply run_snoc_inv in Hrun as (mid & Hrun1 & Hstep).
  pose proof (Inv_run f _ _ forest pre_reserves post_forwards rd st RC _ _ HRC Hcf Hrun1)
    as HInv.
  inversion Hstep as [|? ? c' d st1 Hc' Hπ Hnotfin Hjoin Hpost]; subst.
  assert (c' = c) as -> by congruence.
  destruct π as [|k ρ]; [done|]. split.
  - apply (inv_pre _ _ _ _ HInv). by eexists.
  - intros i ch Hch. apply (inv_pre _ _ _ _ HInv), (inv_fin _ _ _ _ HInv), Hjoin.
    by eapply lookup_lt_Some.
Qed.

Lemma run_context_root rd st evs cfg :
  run visitorPre visitorPost forest (initial rd st) evs cfg →
  context cfg !! [] = Some rd.
Proof.
  intros Hrun. remember (initial rd st) as cfg0 eqn:E.
  induction Hrun as [cfg0|cfg0 evs cfg1 ev cfg2 Hrun IH Hstep]; subst.
  - apply lookup_singleton_eq.
  - destruct Hstep; simpl; [rewrite lookup_insert_ne by done|]; by apply IH.
Qed.

(** Once every root has finished, the dummy root's slots hold what the
    roots published, whatever the execution: the uneliminated factors that
    [eliminate] returns do not depend on the schedule. *)
Lemma roots_published rd st RC evs cfg :
  dataList st !! rd = Some RC → childFactors RC = [] →
  run visitorPre visitorPost forest (initial rd st) evs cfg →
  (∀ i, i < length (roots_ forest) → [i] ∈ finished cfg) →
  ∃ RC', dataList (machine cfg) !! rd = Some RC' ∧
         childFactors RC' = map (slotOf f) (roots_ forest).
Proof.
  intros HRC Hcf Hrun Hall.
  pose proof (Inv_run f _ _ forest pre_reserves post_forwards rd st RC _ _ HRC Hcf Hrun)
    as HInv.
  pose proof (run_context_root _ _ _ _ Hrun) as Hroot.
  destruct (inv_data _ _ _ _ HInv [] rd Hroot) as (RC' & HRC' & Hslots & _).
  exists RC'. split; [done|]. apply list_eq. intros j.
  rewrite Hslots, lookup_map. unfold expectedSlot. simpl.
  destruct (roots_ forest !! j) as [r|] eqn:Hr; [|done]. simpl.
  assert (Hin : [j] ∈ finished cfg) by (apply Hall; by eapply lookup_lt_Some).
  destruct (inv_fin _ _ _ _ HInv _ Hin) as [x ->]. by rewrite decide_True.
Qed.
End Executions.

(** ** The sequential walk is one of the executions *)

Section Sequential.
Context (visitorPre : Cluster.t → DataPtr → M EliminationData).
Context (visitorPost : Cluster.t → DataPtr → M unit).
Context (forest : ClusterTree).

Lemma run_app cfg0 evs1 mid evs2 cfg :
  run visitorPre visitorPost forest cfg0 evs1 mid →
  run visitorPre visitorPost forest mid evs2 cfg →
  run visitorPre visitorPost forest cfg0 (evs1 ++ evs2) cfg.
Proof.
  intros H1 H2. induction H2 as [mid|mid evs2 cfg1 ev cfg2 H2 IH Hstep].
  - by rewrite app_nil_r.
  - rewrite app_assoc. econstructor; eauto.
Qed.

Lemma sibling_suffix (π π' : list nat) j k :
  (j :: π) `suffix_of` π' → (k :: π) `suffix_of` π' → j = k.
Proof.
  intros [a Ha] [b Hb]. rewrite Ha in Hb.
  apply app_inj_2 in Hb as [_ Hb]; [congruence|done].
Qed.

Lemma not_suffix_cons (π : list nat) j : ¬ (j :: π) `suffix_of` π.
Proof. intros H%suffix_length. simpl in H. lia. Qed.

Lemma children_are_executions rest :
  Forall (visitIsExecution visitorPre visitorPost forest) rest →
  ∀ k all cfg d π s3,
    childrenAt (roots_ forest) π = Some all →
    drop k all = rest →
    context cfg !! π = Some d →
    (∀ j, j < k → is_Some (context cfg !! (j :: π)) ∧ (j :: π) ∈ finished cfg) →
    (∀ j π', k ≤ j → (j :: π) `suffix_of` π' →
             context cfg !! π' = None ∧ π' ∉ finished cfg) →
    forEach (λ c, visitNode visitorPre visitorPost c d) rest (machine cfg) = (Ok tt, s3) →
    ∃ evs cfg3,
      run visitorPre visitorPost forest cfg evs cfg3 ∧
      machine cfg3 = s3 ∧
      (∀ π', (∀ j, k ≤ j → ¬ (j :: π) `suffix_of` π') →
             context cfg3 !! π' = context cfg !! π' ∧
             (π' ∈ finished cfg3 ↔ π' ∈ finished cfg)) ∧
      (∀ j, j < length all →
            is_Some (context cfg3 !! (j :: π)) ∧ (j :: π) ∈ finished cfg3).
Proof.
  induction 1 as [|c rest Hc _ IH]; intros k all cfg d π s3 Hall Hdrop Hπ Helder Hfresh Hrun.
  - simpl in Hrun. unfold mret, M_ret in Hrun. injection Hrun as <-.
    exists [], cfg. split; [constructor|]. split; [done|]. split; [done|].
    intros j Hj. apply Helder.
    apply (f_equal length) in Hdrop. rewrite length_drop in Hdrop. simpl in Hdrop. lia.
  - simpl in Hrun. apply bind_Ok_inv in Hrun as ([] & s1 & Hvisit & Hrest).
    assert (Hk : all !! k = Some c).
    { rewrite <- (Nat.add_0_r k), <- lookup_drop, Hdrop. done. }
    destruct (Hc k π cfg d s1) as (evs1 & cfg1 & Hrun1 & Hm1 & Hout1 & Hctx1 & Hfin1).
    { simpl. by rewrite Hall. }
    { done. }
    { intros j Hj. by apply Helder. }
    { intros π' Hsuf. by apply (Hfresh k). }
    { done. }
    subst s1.
    destruct (IH (S k) all cfg1 d π s3) as (evs2 & cfg3 & Hrun2 & Hm3 & Hout3 & Hall3).
    { done. }
    { replace (S k) with (k + 1) by lia. rewrite <- drop_drop, Hdrop. done. }
    { destruct (Hout1 π (not_suffix_cons π k)) as [-> _]. done. }
    { intros j Hj. destruct (decide (j = k)) as [->|Hne]; [done|].
      assert (Hns : ¬ (k :: π) `suffix_of` (j :: π)).
      { intros Hs. apply Hne. symmetry. eapply sibling_suffix; [exact Hs|done]. }
      destruct (Hout1 _ Hns) as [-> ->]. apply Helder. lia. }
    { intros j π' Hj Hsuf.
      assert (Hns : ¬ (k :: π) `suffix_of` π').
      { intros Hs. assert (k = j) by (eapply sibling_suffix; eauto). lia. }
      destruct (Hout1 _ Hns) as [-> ->]. apply (Hfresh j); [lia|done]. }
    { done. }
    exists (evs1 ++ evs2), cfg3. split; [by eapply run_app|]. split; [done|].
    split; [|done].
    intros π' Hns.
    destruct (Hout3 π') as [-> ->]; [intros j Hj; apply Hns; lia|].
    apply Hout1. apply Hns. lia.
Qed.

Lemma visit_is_execution node : visitIsExecution visitorPre visitorPost forest node.
Proof.
  induction node as [ks fs cs z IH] using Cluster_tree_ind.
  intros i ρ cfg pd st' Hnode Hρ Helder Hfresh Hrun.
  set (node := Cluster.mk ks fs cs z) in *.
  rewrite visitNode_unfold in Hrun.
  apply bind_Ok_inv in Hrun as (D & s1 & Hpre & Hrun).
  apply bind_Ok_inv in Hrun as (d & s2 & Hpush & Hrun).
  apply bind_Ok_inv in Hrun as ([] & s3 & Hchildren & Hpost).
  set (cfg1 := {| machine := s2; context := <[i :: ρ := d]> (context cfg);
                  finished := finished cfg |}).
  assert (Hstep1 : step visitorPre visitorPost forest cfg (PreOrder (i :: ρ)) cfg1).
  { eapply step_pre; eauto. apply Hfresh. done. }
  destruct (children_are_executions cs IH 0 cs cfg1 d (i :: ρ) s3)
    as (evs & cfg3 & Hrun3 & Hm3 & Hout3 & Hall3).
  { by apply nodeAt_children in Hnode. }
  { done. }
  { simpl. apply lookup_insert_eq. }
  { intros j Hj. lia. }
  { intros j π' _ Hsuf. simpl.
    assert (Hsuf' : (i :: ρ) `suffix_of` π') by (by eapply suffix_cons_l).
    rewrite lookup_insert_ne.
    - by apply Hfresh.
    - intros <-. by apply not_suffix_cons in Hsuf. }
  { done. }
  assert (Hself : ∀ j, 0 ≤ j → ¬ (j :: i :: ρ) `suffix_of` (i :: ρ)).
  { intros j _. apply not_suffix_cons. }
  destruct (Hout3 _ Hself) as [Hctx3 Hfin3]. simpl in Hctx3, Hfin3.
  rewrite lookup_insert_eq in Hctx3.
  set (cfg' := {| machine := st'; context := context cfg3;
                  finished := {[i :: ρ]} ∪ finished cfg3 |}).
  assert (Hstep2 : step visitorPre visitorPost forest cfg3 (PostOrder (i :: ρ)) cfg').
  { eapply (step_post _ _ _ cfg3 (i :: ρ) node d); eauto.
    - rewrite Hfin3. apply Hfresh. done.
    - intros j Hj. by apply Hall3.
    - by rewrite Hm3. }
  exists ([PreOrder (i :: ρ)] ++ evs ++ [PostOrder (i :: ρ)]), cfg'.
  split.
  { eapply run_app; [eapply (run_snoc _ _ _ _ [] cfg); [constructor|exact Hstep1]|].
    rewrite <- (app_nil_l (evs ++ _)), app_nil_l. econstructor; eauto. }
  split; [done|]. split; [|split].
  - intros π' Hns. simpl.
    assert (Hns3 : ∀ j, 0 ≤ j → ¬ (j :: i :: ρ) `suffix_of` π').
    { intros j _ Hs. apply Hns. by eapply suffix_cons_l. }
    destruct (Hout3 _ Hns3) as [-> Hf]. simpl in *.
    assert (Hne : π' ≠ i :: ρ) by (intros ->; by apply Hns).
    rewrite lookup_insert_ne by done. split; [done|].
    rewrite elem_of_union, elem_of_singleton, Hf. split; [intros [?|?]; done|by right].
  - simpl. rewrite Hctx3. by eexists.
  - simpl. apply elem_of_union. left. by apply elem_of_singleton.
Qed.

(** The walk of [DepthFirstForestParallel], when it returns, is an execution
    of the concurrent traversal that ends in the same machine state with
    every root finished. *)
Theorem sequential_walk_is_execution rd st st' :
  DepthFirstForestParallel visitorPre visitorPost forest rd st = (Ok tt, st') →
  ∃ evs cfg,
    run visitorPre visitorPost forest (initial rd st) evs cfg ∧
    machine cfg = st' ∧
    ∀ i, i < length (roots_ forest) → [i] ∈ finished cfg.
Proof.
  intros Hrun. unfold DepthFirstForestParallel in Hrun.
  assert (Hforall : Forall (visitIsExecution visitorPre visitorPost forest) (roots_ forest)).
  { apply Forall_forall. intros c _. apply visit_is_execution. }
  destruct (children_are_executions (roots_ forest) Hforall
              0 (roots_ forest) (initial rd st) rd [] st')
    as (evs & cfg & Hrun' & Hm & _ & Hall).
  - reflexivity.
  - reflexivity.
  - apply lookup_singleton_eq.
  - intros j Hj. lia.
  - intros j π' _ Hsuf. simpl. split; [|apply not_elem_of_empty].
    apply lookup_singleton_ne. intros <-. apply suffix_length in Hsuf. simpl in Hsuf. lia.
  - exact Hrun.
  - exists evs, cfg. split; [done|]. split; [done|]. intros i Hi. by apply Hall.
Qed.
End Sequential.

(** C8.  In every execution of the concurrent traversal of [eliminate],
    whatever the interleaving of sibling subtrees, when the post-order step
    of a cluster runs, the post-order step of each of its children has
    already run, and the slot of each child in the cluster's context holds
    what that child published (its non-empty remaining factor, or null). *)
Theorem parent_after_children f forest rd st RC evs1 π evs2 cfg c :
  dataList st !! rd = Some RC → childFactors RC = [] →
  run (eliminationPreOrderVisitor EliminationData_ctor) (EliminationPostOrderVisitor f)
      forest (initial rd st) (evs1 ++ PostOrder π :: evs2) cfg →
  nodeAt (roots_ forest) π = Some c →
  ∃ mid d D,
    run (eliminationPreOrderVisitor EliminationData_ctor) (EliminationPostOrderVisitor f)
        forest (initial rd st) evs1 mid ∧
    context mid !! π = Some d ∧
    dataList (machine mid) !! d = Some D ∧
    ∀ i ch, Cluster.children c !! i = Some ch →
      In (PostOrder (i :: π)) evs1 ∧
      childFactors D !! i = Some (slotOf f ch).
Proof.
  intros HRC Hcf Hrun Hc.
  destruct (join_barrier f _ _ forest reservesSlot_allocating (forwardsRemaining_build f)
              rd st RC evs1 π evs2 cfg c HRC Hcf Hrun Hc)
    as (mid & after & d & D & Hrun1 & _ & Hπ & HD & _ & Hch & _).
  exists mid, d, D. done.
Qed.

Lemma Example_schedule_runs :
  ∃ cfg, run (eliminationPreOrderVisitor EliminationData_ctor)
             (EliminationPostOrderVisitor Example.symbolic)
             Example.forest (initial 0 Example_traversalStart) Example_schedule cfg.
Proof.
  eexists. unfold Example_schedule.
  change [PreOrder [0]; PreOrder [0; 0]; PreOrder [1; 0];
          PostOrder [1; 0]; PostOrder [0; 0]; PostOrder [0]]
    with ((((((([] ++ [PreOrder [0]]) ++ [PreOrder [0; 0]]) ++ [PreOrder [1; 0]]) ++
            [PostOrder [1; 0]]) ++ [PostOrder [0; 0]]) ++ [PostOrder [0]])).
  eapply run_snoc; [eapply run_snoc; [eapply run_snoc; [eapply run_snoc;
    [eapply run_snoc; [eapply run_snoc; [apply run_nil|]|]|]|]|]|].
  - eapply step_pre; [reflexivity|reflexivity|reflexivity|intros j Hj; lia
                      |vm_compute; reflexivity|vm_compute; reflexivity].
  - eapply step_pre; [reflexivity|vm_compute; reflexivity|vm_compute; reflexivity
                      |intros j Hj; lia
                      |vm_compute; reflexivity|vm_compute; reflexivity].
  - eapply step_pre; [reflexivity|vm_compute; reflexivity|vm_compute; reflexivity
                      | |vm_compute; reflexivity|vm_compute; reflexivity].
    intros j Hj. assert (j = 0) as -> by lia. vm_compute. by eexists.
  - eapply step_post; [reflexivity|vm_compute; reflexivity|decide_by_computation
                       |intros i Hi; simpl in Hi; lia|vm_compute; reflexivity].
  - eapply step_post; [reflexivity|vm_compute; reflexivity|decide_by_computation
                       |intros i Hi; simpl in Hi; lia|vm_compute; reflexivity].
  - eapply step_post; [reflexivity|vm_compute; reflexivity|decide_by_computation
                       | |vm_compute; reflexivity].
    intros i Hi. simpl in Hi.
    destruct i as [|[|i]]; [decide_by_computation|decide_by_computation|lia].
Defined.

Lemma parent_after_children_witness :
  ∃ mid d D,
    run (eliminationPreOrderVisitor EliminationData_ctor)
        (EliminationPostOrderVisitor Example.symbolic)
        Example.forest (initial 0 Example_traversalStart)
        [PreOrder [0]; PreOrder [0; 0]; PreOrder [1; 0];
         PostOrder [1; 0]; PostOrder [0; 0]] mid ∧
    context mid !! [0] = Some d ∧
    dataList (machine mid) !! d = Some D ∧
    ∀ i ch, Cluster.children Example.clusterR !! i = Some ch →
      In (PostOrder [i; 0])
         [PreOrder [0]; PreOrder [0; 0]; PreOrder [1; 0];
          PostOrder [1; 0]; PostOrder [0; 0]] ∧
      childFactors D !! i = Some (slotOf Example.symbolic ch).
Proof.
  destruct Example_schedule_runs as [cfg Hrun].
  exact (parent_after_children Example.symbolic Example.forest 0 Example_traversalStart _
           [PreOrder [0]; PreOrder [0; 0]; PreOrder [1; 0];
            PostOrder [1; 0]; PostOrder [0; 0]] [0] [] cfg Example.clusterR
           eq_refl eq_refl Hrun eq_refl).
Defined.

(** ** The allocating constructor and the fresh-build visitor *)

(** The cliques wrapped among the factors of a graph. *)
Lemma orphansOf_wrapper fs q :
  q ∈ orphansOf fs ↔ ∃ ks, In (Some (BayesTreeOrphanWrapper ks q)) fs.
Proof.
  unfold orphansOf. rewrite list_elem_of_omap. split.
  - intros (x & Hx & Hq). destruct x as [[ks v|ks a]|]; simpl in Hq; try done.
    injection Hq as ->. exists ks. by apply list_elem_of_In.
  - intros (ks & Hin). exists (Some (BayesTreeOrphanWrapper ks q)).
    split; [by apply list_elem_of_In|done].
Qed.


(** C6.  Constructed under the parent context [pd] (value [P], clique
    [pp]), the allocating context takes as its index the length of the
    parent's slot list and appends one null slot to it; nothing else of the
    parent context changes.  It allocates a fresh clique, without
    conditional or children, and appends it to the children of the parent's
    clique, whatever the parent is; the fresh clique's parent pointer is the
    parent's clique when the parent is not the dummy root (the context
    without parent) and stays null when it is.  No other clique and no other
    context is written, and no elimination has been recorded when it is
    done.  The visit of the node goes on from there: the children's visits,
    then the node's post-order visitor.  In every execution of the
    concurrent traversal, too, the pre-order step of a cluster and the
    pre-order steps of its children, which run this constructor, come
    before the cluster's post-order step. *)
Theorem allocating_context_links (f : Eliminate) node pd P pp pn st :
  dataList st !! pd = Some P →
  bayesTreeNode P = Some pp →
  heap st !! pp = Some pn →
  ∃ D st1 new P' pn' nn,
    EliminationData_ctor (Some pd) (length (Cluster.children node)) st = (Ok D, st1) ∧
    parentData D = Some pd ∧
    myIndexInParent D = length (childFactors P) ∧
    childFactors D = [] ∧
    bayesTreeNode D = Some new ∧
    (dataList st1 !! pd = Some P' ∧
     childFactors P' = childFactors P ++ [None] ∧
     childFactors P' !! myIndexInParent D = Some None ∧
     parentData P' = parentData P ∧
     myIndexInParent P' = myIndexInParent P ∧
     bayesTreeNode P' = bayesTreeNode P ∧
     length (dataList st1) = length (dataList st) ∧
     ∀ x, x ≠ pd → dataList st1 !! x = dataList st !! x) ∧
    (heap st !! new = None ∧
     heap st1 !! new = Some nn ∧
     Node.conditional_ nn = None ∧
     Node.children nn = [] ∧
     (parentData P ≠ None → Node.parent_ nn = Some pp) ∧
     (parentData P = None → Node.parent_ nn = None)) ∧
    (heap st1 !! pp = Some pn' ∧
     Node.children pn' = Node.children pn ++ [new] ∧
     Node.conditional_ pn' = Node.conditional_ pn ∧
     Node.parent_ pn' = Node.parent_ pn ∧
     Node.problemSize_ pn' = Node.problemSize_ pn ∧
     ∀ q, q ≠ pp → q ≠ new → heap st1 !! q = heap st !! q) ∧
    calls st1 = calls st ∧
    visitBuild f node pd st =
      (updateNode new (Node.set_problemSize (Cluster.problemSize node));;
       d ← pushData D;
       forEach (λ child, visitBuild f child d) (Cluster.children node);;
       EliminationPostOrderVisitor f node d) st1 ∧
    (∀ forest rd st0 RC evs1 π evs2 cfg c,
       dataList st0 !! rd = Some RC → childFactors RC = [] →
       run (eliminationPreOrderVisitor EliminationData_ctor) (EliminationPostOrderVisitor f)
           forest (initial rd st0) (evs1 ++ PostOrder π :: evs2) cfg →
       nodeAt (roots_ forest) π = Some c →
       In (PreOrder π) evs1 ∧
       ∀ i ch, Cluster.children c !! i = Some ch → In (PreOrder (i :: π)) evs1).
Proof.
  intros HP Hpp Hpn.
  assert (Hlt : pp < length (heap st)) by (eapply lookup_lt_Some; eauto).
  assert (Hpdlt : pd < length (dataList st)) by (eapply lookup_lt_Some; eauto).
  pose proof (EliminationData_ctor_run pd (length (Cluster.children node)) P pp pn st
                HP Hpp Hpn) as Hrun.
  cbv zeta in Hrun.
  eexists _, _, (length (heap st)), _, _, _. split; [exact Hrun|]. simpl.
  split; [done|]. split; [done|]. split; [done|]. split; [done|].
  split.
  { split; [by apply list_lookup_insert_eq|]. simpl.
    split; [done|]. split; [apply lookup_snoc|].
    split; [done|]. split; [done|]. split; [done|].
    split; [apply length_insert|].
    intros x Hx. by rewrite list_lookup_insert_ne. }
  split.
  { split; [by apply lookup_ge_None_2|].
    split; [rewrite list_lookup_insert_ne by lia; apply lookup_snoc|]. simpl.
    split; [done|]. split; [done|].
    split; [by destruct (parentData P)|]. by intros ->. }
  split.
  { split; [apply list_lookup_insert_eq; rewrite length_app; simpl; lia|]. simpl.
    split; [done|]. split; [done|]. split; [done|]. split; [done|].
    intros q Hq Hnew. rewrite list_lookup_insert_ne by done.
    destruct (decide (q < length (heap st))) as [Hql|Hql].
    - by rewrite lookup_app_l.
    - rewrite !lookup_ge_None_2; [done|lia|rewrite length_app; simpl; lia]. }
  split; [done|]. split.
  { unfold visitBuild. rewrite visitNode_unfold. unfold eliminationPreOrderVisitor.
    rewrite !bind_assoc_run. rewrite bind_run, Hrun.
    rewrite bind_assoc_run.
    erewrite bind_Ok; [|apply nodeOf_run; reflexivity].
    rewrite bind_assoc_run. reflexivity. }
  intros forest rd st0 RC evs1 π evs2 cfg c HRC Hcf Hexec Hc.
  eapply (pre_before_post f); eauto using reservesSlot_allocating, forwardsRemaining_build.
Qed.

Lemma allocating_context_links_witness :
  (∃ D st1 P' pn' nn P0 pn0,
     EliminationData_ctor (Some 1) (length (Cluster.children Example.clusterA)) Example_midBuild
       = (Ok D, st1) ∧
     parentData D = Some 1 ∧ myIndexInParent D = 1 ∧ childFactors D = [] ∧
     bayesTreeNode D = Some 3 ∧
     dataList Example_midBuild !! 1 = Some P0 ∧ parentData P0 = Some 0 ∧
     childFactors P0 = [Some (BayesTreeOrphanWrapper [3%N] 0)] ∧
     dataList st1 !! 1 = Some P' ∧
     childFactors P' = [Some (BayesTreeOrphanWrapper [3%N] 0); None] ∧
     heap Example_midBuild !! 3 = None ∧
     heap st1 !! 3 = Some nn ∧
     Node.parent_ nn = Some 2 ∧ Node.children nn = [] ∧ Node.conditional_ nn = None ∧
     heap Example_midBuild !! 2 = Some pn0 ∧ Node.children pn0 = [] ∧
     heap st1 !! 2 = Some pn' ∧
     Node.children pn' = [3] ∧
     calls st1 = calls Example_midBuild) ∧
  (∃ D st1 P' pn' nn P0 pn0,
     EliminationData_ctor (Some 0) (length (Cluster.children Example.clusterR)) Example_midBuild
       = (Ok D, st1) ∧
     parentData D = Some 0 ∧ myIndexInParent D = 1 ∧ childFactors D = [] ∧
     bayesTreeNode D = Some 3 ∧
     dataList Example_midBuild !! 0 = Some P0 ∧ parentData P0 = None ∧
     childFactors P0 = [None] ∧
     dataList st1 !! 0 = Some P' ∧
     childFactors P' = [None; None] ∧
     heap Example_midBuild !! 3 = None ∧
     heap st1 !! 3 = Some nn ∧
     Node.parent_ nn = None ∧ Node.children nn = [] ∧ Node.conditional_ nn = None ∧
     heap Example_midBuild !! 1 = Some pn0 ∧ Node.children pn0 = [] ∧
     heap st1 !! 1 = Some pn' ∧
     Node.children pn' = [3] ∧
     calls st1 = calls Example_midBuild).
Proof.
  split.
  - destruct (allocating_context_links Example.symbolic Example.clusterA 1 _ 2 _
                Example_midBuild eq_refl eq_refl eq_refl)
      as (D & st1 & new & P' & pn' & nn & Hrun & HD1 & HD2 & HD3 & HD4 &
          (HP1 & HP2 & _) & (Hn0 & Hn1 & Hn2 & Hn3 & Hn4 & _) & (Hp1 & Hp2 & _) & Hc & _).
    assert (Hnew : new = 3).
    { pose proof Hrun as E. vm_compute in E. injection E as E1 E2.
      rewrite <- E1 in HD4. by injection HD4. }
    subst new.
    exists D, st1, P', pn', nn. eexists _, _.
    split; [exact Hrun|]. split; [exact HD1|]. split; [exact HD2|]. split; [exact HD3|].
    split; [exact HD4|]. split; [reflexivity|]. split; [reflexivity|]. split; [reflexivity|].
    split; [exact HP1|]. split; [exact HP2|]. split; [exact Hn0|]. split; [exact Hn1|].
    split; [apply Hn4; discriminate|]. split; [exact Hn3|]. split; [exact Hn2|].
    split; [reflexivity|]. split; [reflexivity|]. split; [exact Hp1|].
    split; [exact Hp2|]. exact Hc.
  - destruct (allocating_context_links Example.symbolic Example.clusterR 0 _ 1 _
                Example_midBuild eq_refl eq_refl eq_refl)
      as (D & st1 & new & P' & pn' & nn & Hrun & HD1 & HD2 & HD3 & HD4 &
          (HP1 & HP2 & _) & (Hn0 & Hn1 & Hn2 & Hn3 & _ & Hn5) & (Hp1 & Hp2 & _) & Hc & _).
    assert (Hnew : new = 3).
    { pose proof Hrun as E. vm_compute in E. injection E as E1 E2.
      rewrite <- E1 in HD4. by injection HD4. }
    subst new.
    exists D, st1, P', pn', nn. eexists _, _.
    split; [exact Hrun|]. split; [exact HD1|]. split; [exact HD2|]. split; [exact HD3|].
    split; [exact HD4|]. split; [reflexivity|]. split; [reflexivity|]. split; [reflexivity|].
    split; [exact HP1|]. split; [exact HP2|]. split; [exact Hn0|]. split; [exact Hn1|].
    split; [apply Hn5; reflexivity|]. split; [exact Hn3|]. split; [exact Hn2|].
    split; [reflexivity|]. split; [reflexivity|]. split; [exact Hp1|].
    split; [exact Hp2|]. exact Hc.
Defined.

(** The fresh-build visitor on a context [d] (value [D], clique [p]) whose
    parent [pd] has reserved a slot for it. *)
Lemma EliminationPostOrderVisitor_orphans f node d D p n pd P st :
  returnsRemaining f → returnsConditional f →
  dataList st !! d = Some D → bayesTreeNode D = Some p → heap st !! p = Some n →
  parentData D = Some pd → d ≠ pd → dataList st !! pd = Some P →
  childFactors P !! myIndexInParent D = Some None →
  Forall (λ q, q < length (heap st)) (orphansOf (Cluster.factors node)) →
  ∃ st',
    EliminationPostOrderVisitor f node d st = (Ok tt, st') ∧
    calls st' = calls st ++ [(Cluster.factors node ++ childFactors D, Cluster.keys node)] ∧
    (∃ n', heap st' !! p = Some n' ∧
           Node.children n' = Node.children n ++ orphansOf (Cluster.factors node)) ∧
    (∀ q, q ∈ orphansOf (Cluster.factors node) →
          ∃ nq, heap st' !! q = Some nq ∧ Node.parent_ nq = Some p) ∧
    (∀ q nq, q ∉ orphansOf (Cluster.factors node) → heap st !! q = Some nq →
          ∃ nq', heap st' !! q = Some nq' ∧ Node.parent_ nq' = Node.parent_ nq ∧
                 (q ≠ p → Node.children nq' = Node.children nq)).
Proof.
  intros Hrem Hcond HD Hp Hn Hpd Hne HP Hslot Horph.
  destruct (EliminationPostOrderVisitor_run f node d D p n pd P st
              Hrem Hcond HD Hp Hn Hpd Hne HP Hslot Horph)
    as (h' & ni' & Hrun & Hlen & Hatt).
  assert (Hplt : p < length (heap st)) by (eapply lookup_lt_Some; eauto).
  eexists. split; [exact Hrun|]. simpl. split; [done|]. split; [|split].
  - destruct (Hatt p _ (list_lookup_insert_eq _ _ _ Hplt)) as (n' & Hn' & _ & _ & Hk & _).
    exists n'. split; [done|]. rewrite Hk, decide_True by done. done.
  - intros q Hq.
    assert (Hqlt : q < length (heap st)).
    { rewrite Forall_forall in Horph. by apply Horph. }
    assert (is_Some (<[p := Node.set_conditional
                               (f (Cluster.factors node ++ childFactors D)
                                  (Cluster.keys node)).1 n]> (heap st) !! q)) as [nq Hnq].
    { apply lookup_lt_is_Some_2. by rewrite length_insert. }
    destruct (Hatt q nq Hnq) as (nq' & Hq' & _ & _ & _ & Hpar).
    exists nq'. split; [done|]. by rewrite Hpar, decide_True.
  - intros q nq Hq Hnq.
    destruct (decide (q = p)) as [->|Hqp].
    + destruct (Hatt p _ (list_lookup_insert_eq _ _ _ Hplt)) as (n' & Hn' & _ & _ & _ & Hpar).
      exists n'. split; [done|]. rewrite Hpar, decide_False by done.
      assert (nq = n) by congruence. subst. done.
    + destruct (Hatt q nq) as (nq' & Hq' & _ & _ & Hk & Hpar).
      { by rewrite list_lookup_insert_ne. }
      exists nq'. split; [done|]. rewrite Hpar, decide_False by done.
      split; [done|]. intros _. rewrite Hk, decide_False by done. by rewrite app_nil_r.
Qed.

(** C7.  The fresh-build post-order visitor recognises the orphan wrappers
    among the cluster's own factors: the clique wrapped by each of them is
    appended to the children of the new clique and gets the new clique as
    its parent.  Nothing else is appended: the appended children are the
    cliques the own wrappers wrap, in the order of the own factors.  The
    slots filled by the children are not scanned: a clique wrapped there
    and not among the own factors is not appended and keeps its parent. *)
Theorem fresh_build_attaches_own_orphans f node d D p n pd P st :
  returnsRemaining f → returnsConditional f →
  dataList st !! d = Some D → bayesTreeNode D = Some p → heap st !! p = Some n →
  parentData D = Some pd → d ≠ pd → dataList st !! pd = Some P →
  childFactors P !! myIndexInParent D = Some None →
  (∀ ks q, In (Some (BayesTreeOrphanWrapper ks q)) (Cluster.factors node) →
           q < length (heap st)) →
  ∃ st' n' attached,
    EliminationPostOrderVisitor f node d st = (Ok tt, st') ∧
    heap st' !! p = Some n' ∧
    Node.children n' = Node.children n ++ attached ∧
    attached = orphansOf (Cluster.factors node) ∧
    (∀ ks q, In (Some (BayesTreeOrphanWrapper ks q)) (Cluster.factors node) →
       In q attached ∧
       ∃ nq, heap st' !! q = Some nq ∧ Node.parent_ nq = Some p) ∧
    (∀ q, In q attached →
       ∃ ks, In (Some (BayesTreeOrphanWrapper ks q)) (Cluster.factors node)) ∧
    (∀ ks q nq, In (Some (BayesTreeOrphanWrapper ks q)) (childFactors D) →
       (∀ ks', ¬ In (Some (BayesTreeOrphanWrapper ks' q)) (Cluster.factors node)) →
       heap st !! q = Some nq →
       ¬ In q attached ∧
       ∃ nq', heap st' !! q = Some nq' ∧ Node.parent_ nq' = Node.parent_ nq ∧
              (q ≠ p → Node.children nq' = Node.children nq)).
Proof.
  intros Hrem Hcond HD Hp Hn Hpd Hne HP Hslot Hlive.
  assert (Horph : Forall (λ q, q < length (heap st)) (orphansOf (Cluster.factors node))).
  { apply Forall_forall. intros q (ks & Hq)%orphansOf_wrapper. by apply (Hlive ks). }
  destruct (EliminationPostOrderVisitor_orphans f node d D p n pd P st
              Hrem Hcond HD Hp Hn Hpd Hne HP Hslot Horph)
    as (st' & Hrun & _ & (n' & Hn' & Hk) & Hown & Hother).
  exists st', n', (orphansOf (Cluster.factors node)).
  split; [done|]. split; [done|]. split; [done|]. split; [done|].
  split; [|split].
  - intros ks q Hin.
    assert (Hq : q ∈ orphansOf (Cluster.factors node)) by (apply orphansOf_wrapper; eauto).
    split; [by apply list_elem_of_In|by apply Hown].
  - intros q Hq. by apply orphansOf_wrapper, list_elem_of_In.
  - intros ks q nq _ Hnot Hq.
    assert (Hnin : q ∉ orphansOf (Cluster.factors node)).
    { intros (ks' & Hin)%orphansOf_wrapper. by apply (Hnot ks'). }
    split; [by intros Hin%list_elem_of_In|by apply Hother].
Qed.

Lemma fresh_build_attaches_own_orphans_witness :
  In (Some (BayesTreeOrphanWrapper [1%N] 0)) (Cluster.factors Example.clusterA) ∧
  In (Some (BayesTreeOrphanWrapper [3%N] 1))
     [Some (BayesTreeOrphanWrapper [3%N] 1)] ∧
  (∀ ks', ¬ In (Some (BayesTreeOrphanWrapper ks' 1)) (Cluster.factors Example.clusterA)) ∧
  ∃ st' n' n0 n1,
    EliminationPostOrderVisitor Example.symbolic Example.clusterA 1 Example_twoOrphans
      = (Ok tt, st') ∧
    heap st' !! 3 = Some n' ∧ Node.children n' = [5; 0] ∧
    heap st' !! 0 = Some n0 ∧ Node.parent_ n0 = Some 3 ∧
    heap st' !! 1 = Some n1 ∧ Node.parent_ n1 = None ∧ Node.children n1 = [].
Proof.
  assert (Hno : ∀ ks', ¬ In (Some (BayesTreeOrphanWrapper ks' 1))
                          (Cluster.factors Example.clusterA)).
  { intros ks' [H|[H|[]]]; discriminate. }
  assert (Hown : In (Some (BayesTreeOrphanWrapper [1%N] 0))
                    (Cluster.factors Example.clusterA)) by (simpl; auto).
  split; [exact Hown|]. split; [simpl; auto|]. split; [exact Hno|].
  destruct (fresh_build_attaches_own_orphans Example.symbolic Example.clusterA 1 _ 3 _ 0 _
              Example_twoOrphans Example_returnsRemaining Example_returnsConditional
              eq_refl eq_refl eq_refl eq_refl ltac:(discriminate) eq_refl eq_refl)
    as (st' & n' & attached & Hrun & Hn' & Hk & Hatt & Hin & Honly & Hslot).
  { intros ks q [H|[H|[]]]; [discriminate|]. injection H as _ <-. simpl. lia. }
  destruct (Hin [1%N] 0 Hown) as (_ & n0 & Hn0 & Hp0).
  destruct (Hslot [3%N] 1 _ (or_introl eq_refl) Hno eq_refl)
    as (_ & n1 & Hn1 & Hp1 & Hk1).
  exists st', n', n0, n1.
  split; [exact Hrun|]. split; [exact Hn'|].
  split; [rewrite Hk, Hatt; reflexivity|].
  split; [exact Hn0|]. split; [exact Hp0|]. split; [exact Hn1|].
  split; [exact Hp1|]. apply Hk1. discriminate.
Defined.

(** C10.  In the fresh build, the graph handed to the elimination function
    contains every orphan wrapper among the cluster's own factors, and the
    clique it wraps is afterwards among the children of the new clique. *)
Theorem orphan_wrappers_are_eliminated_too f node d D p n pd P st :
  returnsRemaining f → returnsConditional f →
  dataList st !! d = Some D → bayesTreeNode D = Some p → heap st !! p = Some n →
  parentData D = Some pd → d ≠ pd → dataList st !! pd = Some P →
  childFactors P !! myIndexInParent D = Some None →
  Forall (λ q, q < length (heap st)) (orphansOf (Cluster.factors node)) →
  ∃ st' gatheredFactors n',
    EliminationPostOrderVisitor f node d st = (Ok tt, st') ∧
    calls st' = calls st ++ [(gatheredFactors, Cluster.keys node)] ∧
    heap st' !! p = Some n' ∧
    ∀ ks q, In (Some (BayesTreeOrphanWrapper ks q)) (Cluster.factors node) →
      In (Some (BayesTreeOrphanWrapper ks q)) gatheredFactors ∧
      In q (Node.children n').
Proof.
  intros Hrem Hcond HD Hp Hn Hpd Hne HP Hslot Horph.
  destruct (EliminationPostOrderVisitor_orphans f node d D p n pd P st
              Hrem Hcond HD Hp Hn Hpd Hne HP Hslot Horph)
    as (st' & Hrun & Hcalls & (n' & Hn' & Hk) & _).
  exists st', (Cluster.factors node ++ childFactors D), n'.
  split; [done|]. split; [done|]. split; [done|].
  intros ks q Hin. split; [apply in_or_app; by left|].
  rewrite Hk. apply in_or_app. right. apply list_elem_of_In.
  unfold orphansOf. apply list_elem_of_omap.
  exists (Some (BayesTreeOrphanWrapper ks q)). split; [by apply list_elem_of_In|done].
Qed.

Lemma orphan_wrappers_are_eliminated_too_witness :
  ∃ st' gatheredFactors n',
    EliminationPostOrderVisitor Example.symbolic Example.clusterA 1 Example_midBuild
      = (Ok tt, st') ∧
    calls st' = calls Example_midBuild ++ [(gatheredFactors, Cluster.keys Example.clusterA)] ∧
    heap st' !! 2 = Some n' ∧
    ∀ ks q, In (Some (BayesTreeOrphanWrapper ks q)) (Cluster.factors Example.clusterA) →
      In (Some (BayesTreeOrphanWrapper ks q)) gatheredFactors ∧
      In q (Node.children n').
Proof.
  refine (orphan_wrappers_are_eliminated_too Example.symbolic Example.clusterA 1 _ 2 _ 0 _
            Example_midBuild Example_returnsRemaining Example_returnsConditional
            eq_refl eq_refl eq_refl eq_refl _ eq_refl eq_refl _).
  - discriminate.
  - repeat constructor.
Defined.

(** * The stores after an elimination, and further properties of the code *)

(** ** The tree that [eliminate] builds *)

Lemma placed_unfold par a c :
  placed par a c = layout (placed (Some a)) (S a) (Cluster.children c) ++ [mkPlaced c a par].
Proof. destruct c; reflexivity. Qed.

Lemma subtreeSize_unfold c : subtreeSize c = length (concat (map clustersOf (Cluster.children c))) + 1.
Proof. unfold subtreeSize. rewrite clustersOf_unfold, length_app. reflexivity. Qed.

Lemma nodesIndex_loop_exact p js st :
  forEach (λ j, nodesIndex_insert j p) js st =
  (Ok tt, set_nodesIndex (foldl (indexInsert p) (nodesIndex st) js) st).
Proof.
  revert st. induction js as [|j js IH]; intros st.
  - destruct st; reflexivity.
  - cbn [forEach foldl]. rewrite bind_run. unfold nodesIndex_insert at 1, modify.
    destruct st as [h dl ni cl]. simpl.
    assert (Hj : indexInsert p ni j = match ni !! j with Some _ => ni | None => <[j:=p]> ni end)
      by reflexivity.
    rewrite Hj. destruct (ni !! j); rewrite IH; reflexivity.
Qed.

Lemma EliminationPostOrderVisitor_exact f node d D p n pd P st :
  returnsRemaining f → returnsConditional f →
  dataList st !! d = Some D → bayesTreeNode D = Some p → heap st !! p = Some n →
  parentData D = Some pd → d ≠ pd → dataList st !! pd = Some P →
  childFactors P !! myIndexInParent D = Some None →
  Forall (λ q, q < length (heap st)) (orphansOf (Cluster.factors node)) →
  let g := Cluster.factors node ++ childFactors D in
  let res := f g (Cluster.keys node) in
  ∃ h',
    EliminationPostOrderVisitor f node d st =
    (Ok tt,
     {| heap := h';
        dataList := <[pd := set_childFactors
                        (<[myIndexInParent D := publish (snd res)]> (childFactors P)) P]>
                      (dataList st);
        nodesIndex := foldl (indexInsert p) (nodesIndex st)
                        (match fst res with Some c => frontals c | None => [] end);
        calls := calls st ++ [(g, Cluster.keys node)] |}) ∧
    orphansAttached p (orphansOf (Cluster.factors node))
      (<[p := Node.set_conditional (fst res) n]> (heap st)) h'.
Proof.
  intros Hrem Hcond HD Hp Hn Hpd Hne HP Hslot Horph g res.
  assert (Hplt : p < length (heap st)) by (eapply lookup_lt_Some; eauto).
  rewrite EliminationPostOrderVisitor_unfold.
  destruct (Hrem g (Cluster.keys node)) as [r Hr].
  destruct (Hcond g (Cluster.keys node)) as [c Hc].
  fold res in Hr, Hc.
  erewrite bind_Ok.
  2:{ erewrite helper_run by eauto. fold g res. rewrite Hr.
      apply forwardRemaining_run; eauto. }
  destruct st as [h dl ni cl]. unfold afterElimination. simp_state.
  mstep_by derefData_run ltac:(rewrite list_lookup_insert_ne by done; exact HD).
  unfold nodeOf at 1. rewrite Hp. mstep @ret_run.
  edestruct (attachOrphans_run p (Cluster.factors node)) as (h' & Hrun & Hatt);
    [| |erewrite bind_Ok; [|exact Hrun]]; simp_state.
  { by rewrite length_insert. }
  { by rewrite length_insert. }
  pose proof Hatt as Hatt0. destruct Hatt as [Hlen Hatt].
  destruct (Hatt p (Node.set_conditional (fst res) n)) as (n' & Hn' & Hc' & _).
  { apply list_lookup_insert_eq. done. }
  mstep_by derefNode_run ltac:(exact Hn').
  rewrite Hc'. simpl. fold g res. rewrite Hc.
  rewrite nodesIndex_loop_exact. simp_state.
  exists h'. fold g res. rewrite Hr. split; [reflexivity|].
  rewrite <- Hc. exact Hatt0.
Qed.

Lemma Node_eq (n n' : Node.t) :
  Node.conditional_ n' = Node.conditional_ n →
  Node.parent_ n' = Node.parent_ n →
  Node.children n' = Node.children n →
  Node.problemSize_ n' = Node.problemSize_ n →
  n' = n.
Proof. destruct n, n'; simpl; congruence. Qed.

Lemma forestSize_cons c cs : forestSize (c :: cs) = subtreeSize c + forestSize cs.
Proof. unfold forestSize, subtreeSize. cbn [map concat]. by rewrite length_app. Qed.

Lemma subtreeSize_children c : subtreeSize c = S (forestSize (Cluster.children c)).
Proof. rewrite subtreeSize_unfold. unfold forestSize. lia. Qed.

Lemma childAddrs_cons b c cs : childAddrs b (c :: cs) = b :: childAddrs (b + subtreeSize c) cs.
Proof. reflexivity. Qed.

Lemma layout_range_from cs :
  Forall (λ c, ∀ par a x, x ∈ placed par a c → a ≤ pl_clique x < a + subtreeSize c) cs →
  ∀ par b x, x ∈ layout (placed par) b cs → b ≤ pl_clique x < b + forestSize cs.
Proof.
  induction 1 as [|c cs Hc _ IH]; intros par b x Hin; [by apply elem_of_nil in Hin|].
  simpl in Hin. rewrite forestSize_cons.
  apply elem_of_app in Hin as [Hin|Hin].
  - apply Hc in Hin. lia.
  - apply IH in Hin. lia.
Qed.

Lemma placed_range par a c x :
  x ∈ placed par a c → a ≤ pl_clique x < a + subtreeSize c.
Proof.
  revert par a x. induction c as [ks fs cs z IH] using Cluster_tree_ind. intros par a x.
  rewrite placed_unfold, subtreeSize_children. cbn [Cluster.children].
  rewrite elem_of_app, list_elem_of_singleton. intros [Hin| ->]; [|simpl; lia].
  apply (layout_range_from cs IH) in Hin. lia.
Qed.

Lemma layout_range par b cs x :
  x ∈ layout (placed par) b cs → b ≤ pl_clique x < b + forestSize cs.
Proof.
  apply layout_range_from, Forall_forall. intros c _ par' a x'. apply placed_range.
Qed.

Lemma layout_singleton {A} (place : nat → Cluster.t → list A) b c :
  layout place b [c] = place b c.
Proof. simpl. apply app_nil_r. Qed.

Lemma forestSize_singleton c : forestSize [c] = subtreeSize c.
Proof. rewrite forestSize_cons. unfold forestSize. simpl. lia. Qed.

Section BuiltChildren.
Context (f : Eliminate) (h0 : nat).
Hypothesis Hrem : returnsRemaining f.
Hypothesis Hcond : returnsConditional f.

Lemma builtChildren_exact cs :
  Forall (builtSpec f h0) cs →
  ∀ d Dd p st st',
    dataList st !! d = Some Dd → bayesTreeNode Dd = Some p →
    h0 ≤ p < length (heap st) → Forall (orphansBelow h0) cs →
    forEach (λ c, visitBuild f c d) cs st = (Ok tt, st') →
    builtExactly f h0 (linkOf Dd p) cs p st st'.
Proof.
  induction 1 as [|c cs Hc _ IH]; intros d Dd p st st' HD Hp Hlt Horph Hrun.
  - simpl in Hrun. rewrite ret_run in Hrun. injection Hrun as <-.
    constructor.
    + unfold forestSize. simpl. lia.
    + intros x Hx. by apply elem_of_nil in Hx.
    + intros n Hn. simpl. rewrite app_nil_r. rewrite Hn. by destruct n.
    + done.
    + intros q n _ Hq. rewrite Hq. by destruct n.
    + done.
  - apply Forall_cons in Horph as [Hoc Hocs].
    simpl in Hrun. apply bind_Ok_inv in Hrun as ([] & st1 & Hrun1 & Hrun2).
    destruct (visitBuild_run f Hrem Hcond c d Dd p st HD Hp) as (st1' & Hrun1' & V1).
    { lia. }
    { eapply orphansBelow_mono; [|exact Hoc]. lia. }
    rewrite Hrun1 in Hrun1'. injection Hrun1' as <-.
    destruct V1 as [_ S1 _ _ _ _ _].
    pose proof (Hc d Dd p st st1 HD Hp Hlt Hoc Hrun1) as B1.
    destruct B1 as [L1 N1 P1 F1 O1 I1].
    rewrite forestSize_singleton in L1. rewrite layout_singleton in N1, O1, I1.
    pose proof (IH d _ p st1 st' S1 Hp) as B2.
    destruct B2 as [L2 N2 P2 F2 O2 I2]; [lia|done|done|].
    change (linkOf (set_childFactors _ Dd) p) with (linkOf Dd p) in *.
    rewrite L1 in *.
    constructor.
    + rewrite L2, forestSize_cons. lia.
    + intros x Hx. simpl in Hx. apply elem_of_app in Hx as [Hx|Hx].
      * pose proof (placed_range _ _ _ _ Hx) as Hr.
        rewrite F2 by lia. by apply N1.
      * by apply N2.
    + intros n Hn. rewrite (P2 _ (P1 n Hn)).
      rewrite (childAddrs_cons _ c cs).
      change (childAddrs (length (heap st)) [c]) with [length (heap st)].
      unfold Node.set_children. cbn -[childAddrs]. rewrite <- app_assoc. reflexivity.
    + intros q Hq Hne. rewrite F2 by (done || lia). by apply F1.
    + intros q n Hq Hn. rewrite (O2 q _ Hq (O1 q n Hq Hn)). simpl.
      unfold reparent. rewrite foldl_app. reflexivity.
    + rewrite I2, I1. simpl. unfold indexAll. rewrite foldl_app. reflexivity.
Qed.
End BuiltChildren.

Lemma reparent_snoc q l x par :
  reparent q (l ++ [x]) par = adopt q (reparent q l par) x.
Proof. unfold reparent. by rewrite foldl_app. Qed.

Lemma indexAll_snoc f l x m :
  indexAll f (l ++ [x]) m =
  foldl (indexInsert (pl_clique x)) (indexAll f l m) (frontalsOf f (pl_cluster x)).
Proof. unfold indexAll. by rewrite foldl_app. Qed.

(** The fresh-build visit of a cluster, exactly. *)
Lemma visitBuild_exact f h0 :
  returnsRemaining f → returnsConditional f → ∀ c, builtSpec f h0 c.
Proof.
  intros Hrem Hcond. induction c as [ks fs cs z IH] using Cluster_tree_ind.
  intros pd P pp st st' HP Hpp Hlt Horph Hrun.
  set (node := Cluster.mk ks fs cs z) in *.
  destruct (lookup_lt_is_Some_2 (heap st) pp) as [pn Hpn]; [lia|].
  assert (Hpdlt : pd < length (dataList st)) by (eapply lookup_lt_Some; eauto).
  unfold visitBuild in Hrun. rewrite visitNode_unfold in Hrun. fold (visitBuild f) in Hrun.
  erewrite bind_Ok in Hrun; [|eapply eliminationPreOrderVisitor_run; eauto].
  destruct st as [h dl ni cl]. simp_state.
  erewrite bind_Ok in Hrun; [|apply pushData_run]. simp_state.
  rewrite length_insert in Hrun.
  set (P' := set_childFactors (childFactors P ++ [None]) P) in *.
  set (D0 := {| parentData := Some pd; myIndexInParent := length (childFactors P);
                childFactors := []; bayesTreeNode := Some (length h) |}) in *.
  set (newNode := Node.mk None _ [] z) in *.
  set (h2 := <[pp := _]> (h ++ [newNode])) in *.
  set (dl2 := <[pd := P']> dl ++ [D0]) in *.
  assert (Hh2 : length h2 = S (length h)).
  { subst h2. rewrite length_insert, length_app. simpl. lia. }
  assert (Hdl2 : length dl2 = S (length dl)).
  { subst dl2. rewrite length_app, length_insert. simpl. lia. }
  apply bind_Ok_inv in Hrun as ([] & st3 & Hrun3 & Hrun4).
  assert (Hall : Forall (visitSpec f) cs).
  { apply Forall_forall. intros c _. by apply visitBuild_run. }
  assert (HD0 : dl2 !! length dl = Some D0).
  { subst dl2. rewrite <- (length_insert dl pd P'). apply lookup_snoc. }
  assert (Horphs : Forall (orphansBelow h0) cs) by apply (orphansBelow_children _ _ Horph).
  destruct (visitChildren_run f cs Hall (length dl) D0 (length h) (mkState h2 dl2 ni cl))
    as (st3' & Hrun3' & V3); simpl.
  { exact HD0. }
  { reflexivity. }
  { lia. }
  { eapply Forall_impl; [exact Horphs|]. intros c'. apply orphansBelow_mono. lia. }
  rewrite Hrun3 in Hrun3'. injection Hrun3' as <-.
  pose proof (builtChildren_exact f h0 Hrem Hcond cs IH (length dl) D0 (length h)
                (mkState h2 dl2 ni cl) st3 HD0 eq_refl) as B3.
  destruct B3 as [L3 N3 P3 F3 O3 I3]; simpl; [lia|exact Horphs|exact Hrun3|].
  destruct V3 as [_ S3 FD3 _ _ _ _].
  simpl in *. rewrite Hh2 in *. rewrite Hdl2 in *.
  change (linkOf D0 (length h)) with (Some (length h)) in *.
  assert (HP3 : dataList st3 !! pd = Some P').
  { rewrite FD3 by lia. subst dl2. rewrite lookup_app_l by (rewrite length_insert; lia).
    apply list_lookup_insert_eq. done. }
  assert (Hnew2 : h2 !! length h = Some newNode).
  { subst h2. rewrite list_lookup_insert_ne by lia. apply lookup_snoc. }
  pose proof (P3 _ Hnew2) as Hn3. simpl in Hn3.
  assert (Hne : length dl ≠ pd) by lia.
  assert (Hslot : childFactors P' !! myIndexInParent (set_childFactors (map (slotOf f) cs) D0)
                  = Some None).
  { subst P'. simpl. apply lookup_snoc. }
  assert (Horph4 : Forall (λ q, q < length (heap st3)) (orphansOf (Cluster.factors node))).
  { eapply Forall_impl; [apply (orphansBelow_own _ _ Horph)|]. simpl. lia. }
  destruct (EliminationPostOrderVisitor_exact f node (length dl) _ (length h) _ pd P' st3
              Hrem Hcond S3 eq_refl Hn3 eq_refl Hne HP3 Hslot Horph4)
    as (h4 & Hrun4' & Hatt).
  rewrite Hrun4' in Hrun4. injection Hrun4 as <-. clear Hrun4'.
  destruct Hatt as [Hl4 Hatt]. rewrite length_insert in Hl4.
  simpl in Hatt.
  change (Cluster.factors node ++ map (slotOf f) cs) with (gathered f node) in *.
  change (f (gathered f node) (Cluster.keys node)) with (resultOf f node) in *.
  assert (Hqs : ∀ q, q ∈ orphansOf fs → q < h0).
  { apply Forall_forall. apply (orphansBelow_own _ _ Horph). }
  assert (Hkeep : ∀ q n, q ≠ length h → q ∉ orphansOf fs → heap st3 !! q = Some n →
                         h4 !! q = Some n).
  { intros q n Hq1 Hq2 Hq3.
    destruct (Hatt q n) as (n4 & Hq4 & Hc4 & Hs4 & Hk4 & Hp4).
    { by rewrite list_lookup_insert_ne. }
    rewrite Hq4. f_equal. apply Node_eq; try done.
    - by rewrite Hp4, decide_False.
    - by rewrite Hk4, decide_False, app_nil_r. }
  constructor; cbn [heap nodesIndex dataList calls].
  - rewrite Hl4, L3, forestSize_singleton, subtreeSize_children. simpl. lia.
  - intros x Hx. rewrite layout_singleton, placed_unfold in Hx. cbn [Cluster.children node] in Hx.
    apply elem_of_app in Hx as [Hx|Hx].
    + pose proof (layout_range _ _ _ _ Hx) as Hr.
      apply Hkeep; [lia| |by apply N3].
      intros Hq%Hqs. lia.
    + apply list_elem_of_singleton in Hx as ->. simpl.
      destruct (Hatt (length h) (Node.set_conditional (fst (resultOf f node))
                  (Node.set_children ([] ++ childAddrs (S (length h)) cs) newNode)))
        as (n4 & Hq4 & Hc4 & Hs4 & Hk4 & Hp4).
      { apply list_lookup_insert_eq. eapply lookup_lt_Some; eauto. }
      rewrite Hq4. f_equal. apply Node_eq; simpl.
      * by rewrite Hc4.
      * rewrite Hp4, decide_False; [done|]. intros Hq%Hqs. lia.
      * by rewrite Hk4, decide_True.
      * by rewrite Hs4.
  - intros n Hn. assert (n = pn) by congruence. subst n.
    apply Hkeep; [lia|intros Hq%Hqs; lia|].
    rewrite F3 by lia. subst h2. rewrite list_lookup_insert_eq by (rewrite length_app; simpl; lia).
    reflexivity.
  - intros q Hq Hqne.
    destruct (h !! q) as [n|] eqn:Hn; [|apply lookup_ge_None in Hn; lia].
    apply Hkeep; [lia|intros Hq'%Hqs; lia|].
    rewrite F3 by lia. subst h2. rewrite list_lookup_insert_ne by done.
    by rewrite lookup_app_l by lia.
  - intros q n Hq Hn.
    assert (Hq2 : h2 !! q = Some n).
    { subst h2. rewrite list_lookup_insert_ne by lia. rewrite lookup_app_l by lia. done. }
    pose proof (O3 q n Hq Hq2) as Hq3.
    destruct (Hatt q _ ltac:(rewrite list_lookup_insert_ne by lia; exact Hq3))
      as (n4 & Hq4 & Hc4 & Hs4 & Hk4 & Hp4).
    rewrite Hq4. f_equal. rewrite layout_singleton, placed_unfold, reparent_snoc.
    apply Node_eq.
    + exact Hc4.
    + rewrite Hp4. unfold adopt. simpl. destruct (decide _); done.
    + rewrite Hk4, decide_False by lia. by rewrite app_nil_r.
    + exact Hs4.
  - rewrite layout_singleton, placed_unfold, indexAll_snoc. simpl.
    rewrite I3. unfold frontalsOf. reflexivity.
Qed.

Lemma eliminate_exact f t st :
  returnsRemaining f → returnsConditional f → orphansLive st t →
  ∃ result remaining st',
    eliminate f t st = (Ok (result, remaining), st') ∧
    let L := length (heap st) in
    let lay := layout (placed None) (S L) (roots_ t) in
    length (heap st') = S L + forestSize (roots_ t) ∧
    bt_roots_ result = childAddrs (S L) (roots_ t) ∧
    heap st' !! L = Some (Node.set_children (childAddrs (S L) (roots_ t)) Node.empty) ∧
    (∀ x, x ∈ lay → heap st' !! pl_clique x = Some (cliqueOf f x)) ∧
    (∀ q n, q < L → heap st !! q = Some n →
       heap st' !! q = Some (Node.set_parent (reparent q lay (Node.parent_ n)) n)) ∧
    bt_nodes_ result = indexAll f lay ∅.
Proof.
  intros Hrem Hcond Hlive.
  destruct (eliminate_run f t st Hrem Hcond Hlive) as (result & remaining & st' & Hrun & E).
  exists result, remaining, st'. split; [exact Hrun|].
  destruct E as [_ (dummy & Hd & Hk) _ Hi _ _ _ _].
  destruct st as [h dl ni cl]. unfold orphansLive in Hlive. simpl in *.
  unfold eliminate in Hrun.
  erewrite bind_Ok in Hrun; [|reflexivity]. simp_state.
  erewrite bind_Ok in Hrun; [|apply EliminationData_ctor_root_run]. simp_state.
  erewrite bind_Ok in Hrun; [|apply pushData_run]. simp_state.
  set (rc := {| parentData := None; myIndexInParent := 0; childFactors := [];
                bayesTreeNode := Some (length h) |}) in *.
  apply bind_Ok_inv in Hrun as ([] & st3 & Hrun3 & Hrest).
  assert (Hst : st' = st3).
  { match type of Hrest with
    | ?m _ = _ => assert (K : keeps (λ s : State, s) m); [|exact (K _ _ _ Hrest)]
    end.
    apply keeps_bind; [apply keeps_derefData|]. intros RC.
    apply keeps_bind; [apply keeps_nodeOf|]. intros p.
    apply keeps_bind; [apply keeps_derefNode|]. intros n.
    apply keeps_bind; [intros ? ? ? H; unfold gets in H; by simplify_eq|]. intros m.
    apply keeps_ret. }
  subst st3.
  assert (Hall : Forall (builtSpec f (length h)) (roots_ t)).
  { apply Forall_forall. intros c _. by apply visitBuild_exact. }
  unfold DepthFirstForestParallel in Hrun3. fold (visitBuild f) in Hrun3.
  pose proof (builtChildren_exact f (length h) Hrem Hcond (roots_ t) Hall (length dl) rc (length h)
                (mkState (h ++ [Node.empty]) (dl ++ [rc]) ∅ cl) st') as B.
  destruct B as [L3 N3 P3 F3 O3 I3]; simpl.
  { apply lookup_snoc. }
  { reflexivity. }
  { rewrite length_app. simpl. lia. }
  { exact Hlive. }
  { exact Hrun3. }
  simpl in *. rewrite length_app in *. simpl in *.
  replace (length h + 1) with (S (length h)) in * by lia.
  change (linkOf rc (length h)) with (@None nat) in *.
  pose proof (P3 _ (lookup_snoc h Node.empty)) as Hd'. simpl in Hd'.
  rewrite Hd in Hd'. injection Hd' as ->. simpl in Hk.
  split; [lia|]. split; [done|]. split; [done|]. split; [exact N3|]. split.
  - intros q n Hq Hn. apply O3; [done|]. by rewrite lookup_app_l.
  - by rewrite Hi, I3.
Qed.

Lemma nonNull_omap g : nonNull g = Some <$> omap id g.
Proof.
  unfold nonNull. induction g as [|[x|] g IH]; [done| |].
  - rewrite filter_cons_True by done. simpl. by f_equal.
  - rewrite filter_cons_False by (by intros [? ?]). done.
Qed.

Lemma Example_twoRoots_orphansLive : orphansLive Example.start Example_twoRoots.
Proof.
  unfold orphansLive, orphansBelow. simpl.
  repeat (constructor; simpl); lia.
Defined.

(** C1.  [eliminate] builds the dummy root context (no parent, one slot per
    root of the forest, a synthetic clique of its own) and runs the
    traversal, after which the slot of every root holds what the root
    publishes.  It returns the forest's remaining factors followed by the
    factors in the dummy root's slots, in slot order, the null slots left
    out; and a tree whose roots are the children of the dummy root's
    clique, one per root of the forest.  The elimination function must
    return non-null pointers and the orphan wrappers of the forest must
    wrap allocated cliques. *)
Theorem eliminate_dummy_root f t st :
  returnsRemaining f → returnsConditional f → orphansLive st t →
  ∃ result remaining st' RC dummy fromRoots,
    eliminate f t st = (Ok (result, remaining), st') ∧
    dataList st' !! length (dataList st) = Some RC ∧
    parentData RC = None ∧
    length (childFactors RC) = length (roots_ t) ∧
    (∀ i r, roots_ t !! i = Some r → childFactors RC !! i = Some (slotOf f r)) ∧
    bayesTreeNode RC = Some (length (heap st)) ∧
    heap st !! length (heap st) = None ∧
    heap st' !! length (heap st) = Some dummy ∧
    Node.conditional_ dummy = None ∧ Node.parent_ dummy = None ∧
    remaining = remainingFactors_ t ++ fromRoots ∧
    fromRoots = Some <$> omap id (childFactors RC) ∧
    ¬ In None fromRoots ∧
    (∀ x, In (Some x) fromRoots ↔ In (Some x) (childFactors RC)) ∧
    bt_roots_ result = Node.children dummy ∧
    length (bt_roots_ result) = length (roots_ t).
Proof.
  intros Hrem Hcond Hlive.
  destruct (eliminate_exact f t st Hrem Hcond Hlive)
    as (result' & remaining' & st'' & Hrun' & _ & Hroots & Hdummy & _).
  destruct (eliminate_run f t st Hrem Hcond Hlive) as (result & remaining & st' & Hrun & E).
  rewrite Hrun in Hrun'. injection Hrun' as <- <- <-.
  destruct E as [Hctx _ [Hlen _] _ Hr _ _ _].
  eexists result, remaining, st', _, _, (Some <$> omap id (map (slotOf f) (roots_ t))).
  split; [exact Hrun|]. split; [exact Hctx|]. simpl.
  split; [done|]. split; [apply length_map|].
  split; [intros i r Hi; by rewrite lookup_map, Hi|].
  split; [done|]. split; [by apply lookup_ge_None_2|].
  split; [exact Hdummy|]. simpl.
  split; [done|]. split; [done|].
  split; [by rewrite Hr, nonNull_omap|]. split; [done|].
  split; [|split; [|split; [done|done]]].
  - intros (x & Hx & _)%in_map_iff. discriminate.
  - intros x. rewrite <- !list_elem_of_In, list_elem_of_fmap. split.
    + intros (y & [= <-] & Hy). apply list_elem_of_omap in Hy as (o & Ho & Hy).
      destruct o; simpl in Hy; [|done]. by injection Hy as ->.
    + intros Hx. exists x. split; [done|]. apply list_elem_of_omap. by exists (Some x).
Qed.

Lemma eliminate_dummy_root_witness :
  ∃ result remaining st' RC dummy,
    eliminate Example.symbolic Example_twoRoots Example.start = (Ok (result, remaining), st') ∧
    dataList st' !! 0 = Some RC ∧
    parentData RC = None ∧
    childFactors RC = [Some (OrdinaryFactor [2%N] 3); None] ∧
    bayesTreeNode RC = Some 1 ∧
    heap st' !! 1 = Some dummy ∧
    remaining = [Some (OrdinaryFactor [9%N] 13); Some (OrdinaryFactor [2%N] 3)] ∧
    bt_roots_ result = Node.children dummy ∧
    length (bt_roots_ result) = 2.
Proof.
  pose proof (eliminate_dummy_root Example.symbolic Example_twoRoots Example.start
                Example_returnsRemaining Example_returnsConditional
                Example_twoRoots_orphansLive) as H.
  destruct H
    as (result & remaining & st' & RC & dummy & fromRoots & Hrun & HRC & Hpar & Hlen &
        Hslots & Hnode & _ & Hdummy & _ & _ & Hrem & Hfrom & _ & _ & Hroots & Hn).
  assert (Hcf : childFactors RC = [Some (OrdinaryFactor [2%N] 3); None]).
  { pose proof (Hslots 0 Example.clusterR eq_refl) as H0.
    pose proof (Hslots 1 Example.clusterB eq_refl) as H1.
    destruct (childFactors RC) as [|a [|b [|? ?]]]; try discriminate.
    vm_compute in H0, H1. by injection H0 as ->; injection H1 as ->. }
  exists result, remaining, st', RC, dummy.
  split; [exact Hrun|]. split; [exact HRC|]. split; [exact Hpar|]. split; [exact Hcf|].
  split; [exact Hnode|]. split; [exact Hdummy|].
  split; [rewrite Hrem, Hfrom, Hcf; reflexivity|].
  split; [exact Hroots|]. exact Hn.
Defined.

Lemma mirrors_unfold h f par c a :
  mirrors h f par c a =
  match h !! a with
  | Some n =>
      bool_decide (Node.conditional_ n = fst (resultOf f c)) &&
      bool_decide (Node.parent_ n = par) &&
      bool_decide (Node.problemSize_ n = Cluster.problemSize c) &&
      bool_decide (drop (length (Cluster.children c)) (Node.children n) =
                   orphansOf (Cluster.factors c)) &&
      prefixMatch (mirrors h f (Some a)) (Cluster.children c) (Node.children n)
  | None => false
  end.
Proof. destruct c; reflexivity. Qed.

Lemma length_childAddrs b cs : length (childAddrs b cs) = length cs.
Proof. revert b. induction cs as [|c cs IH]; intros b; simpl; [done|]. by rewrite IH. Qed.

Lemma prefixMatch_app_r {A B} (R : A → B → bool) xs ys zs :
  prefixMatch R xs ys = true → prefixMatch R xs (ys ++ zs) = true.
Proof.
  revert ys. induction xs as [|x xs IH]; intros ys; [done|].
  intros (y & ys' & -> & H1 & H2)%prefixMatch_cons_inv. simpl.
  rewrite H1. simpl. by apply IH.
Qed.

Lemma layout_mirrors h f a cs :
  Forall (λ c, ∀ par b, (∀ x, x ∈ placed par b c → h !! pl_clique x = Some (cliqueOf f x)) →
                        mirrors h f par c b = true) cs →
  ∀ b, (∀ x, x ∈ layout (placed (Some a)) b cs → h !! pl_clique x = Some (cliqueOf f x)) →
       prefixMatch (mirrors h f (Some a)) cs (childAddrs b cs) = true.
Proof.
  induction 1 as [|c cs Hc _ IH]; intros b Hlay; [done|].
  rewrite childAddrs_cons. simpl. rewrite Hc, IH; [done| |].
  - intros x Hx. apply Hlay. simpl. apply elem_of_app. by right.
  - intros x Hx. apply Hlay. simpl. apply elem_of_app. by left.
Qed.

Lemma placed_mirrors h f c :
  ∀ par a, (∀ x, x ∈ placed par a c → h !! pl_clique x = Some (cliqueOf f x)) →
           mirrors h f par c a = true.
Proof.
  induction c as [ks fs cs z IH] using Cluster_tree_ind. intros par a Hall.
  rewrite mirrors_unfold.
  assert (Hself : h !! a = Some (cliqueOf f (mkPlaced (Cluster.mk ks fs cs z) a par))).
  { apply (Hall (mkPlaced _ a par)). rewrite placed_unfold.
    apply elem_of_app. right. apply list_elem_of_singleton. done. }
  rewrite Hself. unfold cliqueOf. cbn [pl_cluster pl_clique pl_parent Node.conditional_
    Node.parent_ Node.problemSize_ Node.children Cluster.children Cluster.factors].
  rewrite !bool_decide_eq_true_2; try done.
  - simpl. apply prefixMatch_app_r. apply (layout_mirrors h f a cs IH).
    intros x Hx. apply Hall. rewrite placed_unfold. apply elem_of_app. by left.
  - rewrite drop_app_length'; [done|]. by rewrite length_childAddrs.
Qed.

Lemma forest_mirrors h f b cs :
  (∀ x, x ∈ layout (placed None) b cs → h !! pl_clique x = Some (cliqueOf f x)) →
  prefixMatch (mirrors h f None) cs (childAddrs b cs) = true.
Proof.
  revert b. induction cs as [|c cs IH]; intros b Hlay; [done|].
  rewrite childAddrs_cons. simpl. rewrite placed_mirrors, IH; [done| |].
  - intros x Hx. apply Hlay. simpl. apply elem_of_app. by right.
  - intros x Hx. apply Hlay. simpl. apply elem_of_app. by left.
Qed.

(** ** Orphan subtrees and the key index after a build *)

Lemma layout_clusters_from cs :
  Forall (λ c, ∀ par a, map pl_cluster (placed par a c) = clustersOf c) cs →
  ∀ par b, map pl_cluster (layout (placed par) b cs) = concat (map clustersOf cs).
Proof.
  induction 1 as [|c cs Hc _ IH]; intros par b; [done|].
  simpl. by rewrite List.map_app, Hc, IH.
Qed.

Lemma placed_clusters par a c : map pl_cluster (placed par a c) = clustersOf c.
Proof.
  revert par a. induction c as [ks fs cs z IH] using Cluster_tree_ind. intros par a.
  rewrite placed_unfold, clustersOf_unfold, List.map_app. cbn [Cluster.children].
  by rewrite (layout_clusters_from cs IH).
Qed.

Lemma layout_clusters par b cs :
  map pl_cluster (layout (placed par) b cs) = concat (map clustersOf cs).
Proof.
  apply layout_clusters_from, Forall_forall. intros c _ par' a. apply placed_clusters.
Qed.

Lemma layout_cluster_elem par b cs c :
  c ∈ concat (map clustersOf cs) ↔ ∃ x, x ∈ layout (placed par) b cs ∧ pl_cluster x = c.
Proof.
  rewrite <- (layout_clusters par b cs). rewrite !list_elem_of_In, in_map_iff.
  split; intros (x & H1 & H2); exists x; rewrite ?list_elem_of_In in *; done.
Qed.

Lemma reparent_cases q l par :
  (reparent q l par = par ∧ ∀ x, x ∈ l → q ∉ orphansOf (Cluster.factors (pl_cluster x))) ∨
  (∃ x, x ∈ l ∧ q ∈ orphansOf (Cluster.factors (pl_cluster x)) ∧
        reparent q l par = Some (pl_clique x)).
Proof.
  induction l as [|x l IH] using rev_ind.
  - left. split; [done|]. intros x Hx. by apply elem_of_nil in Hx.
  - rewrite reparent_snoc. unfold adopt.
    destruct (decide (q ∈ orphansOf (Cluster.factors (pl_cluster x)))) as [Hin|Hnin].
    + right. exists x. split; [|done]. apply elem_of_app. right. by apply list_elem_of_singleton.
    + destruct IH as [[Heq Hall]|(y & Hy & Hq & Heq)].
      * left. split; [done|]. intros y [Hy|Hy%list_elem_of_singleton]%elem_of_app.
        -- by apply Hall.
        -- by subst.
      * right. exists y. split; [|done]. apply elem_of_app. by left.
Qed.

Lemma indexInsert_lookup p m js j :
  foldl (indexInsert p) m js !! j =
  match m !! j with
  | Some a => Some a
  | None => if decide (j ∈ js) then Some p else None
  end.
Proof.
  revert m. induction js as [|i js IH]; intros m.
  - cbn [foldl]. destruct (m !! j); [done|].
    destruct (decide (j ∈ [])) as [H%elem_of_nil|]; done.
  - cbn [foldl]. rewrite IH. unfold indexInsert.
    destruct (m !! i) as [b|] eqn:Hi.
    + destruct (m !! j) as [a|] eqn:Hj; [done|].
      destruct (decide (j ∈ js)) as [Hin|Hnin].
      * rewrite decide_True; [done|]. by apply list_elem_of_further.
      * rewrite decide_False; [done|]. intros [->|?]%elem_of_cons; [congruence|done].
    + destruct (decide (i = j)) as [->|Hne].
      * rewrite lookup_insert_eq, Hi. rewrite decide_True; [done|]. apply list_elem_of_here.
      * rewrite lookup_insert_ne by done. destruct (m !! j); [done|].
        destruct (decide (j ∈ js)) as [Hin|Hnin].
        -- rewrite decide_True; [done|]. by apply list_elem_of_further.
        -- rewrite decide_False; [done|]. intros [->|?]%elem_of_cons; done.
Qed.

Lemma indexAll_cons f x l m :
  indexAll f (x :: l) m =
  indexAll f l (foldl (indexInsert (pl_clique x)) m (frontalsOf f (pl_cluster x))).
Proof. reflexivity. Qed.

Lemma indexAll_lookup f l m j a :
  indexAll f l m !! j = Some a →
  m !! j = Some a ∨ ∃ x, x ∈ l ∧ pl_clique x = a ∧ j ∈ frontalsOf f (pl_cluster x).
Proof.
  revert m. induction l as [|x l IH]; intros m H; [by left|].
  rewrite indexAll_cons in H. apply IH in H as [H|(y & Hy & Ha & Hj)].
  - rewrite indexInsert_lookup in H. destruct (m !! j); [by left|].
    destruct (decide _) as [Hin|]; [|done]. injection H as <-.
    right. exists x. split; [apply list_elem_of_here|done].
  - right. exists y. split; [by apply list_elem_of_further|done].
Qed.

Lemma indexAll_is_Some f l m j :
  is_Some (indexAll f l m !! j) ↔
  is_Some (m !! j) ∨ ∃ x, x ∈ l ∧ j ∈ frontalsOf f (pl_cluster x).
Proof.
  revert m. induction l as [|x l IH]; intros m.
  - simpl. split; [by left|]. intros [H|(x & Hx & _)]; [done|by apply elem_of_nil in Hx].
  - rewrite indexAll_cons, IH, indexInsert_lookup. split.
    + intros [H|(y & Hy & Hj)].
      * destruct (m !! j); [left; by eexists|].
        destruct (decide _) as [Hin|]; [|by destruct H].
        right. exists x. split; [apply list_elem_of_here|done].
      * right. exists y. split; [by apply list_elem_of_further|done].
    + intros [[a Ha]|(y & [->|Hy]%elem_of_cons & Hj)].
      * left. rewrite Ha. by eexists.
      * left. destruct (m !! j); [by eexists|]. rewrite decide_True by done. by eexists.
      * right. by exists y.
Qed.

Lemma frontalsOf_elem f c j :
  j ∈ frontalsOf f c ↔ ∃ cond, fst (resultOf f c) = Some cond ∧ j ∈ frontals cond.
Proof.
  unfold frontalsOf. destruct (fst (resultOf f c)) as [cond|]; split.
  - intros H. by exists cond.
  - intros (cond' & [= <-] & H). done.
  - intros H. by apply elem_of_nil in H.
  - intros (cond' & [=] & _).
Qed.

(** X1.  Shape of the built tree.  [eliminate] allocates one clique per
    cluster of the forest beside the dummy root's clique, and returns one
    root clique per root cluster; each root clique mirrors its cluster:
    it holds the conditional returned for the cluster and the cluster's
    problem size, its children are the cliques of the child clusters in
    child order, each pointing back to it, followed by the cliques its own
    orphan wrappers wrap, and so on down the tree.  The root cliques have no
    parent pointer: the dummy root's clique is never linked as a parent.
    Every orphan wrapper among the own factors of a cluster is honoured:
    the clique it wraps is among the children that the cluster's clique has
    after those of the child clusters. *)
Theorem build_mirrors_forest f t st :
  returnsRemaining f → returnsConditional f → orphansLive st t →
  ∃ result remaining st',
    eliminate f t st = (Ok (result, remaining), st') ∧
    length (heap st') = length (heap st) + 1 + length (forestClusters t) ∧
    length (bt_roots_ result) = length (roots_ t) ∧
    prefixMatch (mirrors (heap st') f None) (roots_ t) (bt_roots_ result) = true ∧
    (∀ c ks q, c ∈ forestClusters t →
       In (Some (BayesTreeOrphanWrapper ks q)) (Cluster.factors c) →
       ∃ a n, length (heap st) < a ∧ heap st' !! a = Some n ∧
              Node.conditional_ n = fst (resultOf f c) ∧
              Node.problemSize_ n = Cluster.problemSize c ∧
              In q (drop (length (Cluster.children c)) (Node.children n))).
Proof.
  intros Hrem Hcond Hlive.
  destruct (eliminate_exact f t st Hrem Hcond Hlive)
    as (result & remaining & st' & Hrun & HL & Hroots & _ & Hnew & _).
  exists result, remaining, st'. split; [done|].
  split; [unfold forestClusters; unfold forestSize in HL; lia|].
  rewrite Hroots. split; [apply length_childAddrs|].
  split; [by apply forest_mirrors|].
  intros c ks q Hc Hin. cbv zeta in Hnew.
  apply (layout_cluster_elem None (S (length (heap st)))) in Hc as (x & Hx & <-).
  exists (pl_clique x), (cliqueOf f x).
  split; [apply layout_range in Hx; lia|]. split; [by apply Hnew|].
  split; [done|]. split; [done|]. simpl.
  rewrite <- (length_childAddrs (S (pl_clique x)) (Cluster.children (pl_cluster x))).
  rewrite drop_app_length. apply list_elem_of_In, orphansOf_wrapper. eauto.
Qed.

Lemma build_mirrors_forest_witness :
  ∃ result remaining st',
    eliminate Example.symbolic Example.forest Example.start = (Ok (result, remaining), st') ∧
    length (heap st') = length (heap Example.start) + 1 + length (forestClusters Example.forest) ∧
    length (bt_roots_ result) = length (roots_ Example.forest) ∧
    prefixMatch (mirrors (heap st') Example.symbolic None)
      (roots_ Example.forest) (bt_roots_ result) = true ∧
    (∀ c ks q, c ∈ forestClusters Example.forest →
       In (Some (BayesTreeOrphanWrapper ks q)) (Cluster.factors c) →
       ∃ a n, length (heap Example.start) < a ∧ heap st' !! a = Some n ∧
              Node.conditional_ n = fst (resultOf Example.symbolic c) ∧
              Node.problemSize_ n = Cluster.problemSize c ∧
              In q (drop (length (Cluster.children c)) (Node.children n))).
Proof.
  apply build_mirrors_forest.
  - exact Example_returnsRemaining.
  - exact Example_returnsConditional.
  - exact Example_orphansLive.
Defined.

(** X2.  Cliques that exist before [eliminate] is called keep their
    conditional, their children and their problem size.  A clique that no
    cluster of the forest wraps in an orphan wrapper among its own factors
    is left untouched; one that is wrapped gets as parent a new clique,
    which holds the conditional of a cluster that wraps it and has it among
    its children. *)
Theorem orphan_subtrees_spliced f t st q n :
  returnsRemaining f → returnsConditional f → orphansLive st t →
  heap st !! q = Some n →
  ∃ result remaining st' n',
    eliminate f t st = (Ok (result, remaining), st') ∧
    heap st' !! q = Some n' ∧
    Node.conditional_ n' = Node.conditional_ n ∧
    Node.children n' = Node.children n ∧
    Node.problemSize_ n' = Node.problemSize_ n ∧
    ((∀ c, c ∈ forestClusters t → q ∉ orphansOf (Cluster.factors c)) → n' = n) ∧
    ((∃ c, c ∈ forestClusters t ∧ q ∈ orphansOf (Cluster.factors c)) →
       ∃ c a na,
         c ∈ forestClusters t ∧ q ∈ orphansOf (Cluster.factors c) ∧
         length (heap st) < a ∧ heap st' !! a = Some na ∧
         Node.conditional_ na = fst (resultOf f c) ∧
         q ∈ Node.children na ∧
         Node.parent_ n' = Some a) ∧
    ((∀ c ks, c ∈ forestClusters t →
              ¬ In (Some (BayesTreeOrphanWrapper ks q)) (Cluster.factors c)) → n' = n) ∧
    ((∃ c ks, c ∈ forestClusters t ∧
              In (Some (BayesTreeOrphanWrapper ks q)) (Cluster.factors c)) →
       ∃ c ks a na,
         c ∈ forestClusters t ∧
         In (Some (BayesTreeOrphanWrapper ks q)) (Cluster.factors c) ∧
         length (heap st) < a ∧ heap st' !! a = Some na ∧
         Node.conditional_ na = fst (resultOf f c) ∧
         In q (Node.children na) ∧
         Node.parent_ n' = Some a).
Proof.
  intros Hrem Hcond Hlive Hq.
  destruct (eliminate_exact f t st Hrem Hcond Hlive)
    as (result & remaining & st' & Hrun & _ & _ & _ & Hnew & Hold & _).
  cbv zeta in *.
  set (lay := layout (placed None) (S (length (heap st))) (roots_ t)) in *.
  assert (Hqlt : q < length (heap st)) by (eapply lookup_lt_Some; eauto).
  eexists result, remaining, st', _. split; [done|].
  split; [exact (Hold q n Hqlt Hq)|]. simpl.
  split; [done|]. split; [done|]. split; [done|].
  destruct (reparent_cases q lay (Node.parent_ n)) as [[Heq Hall]|(x & Hx & Hw & Heq)].
  - split; [|split; [|split]].
    + intros _. rewrite Heq. by destruct n.
    + intros (c & Hc & Hcq). exfalso.
      apply (layout_cluster_elem None (S (length (heap st)))) in Hc as (x & Hx & <-).
      by apply (Hall x Hx).
    + intros _. rewrite Heq. by destruct n.
    + intros (c & ks & Hc & Hcq). exfalso.
      apply (layout_cluster_elem None (S (length (heap st)))) in Hc as (x & Hx & <-).
      apply (Hall x Hx). apply orphansOf_wrapper. eauto.
  - assert (Hcx : pl_cluster x ∈ forestClusters t).
    { apply (layout_cluster_elem None (S (length (heap st)))). by exists x. }
    split; [|split; [|split]].
    + intros Hnone. exfalso. by apply (Hnone (pl_cluster x)).
    + intros _. exists (pl_cluster x), (pl_clique x), (cliqueOf f x).
      split; [done|].
      split; [done|]. split; [apply layout_range in Hx; lia|].
      split; [by apply Hnew|]. split; [done|]. split; [|done].
      simpl. apply elem_of_app. by right.
    + intros Hnone. exfalso. apply orphansOf_wrapper in Hw as (ks & Hw).
      by apply (Hnone (pl_cluster x) ks).
    + intros _. pose proof Hw as Hw'. apply orphansOf_wrapper in Hw' as (ks & Hw').
      exists (pl_cluster x), ks, (pl_clique x), (cliqueOf f x).
      split; [done|].
      split; [done|]. split; [apply layout_range in Hx; lia|].
      split; [by apply Hnew|]. split; [done|]. split; [|done].
      simpl. apply in_or_app. right. by apply list_elem_of_In.
Qed.

Lemma orphan_subtrees_spliced_witness :
  ∃ result remaining st' n',
    eliminate Example.symbolic Example.forest Example.start = (Ok (result, remaining), st') ∧
    heap st' !! 0 = Some n' ∧
    Node.conditional_ n' = Node.conditional_ Example.orphanClique ∧
    Node.children n' = Node.children Example.orphanClique ∧
    Node.problemSize_ n' = Node.problemSize_ Example.orphanClique ∧
    ((∀ c, c ∈ forestClusters Example.forest → 0 ∉ orphansOf (Cluster.factors c)) →
       n' = Example.orphanClique) ∧
    ((∃ c, c ∈ forestClusters Example.forest ∧ 0 ∈ orphansOf (Cluster.factors c)) →
       ∃ c a na,
         c ∈ forestClusters Example.forest ∧ 0 ∈ orphansOf (Cluster.factors c) ∧
         length (heap Example.start) < a ∧ heap st' !! a = Some na ∧
         Node.conditional_ na = fst (resultOf Example.symbolic c) ∧
         0 ∈ Node.children na ∧
         Node.parent_ n' = Some a) ∧
    ((∀ c ks, c ∈ forestClusters Example.forest →
              ¬ In (Some (BayesTreeOrphanWrapper ks 0)) (Cluster.factors c)) →
       n' = Example.orphanClique) ∧
    ((∃ c ks, c ∈ forestClusters Example.forest ∧
              In (Some (BayesTreeOrphanWrapper ks 0)) (Cluster.factors c)) →
       ∃ c ks a na,
         c ∈ forestClusters Example.forest ∧
         In (Some (BayesTreeOrphanWrapper ks 0)) (Cluster.factors c) ∧
         length (heap Example.start) < a ∧ heap st' !! a = Some na ∧
         Node.conditional_ na = fst (resultOf Example.symbolic c) ∧
         In 0 (Node.children na) ∧
         Node.parent_ n' = Some a).
Proof.
  apply (orphan_subtrees_spliced Example.symbolic Example.forest Example.start
           0 Example.orphanClique).
  - exact Example_returnsRemaining.
  - exact Example_returnsConditional.
  - exact Example_orphansLive.
  - reflexivity.
Defined.

(** X3.  The key index of the tree that [eliminate] returns has an entry
    exactly for the frontal keys of the conditionals returned for the
    clusters of the forest, and every entry points to a clique allocated by
    this call whose conditional has the key as a frontal key: the cliques
    of orphan subtrees and the dummy root's clique are never indexed. *)
Theorem build_key_index f t st :
  returnsRemaining f → returnsConditional f → orphansLive st t →
  ∃ result remaining st',
    eliminate f t st = (Ok (result, remaining), st') ∧
    (∀ j, is_Some (bt_nodes_ result !! j) ↔
          ∃ c cond, c ∈ forestClusters t ∧ fst (resultOf f c) = Some cond ∧
                    j ∈ frontals cond) ∧
    (∀ j a, bt_nodes_ result !! j = Some a →
       length (heap st) < a ∧
       ∃ n cond, heap st' !! a = Some n ∧ Node.conditional_ n = Some cond ∧
                 j ∈ frontals cond).
Proof.
  intros Hrem Hcond Hlive.
  destruct (eliminate_exact f t st Hrem Hcond Hlive)
    as (result & remaining & st' & Hrun & _ & _ & _ & Hnew & _ & Hindex).
  cbv zeta in *.
  set (lay := layout (placed None) (S (length (heap st))) (roots_ t)) in *.
  exists result, remaining, st'. split; [done|]. rewrite Hindex. split.
  - intros j. rewrite indexAll_is_Some. split.
    + intros [[a Ha]|(x & Hx & Hj)]; [by rewrite lookup_empty in Ha|].
      apply frontalsOf_elem in Hj as (cond & Hc & Hj).
      exists (pl_cluster x), cond. split; [|done].
      apply (layout_cluster_elem None (S (length (heap st)))). by exists x.
    + intros (c & cond & Hc & Hr & Hj). right.
      apply (layout_cluster_elem None (S (length (heap st)))) in Hc as (x & Hx & <-).
      exists x. split; [done|]. apply frontalsOf_elem. by exists cond.
  - intros j a Ha. apply indexAll_lookup in Ha as [Ha|(x & Hx & <- & Hj)];
      [by rewrite lookup_empty in Ha|].
    apply frontalsOf_elem in Hj as (cond & Hc & Hj).
    split; [apply layout_range in Hx; lia|].
    exists (cliqueOf f x), cond. split; [by apply Hnew|]. done.
Qed.

Lemma build_key_index_witness :
  ∃ result remaining st',
    eliminate Example.symbolic Example.forest Example.start = (Ok (result, remaining), st') ∧
    (∀ j, is_Some (bt_nodes_ result !! j) ↔
          ∃ c cond, c ∈ forestClusters Example.forest ∧
                    fst (resultOf Example.symbolic c) = Some cond ∧
                    j ∈ frontals cond) ∧
    (∀ j a, bt_nodes_ result !! j = Some a →
       length (heap Example.start) < a ∧
       ∃ n cond, heap st' !! a = Some n ∧ Node.conditional_ n = Some cond ∧
                 j ∈ frontals cond).
Proof.
  apply build_key_index.
  - exact Example_returnsRemaining.
  - exact Example_returnsConditional.
  - exact Example_orphansLive.
Defined.

(** ** In-place elimination, clique by clique *)

Lemma matched_unfold kids c q :
  matched kids c q =
  zipPlace (matched kids) (Cluster.children c) (default [] (kids !! q)) ++ [(c, q)].
Proof. destruct c; reflexivity. Qed.

Lemma updatedInPlace_nil f st : updatedInPlace f [] st st.
Proof. split; [|done]. intros c q n Hin. by apply elem_of_nil in Hin. Qed.

Lemma updatedInPlace_app f l1 l2 st st1 st2 :
  NoDup (map snd (l1 ++ l2)) →
  updatedInPlace f l1 st st1 → updatedInPlace f l2 st1 st2 →
  updatedInPlace f (l1 ++ l2) st st2.
Proof.
  rewrite List.map_app. intros Hnd [S1 F1] [S2 F2].
  apply NoDup_app in Hnd as (_ & Hdisj & _).
  split.
  - intros c q n [Hin|Hin]%elem_of_app Hq.
    + rewrite F2; [by apply S1|].
      apply Hdisj. apply list_elem_of_In, in_map_iff. exists (c, q).
      split; [done|by apply list_elem_of_In].
    + apply S2; [done|]. rewrite F1; [done|].
      intros Hq1. apply (Hdisj q Hq1).
      apply list_elem_of_In, in_map_iff. exists (c, q).
      split; [done|by apply list_elem_of_In].
  - intros q Hq. rewrite List.map_app in Hq. rewrite F2, F1; [done| |].
    + intros H. apply Hq, elem_of_app. by left.
    + intros H. apply Hq, elem_of_app. by right.
Qed.

Section InPlaceChildren.
Context (f : Eliminate).
Hypothesis Hrem : returnsRemaining f.

Lemma inPlaceChildren_exact cs :
  Forall (inPlaceSpec f) cs →
  ∀ d Dd p qs st st',
    dataList st !! d = Some Dd → bayesTreeNode Dd = Some p →
    cliqueChildren st !! p = Some qs →
    prefixMatch (hasShape (cliqueChildren st)) cs (drop (length (childFactors Dd)) qs) = true →
    NoDup (map snd (zipPlace (matched (cliqueChildren st)) cs
                      (drop (length (childFactors Dd)) qs))) →
    forEach (λ c, visitInPlace f c d) cs st = (Ok tt, st') →
    updatedInPlace f (zipPlace (matched (cliqueChildren st)) cs
                        (drop (length (childFactors Dd)) qs)) st st'.
Proof.
  induction 1 as [|c cs Hc _ IH]; intros d Dd p qs st st' HD Hp Hqs Hshape Hnd Hrun.
  - simpl in Hrun. rewrite ret_run in Hrun. injection Hrun as <-. apply updatedInPlace_nil.
  - apply prefixMatch_cons_inv in Hshape as (q & rest & Hdrop & Hq & Hrest).
    rewrite Hdrop in *. cbn [zipPlace] in *.
    assert (Hqk : qs !! length (childFactors Dd) = Some q).
    { rewrite <- (Nat.add_0_r (length _)), <- lookup_drop, Hdrop. done. }
    simpl in Hrun. apply bind_Ok_inv in Hrun as ([] & st1 & Hrun1 & Hrun2).
    destruct (visitInPlace_run f Hrem c d Dd p qs q st HD Hp Hqs Hqk Hq) as [Hok Hfail].
    destruct (decide (orphanFree [c])) as [Hfree|Hbad].
    2:{ destruct (Hfail Hbad) as (st1' & Hrun1'). congruence. }
    destruct (Hok Hfree) as (st1' & Hrun1' & V1).
    rewrite Hrun1 in Hrun1'. injection Hrun1' as <-.
    destruct V1 as [_ S1 _ _ K1 _].
    pose proof Hnd as Hnd'. rewrite List.map_app in Hnd'.
    apply NoDup_app in Hnd' as (Hnd1 & _ & Hnd2).
    pose proof (Hc d Dd p qs q st st1 HD Hp Hqs Hqk Hq Hnd1 Hrun1) as U1.
    assert (Hdrop' : drop (length (childFactors (set_childFactors
                       (childFactors Dd ++ map (slotOf f) [c]) Dd))) qs = rest).
    { simpl. rewrite length_app. simpl. rewrite <- drop_drop, Hdrop. done. }
    pose proof (IH d _ p qs st1 st' S1 Hp) as U2.
    rewrite K1, Hdrop' in U2.
    apply (updatedInPlace_app f _ _ st st1 st'); [done|done|]. apply U2; done.
Qed.
End InPlaceChildren.

(** The in-place visit of a cluster, exactly. *)
Lemma visitInPlace_exact f :
  returnsRemaining f → ∀ c, inPlaceSpec f c.
Proof.
  intros Hrem. induction c as [ks fs cs z IH] using Cluster_tree_ind.
  intros pd P pp qs q st st' HP Hpp Hqs Hq Hshape Hnd Hrun.
  set (node := Cluster.mk ks fs cs z) in *.
  apply cliqueChildren_lookup in Hqs as (pn & Hpn & <-).
  rewrite hasShape_unfold in Hshape. cbn [Cluster.children node] in Hshape.
  rewrite matched_unfold in *. cbn [Cluster.children node] in *.
  destruct (cliqueChildren st !! q) as [qs'|] eqn:Hqs'; [|done].
  cbn [default] in *.
  pose proof Hqs' as Hqs''.
  apply cliqueChildren_lookup in Hqs'' as (nq & Hnq & Hkq).
  assert (Hpdlt : pd < length (dataList st)) by (eapply lookup_lt_Some; eauto).
  unfold visitInPlace in Hrun. rewrite visitNode_unfold in Hrun. fold (visitInPlace f) in Hrun.
  erewrite bind_Ok in Hrun;
    [|exact (eliminationPreOrderVisitor_inPlace_run node pd P pp pn q nq st HP Hpp Hpn Hq Hnq)].
  set (kids := cliqueChildren st) in *.
  assert (Hkids : cliqueChildren st = kids) by reflexivity.
  clearbody kids.
  destruct st as [h dl ni cl]. simp_state.
  erewrite bind_Ok in Hrun; [|apply pushData_run]. simp_state.
  rewrite length_insert in Hrun.
  set (P' := set_childFactors (childFactors P ++ [None]) P) in *.
  set (D0 := {| parentData := Some pd; myIndexInParent := length (childFactors P);
                childFactors := []; bayesTreeNode := Some q |}) in *.
  set (h2 := <[q := Node.set_problemSize z nq]> h) in *.
  set (dl2 := <[pd := P']> dl ++ [D0]) in *.
  set (st2 := mkState h2 dl2 ni cl) in *.
  assert (Hk2 : cliqueChildren st2 = kids).
  { rewrite <- Hkids. unfold cliqueChildren. simpl. subst h2. by eapply map_insert_same. }
  assert (Hdl2 : length dl2 = S (length dl)).
  { subst dl2. rewrite length_app, length_insert. simpl. lia. }
  assert (HD0 : dataList st2 !! length dl = Some D0).
  { simpl. subst dl2. rewrite <- (length_insert dl pd P'). apply lookup_snoc. }
  apply bind_Ok_inv in Hrun as ([] & st3 & Hrun3 & Hrun4).
  assert (Hall : Forall (visitInPlaceSpec f) cs).
  { apply Forall_forall. intros c _. by apply visitInPlace_run. }
  destruct (visitChildrenInPlace_run f cs Hall (length dl) D0 q qs' st2 HD0 eq_refl)
    as [Hok Hfail].
  { by rewrite Hk2. }
  { rewrite Hk2. exact Hshape. }
  destruct (decide (orphanFree cs)) as [Hfree|Hbad].
  2:{ destruct (Hfail Hbad) as (st3' & Hrun3'). congruence. }
  destruct (Hok Hfree) as (st3' & Hrun3' & V3).
  rewrite Hrun3 in Hrun3'. injection Hrun3' as <-.
  destruct V3 as [_ S3 F3 _ K3 _].
  pose proof Hnd as Hnd'. rewrite List.map_app in Hnd'.
  apply NoDup_app in Hnd' as (Hnd1 & Hdisj & _).
  pose proof (inPlaceChildren_exact f Hrem cs IH (length dl) D0 q qs' st2 st3 HD0 eq_refl) as U3.
  rewrite Hk2 in U3. simpl in U3. specialize (U3 Hqs' Hshape Hnd1 Hrun3).
  destruct U3 as [US3 UF3].
  assert (Hqnot : q ∉ map snd (zipPlace (matched kids) cs qs')).
  { intros Hin. apply (Hdisj q Hin). simpl. apply list_elem_of_here. }
  assert (Hn3 : heap st3 !! q = Some (Node.set_problemSize z nq)).
  { rewrite UF3 by done. simpl. subst h2. apply list_lookup_insert_eq.
    eapply lookup_lt_Some; eauto. }
  assert (HP3 : dataList st3 !! pd = Some P').
  { rewrite F3 by (simpl; lia). simpl. subst dl2.
    rewrite lookup_app_l by (rewrite length_insert; lia).
    apply list_lookup_insert_eq. done. }
  destruct (decide (orphansOf fs = [])) as [Hown|Hown].
  2:{ rewrite (EliminationPostOrderVisitorInPlace_orphan f node _ st3 Hown) in Hrun4.
      discriminate. }
  erewrite (EliminationPostOrderVisitorInPlace_run f node (length dl) _ q _ pd P' st3)
    in Hrun4; eauto.
  2:{ subst P'. simpl. apply lookup_snoc. }
  injection Hrun4 as <-. simpl.
  change (Cluster.factors node ++ map (slotOf f) cs) with (gathered f node).
  change (f (gathered f node) (Cluster.keys node)) with (resultOf f node).
  split; simpl.
  - intros c x n [Hin|Hin]%elem_of_app Hx.
    + assert (Hxq : x ≠ q).
      { intros ->. apply Hqnot. apply list_elem_of_In, in_map_iff. exists (c, q).
        split; [done|by apply list_elem_of_In]. }
      rewrite list_lookup_insert_ne by done.
      apply (US3 c x n Hin). simpl. subst h2. by rewrite list_lookup_insert_ne.
    + apply list_elem_of_singleton in Hin. injection Hin as -> ->.
      assert (n = nq) by congruence. subst n.
      rewrite list_lookup_insert_eq; [done|]. eapply lookup_lt_Some; eauto.
  - intros x Hx. rewrite List.map_app in Hx.
    assert (Hxq : x ≠ q).
    { intros ->. apply Hx, elem_of_app. right. simpl. apply list_elem_of_here. }
    rewrite list_lookup_insert_ne by done.
    rewrite UF3.
    + simpl. subst h2. by rewrite list_lookup_insert_ne.
    + intros H. apply Hx, elem_of_app. by left.
Qed.

Lemma zipPlace_ext {A B C} (g g' : A → B → list C) xs ys :
  Forall (λ x, ∀ y, g x y = g' x y) xs → zipPlace g xs ys = zipPlace g' xs ys.
Proof.
  intros HF. revert ys. induction HF as [|x xs Hx _ IH]; intros [|y ys]; simpl; try done.
  by rewrite Hx, IH.
Qed.

Lemma zipPlace_matched_extend kids more cs qs :
  Forall (λ c, ∀ q, hasShape kids c q = true →
                    matched (kids ++ more) c q = matched kids c q) cs →
  prefixMatch (hasShape kids) cs qs = true →
  zipPlace (matched (kids ++ more)) cs qs = zipPlace (matched kids) cs qs.
Proof.
  intros HF. revert qs. induction HF as [|c cs Hc _ IH]; intros qs; [done|].
  intros (q & rest & -> & H1 & H2)%prefixMatch_cons_inv. simpl.
  by rewrite Hc, IH.
Qed.

Lemma matched_extend kids more c q :
  hasShape kids c q = true → matched (kids ++ more) c q = matched kids c q.
Proof.
  revert q. induction c as [ks fs cs z IH] using Cluster_tree_ind. intros q.
  rewrite hasShape_unfold, !matched_unfold. cbn [Cluster.children].
  destruct (kids !! q) as [qs|] eqn:Hq; [|done].
  rewrite (lookup_app_l_Some _ _ _ _ Hq). simpl. intros Hshape.
  by rewrite (zipPlace_matched_extend kids more cs qs IH Hshape).
Qed.

Lemma zipPlace_matched_clusters kids cs qs :
  Forall (λ c, ∀ q, hasShape kids c q = true → map fst (matched kids c q) = clustersOf c) cs →
  prefixMatch (hasShape kids) cs qs = true →
  map fst (zipPlace (matched kids) cs qs) = concat (map clustersOf cs).
Proof.
  intros HF. revert qs. induction HF as [|c cs Hc _ IH]; intros qs; [done|].
  intros (q & rest & -> & H1 & H2)%prefixMatch_cons_inv. simpl.
  by rewrite List.map_app, Hc, IH.
Qed.

Lemma matched_clusters kids c q :
  hasShape kids c q = true → map fst (matched kids c q) = clustersOf c.
Proof.
  revert q. induction c as [ks fs cs z IH] using Cluster_tree_ind. intros q.
  rewrite hasShape_unfold, matched_unfold, clustersOf_unfold. cbn [Cluster.children].
  destruct (kids !! q) as [qs|] eqn:Hq; [|done]. simpl. intros Hshape.
  by rewrite List.map_app, (zipPlace_matched_clusters kids cs qs IH Hshape).
Qed.

Lemma eliminateInPlace_exact bayesTree f t st :
  returnsRemaining f → orphanFree (roots_ t) → existingTreeMatches st bayesTree t →
  NoDup (map snd (matchedForest st bayesTree t)) →
  ∃ remaining st',
    eliminateInPlace bayesTree f t st = (Ok remaining, st') ∧
    eliminatedInPlace f t st st' remaining ∧
    map fst (matchedForest st bayesTree t) = forestClusters t ∧
    (∀ c q n, (c, q) ∈ matchedForest st bayesTree t → heap st !! q = Some n →
       heap st' !! q =
       Some (Node.set_conditional (fst (resultOf f c))
               (Node.set_problemSize (Cluster.problemSize c) n))) ∧
    (∀ q, q < length (heap st) → q ∉ map snd (matchedForest st bayesTree t) →
       heap st' !! q = heap st !! q).
Proof.
  intros Hrem Hfree Hshape Hnd.
  destruct (proj1 (eliminateInPlace_run bayesTree f t st Hrem Hshape) Hfree)
    as (remaining & st' & Hrun & E).
  exists remaining, st'. split; [exact Hrun|]. split; [exact E|].
  unfold existingTreeMatches in Hshape. unfold matchedForest in *.
  set (kids := cliqueChildren st) in *.
  assert (Hkids : cliqueChildren st = kids) by reflexivity. clearbody kids.
  split.
  { apply zipPlace_matched_clusters; [|done].
    apply Forall_forall. intros c _ q. apply matched_clusters. }
  destruct st as [h dl ni cl]. unfold cliqueChildren in Hkids. simpl in Hkids.
  unfold eliminateInPlace in Hrun.
  erewrite bind_Ok in Hrun; [|reflexivity]. simp_state.
  erewrite bind_Ok in Hrun; [|apply pushData_run]. simp_state.
  erewrite bind_Ok in Hrun; [|apply allocNode_run]. simp_state.
  erewrite bind_Ok in Hrun; [|apply updateData_run; simp_state; apply lookup_snoc]. simp_state.
  rewrite insert_snoc in Hrun.
  erewrite bind_Ok in Hrun; [|apply derefData_run; simp_state; apply lookup_snoc]. simp_state.
  erewrite bind_Ok in Hrun; [|apply ret_run]. simp_state.
  erewrite bind_Ok in Hrun; [|apply updateNode_run; simp_state; apply lookup_snoc]. simp_state.
  rewrite insert_snoc in Hrun.
  set (rc := {| parentData := None; myIndexInParent := 0; childFactors := [];
                bayesTreeNode := Some (length h) |}) in *.
  set (dummy := Node.set_children (bt_roots_ bayesTree) Node.empty) in *.
  set (st1 := mkState (h ++ [dummy]) (dl ++ [rc]) ni cl) in *.
  apply bind_Ok_inv in Hrun as ([] & st3 & Hrun3 & Hrest).
  assert (Hst : st' = st3).
  { match type of Hrest with
    | ?m _ = _ => assert (K : keeps (λ s : State, s) m); [|exact (K _ _ _ Hrest)]
    end.
    apply keeps_bind; [apply keeps_derefData|]. intros RC. apply keeps_ret. }
  subst st3.
  assert (Hk1 : cliqueChildren st1 = kids ++ [bt_roots_ bayesTree]).
  { unfold cliqueChildren. simpl. rewrite List.map_app, Hkids. reflexivity. }
  assert (Hall : Forall (inPlaceSpec f) (roots_ t)).
  { apply Forall_forall. intros c _. by apply visitInPlace_exact. }
  assert (Hext : zipPlace (matched (kids ++ [bt_roots_ bayesTree])) (roots_ t)
                   (bt_roots_ bayesTree) =
                 zipPlace (matched kids) (roots_ t) (bt_roots_ bayesTree)).
  { apply zipPlace_matched_extend; [|done].
    apply Forall_forall. intros c _ q. apply matched_extend. }
  unfold DepthFirstForestParallel in Hrun3. fold (visitInPlace f) in Hrun3.
  pose proof (inPlaceChildren_exact f Hrem (roots_ t) Hall (length dl) rc (length h)
                (bt_roots_ bayesTree) st1 st') as U.
  rewrite Hk1 in U.
  change (drop (length (childFactors rc)) (bt_roots_ bayesTree))
    with (bt_roots_ bayesTree) in U.
  rewrite Hext in U.
  destruct U as [US UF].
  { apply lookup_snoc. }
  { reflexivity. }
  { rewrite <- (length_map Node.children h), Hkids. apply lookup_snoc. }
  { eapply prefixMatch_impl; [|exact Hshape].
    apply Forall_forall. intros c _ q. apply hasShape_extend. }
  { exact Hnd. }
  { exact Hrun3. }
  simpl in *. split.
  - intros c q n Hin Hq. apply (US c q n Hin).
    rewrite lookup_app_l; [done|]. eapply lookup_lt_Some; eauto.
  - intros q Hq Hnin. rewrite UF by done. by rewrite lookup_app_l.
Qed.

(** ** In-place elimination that stops at an orphan wrapper *)


Lemma cleanPrefix_clean l : forallb ownOrphanFree l = true → cleanPrefix l = l.
Proof.
  induction l as [|x l IH]; [done|]. simpl.
  destruct (ownOrphanFree x); simpl; [|done]. intros H. by rewrite IH.
Qed.

Lemma afterPrefix_clean l : forallb ownOrphanFree l = true → afterPrefix l = [].
Proof.
  intros H. unfold afterPrefix. rewrite cleanPrefix_clean by done. apply drop_all.
Qed.













Lemma abortedInPlace_completed f l st st' :
  forallb ownOrphanFree l = true →
  updatedInPlace f l st st' → calls st' = calls st ++ map (callOf f) l →
  abortedInPlace f l st st'.
Proof.
  intros Hl [US UF] Hc. constructor.
  - by rewrite cleanPrefix_clean.
  - rewrite cleanPrefix_clean by done. exact US.
  - rewrite afterPrefix_clean by done. done.
  - rewrite afterPrefix_clean by done. intros c q n Hin. by apply elem_of_nil in Hin.
  - exact UF.
Qed.




Section AbortChildren.
Context (f : Eliminate).
Hypothesis Hrem : returnsRemaining f.

End AbortChildren.






(** ** Unchecked shapes, empty forests and failures *)




Lemma nonNull_slots f cs :
  Forall (λ r : option Factor, ∃ x, r = Some x ∧ Factor_empty x = false)
         (nonNull (map (slotOf f) cs)) ∧
  length (nonNull (map (slotOf f) cs)) ≤ length cs.
Proof.
  unfold nonNull. split.
  - apply Forall_forall. intros r [Hr Hin]%list_elem_of_filter.
    apply list_elem_of_In, in_map_iff in Hin as (c & <- & _).
    unfold slotOf, publish in *. destruct (snd (resultOf f c)) as [x|]; [|by destruct Hr].
    destruct (Factor_empty x) eqn:E; [by destruct Hr|]. by exists x.
  - etrans; [apply length_filter|]. by rewrite length_map.
Qed.

(** X7.  The uneliminated factors returned by [eliminate] start with the
    forest's remaining factors as they are (null entries included); what
    follows comes from the roots, at most one factor per root, none of them
    null and none empty. *)
Theorem uneliminated_factors_shape f t st :
  returnsRemaining f → returnsConditional f → orphansLive st t →
  ∃ result remaining st' fromRoots,
    eliminate f t st = (Ok (result, remaining), st') ∧
    remaining = remainingFactors_ t ++ fromRoots ∧
    length fromRoots ≤ length (roots_ t) ∧
    Forall (λ r : option Factor, ∃ x, r = Some x ∧ Factor_empty x = false) fromRoots.
Proof.
  intros Hrem Hcond Hlive.
  destruct (eliminate_run f t st Hrem Hcond Hlive) as (result & remaining & st' & Hrun & E).
  destruct E as [_ _ _ _ Hr _ _ _].
  exists result, remaining, st', (nonNull (map (slotOf f) (roots_ t))).
  split; [done|]. split; [done|].
  destruct (nonNull_slots f (roots_ t)). done.
Qed.

Lemma uneliminated_factors_shape_witness :
  ∃ result remaining st' fromRoots,
    eliminate Example.symbolic Example.forest Example.start = (Ok (result, remaining), st') ∧
    remaining = remainingFactors_ Example.forest ++ fromRoots ∧
    length fromRoots ≤ length (roots_ Example.forest) ∧
    Forall (λ r : option Factor, ∃ x, r = Some x ∧ Factor_empty x = false) fromRoots.
Proof.
  apply uneliminated_factors_shape.
  - exact Example_returnsRemaining.
  - exact Example_returnsConditional.
  - exact Example_orphansLive.
Defined.

(** X8.  On a forest without clusters both entry points return the
    forest's remaining factors as they are, whatever the elimination
    function, which is not called; [eliminate] returns a tree without roots
    and with an empty key index, and no existing clique changes. *)
Theorem empty_forest_elimination f bayesTree t st :
  roots_ t = [] →
  ∃ st1 st2,
    eliminate f t st =
      (Ok ({| bt_roots_ := []; bt_nodes_ := ∅ |}, remainingFactors_ t), st1) ∧
    eliminateInPlace bayesTree f t st = (Ok (remainingFactors_ t), st2) ∧
    calls st1 = calls st ∧ calls st2 = calls st ∧
    take (length (heap st)) (heap st1) = heap st ∧
    take (length (heap st)) (heap st2) = heap st ∧
    nodesIndex st2 = nodesIndex st.
Proof.
  intros Hroots. destruct st as [h dl ni cl].
  eexists _, _. split; [|split].
  - unfold eliminate, DepthFirstForestParallel. rewrite Hroots.
    erewrite bind_Ok; [|reflexivity]. simp_state.
    mstep EliminationData_ctor_root_run. mstep @pushData_run.
    erewrite bind_Ok; [|reflexivity]. simp_state.
    mstep_by derefData_run ltac:(apply lookup_snoc).
    mstep @ret_run.
    mstep_by derefNode_run ltac:(apply lookup_snoc).
    erewrite bind_Ok; [|reflexivity]. rewrite ret_run. simpl.
    rewrite app_nil_r. reflexivity.
  - unfold eliminateInPlace, DepthFirstForestParallel. rewrite Hroots.
    erewrite bind_Ok; [|reflexivity]. simp_state.
    mstep @pushData_run. mstep allocNode_run.
    mstep_by updateData_run ltac:(apply lookup_snoc). rewrite insert_snoc.
    mstep_by derefData_run ltac:(apply lookup_snoc).
    mstep @ret_run.
    mstep_by updateNode_run ltac:(apply lookup_snoc). rewrite insert_snoc.
    erewrite bind_Ok; [|reflexivity]. simp_state.
    mstep_by derefData_run ltac:(apply lookup_snoc).
    rewrite ret_run. simpl. rewrite app_nil_r. reflexivity.
  - simpl. rewrite !take_app_length. done.
Qed.

Lemma empty_forest_elimination_witness :
  ∃ st1 st2,
    eliminate Example.nullRemaining Scenario.rootless Example.start =
      (Ok ({| bt_roots_ := []; bt_nodes_ := ∅ |}, remainingFactors_ Scenario.rootless), st1) ∧
    eliminateInPlace Example.existingTree Example.nullRemaining Scenario.rootless
      Example.start = (Ok (remainingFactors_ Scenario.rootless), st2) ∧
    calls st1 = calls Example.start ∧ calls st2 = calls Example.start ∧
    take (length (heap Example.start)) (heap st1) = heap Example.start ∧
    take (length (heap Example.start)) (heap st2) = heap Example.start ∧
    nodesIndex st2 = nodesIndex Example.start.
Proof.
  apply (empty_forest_elimination Example.nullRemaining Example.existingTree
           Scenario.rootless Example.start).
  reflexivity.
Defined.

Lemma forwardRemaining_fail D second st e st' :
  forwardRemaining D second st = (Fail e, st') → st' = st.
Proof.
  unfold forwardRemaining. destruct second as [r|]; [|by intros [= _ <-]].
  destruct (negb (Factor_empty r)); [|intros [=]].
  destruct (parentData D) as [pd|]; [|by intros [= _ <-]].
  rewrite bind_run. unfold derefData at 1.
  destruct (dataList st !! pd) as [P|] eqn:HP; [|by intros [= _ <-]].
  destruct (decide _); [|by intros [= _ <-]].
  erewrite updateData_run by exact HP. intros [=].
Qed.

Lemma helper_fail f node d st e st' :
  eliminationPostOrderVisitorHelper f node d st = (Fail e, st') →
  dataList st' = dataList st.
Proof.
  intros Hrun. unfold eliminationPostOrderVisitorHelper in Hrun.
  rewrite bind_run in Hrun. unfold derefData at 1 in Hrun.
  destruct (dataList st !! d) as [D|] eqn:HD; [|by injection Hrun as _ <-].
  cbv zeta in Hrun. rewrite bind_run in Hrun. unfold recordCall at 1, modify in Hrun.
  rewrite bind_run in Hrun. unfold nodeOf at 1 in Hrun.
  destruct (bayesTreeNode D) as [p|]; [|by injection Hrun as _ <-].
  rewrite ret_run in Hrun. rewrite bind_run in Hrun.
  unfold setEliminationResult at 1, updateNode in Hrun. rewrite bind_run in Hrun.
  unfold derefNode at 1 in Hrun. simpl in Hrun.
  destruct (heap st !! p) as [n|]; [|by injection Hrun as _ <-].
  unfold modify in Hrun.
  change (match snd ?r with None => _ | Some remaining => _ end ?s)
    with (forwardRemaining D (snd r) s) in Hrun.
  apply forwardRemaining_fail in Hrun. by subst st'.
Qed.

(** X9.  The shared helper writes the parent's slot as its last action,
    and the in-place visitor ends with the helper: when either fails, no
    elimination context has changed, so nothing was published to the
    parent. *)
Theorem failure_before_publishing f node d st e st' :
  eliminationPostOrderVisitorHelper f node d st = (Fail e, st') ∨
  EliminationPostOrderVisitorInPlace f node d st = (Fail e, st') →
  dataList st' = dataList st.
Proof.
  intros [Hrun|Hrun]; [by eapply helper_fail|].
  unfold EliminationPostOrderVisitorInPlace in Hrun.
  apply bind_Fail_inv in Hrun as [Hrun|([] & st1 & Hloop & Hrun)].
  - destruct (decide (orphansOf (Cluster.factors node) = [])) as [Hnil|Hne].
    + rewrite orphan_loop_passes in Hrun by done. discriminate.
    + rewrite orphan_loop_throws in Hrun by done. by injection Hrun as _ <-.
  - destruct (decide (orphansOf (Cluster.factors node) = [])) as [Hnil|Hne].
    + rewrite orphan_loop_passes in Hloop by done. injection Hloop as <-.
      by eapply helper_fail.
    + rewrite orphan_loop_throws in Hloop by done. discriminate.
Qed.

Lemma failure_before_publishing_witness :
  ∃ st',
    eliminationPostOrderVisitorHelper Example.nullRemaining Example.clusterB 1 Example_midBuild =
      (Fail (UndefinedBehaviour NullRemainingFactor), st') ∧
    dataList st' = dataList Example_midBuild.
Proof.
  exists (snd (eliminationPostOrderVisitorHelper Example.nullRemaining Example.clusterB 1
                 Example_midBuild)).
  split; [reflexivity|].
  apply (failure_before_publishing Example.nullRemaining Example.clusterB 1 Example_midBuild
           (UndefinedBehaviour NullRemainingFactor)).
  left. reflexivity.
Defined.

(** X10.  The fresh-build visitor dereferences the conditional for its
    frontal keys without a check.  When the elimination function returns a
    null conditional, the step is undefined only there: the call has been
    made, the remaining factor has been published to the parent's slot, and
    the key index is as before. *)
Theorem null_conditional_faults_after_publishing f node d D p n pd P st :
  returnsRemaining f →
  dataList st !! d = Some D → bayesTreeNode D = Some p → heap st !! p = Some n →
  parentData D = Some pd → d ≠ pd → dataList st !! pd = Some P →
  childFactors P !! myIndexInParent D = Some None →
  Forall (λ q, q < length (heap st)) (orphansOf (Cluster.factors node)) →
  fst (f (Cluster.factors node ++ childFactors D) (Cluster.keys node)) = None →
  ∃ st',
    EliminationPostOrderVisitor f node d st =
      (Fail (UndefinedBehaviour NullConditional), st') ∧
    dataList st' =
      <[pd := set_childFactors
                (<[myIndexInParent D :=
                     publish (snd (f (Cluster.factors node ++ childFactors D)
                                     (Cluster.keys node)))]> (childFactors P)) P]>
        (dataList st) ∧
    calls st' = calls st ++ [(Cluster.factors node ++ childFactors D, Cluster.keys node)] ∧
    nodesIndex st' = nodesIndex st ∧
    ∃ P' r,
      dataList st' !! pd = Some P' ∧
      snd (f (Cluster.factors node ++ childFactors D) (Cluster.keys node)) = Some r ∧
      childFactors P' !! myIndexInParent D =
        Some (if Factor_empty r then None else Some r) ∧
      length (childFactors P') = length (childFactors P) ∧
      ∀ i, i ≠ myIndexInParent D → childFactors P' !! i = childFactors P !! i.
Proof.
  intros Hrem HD Hp Hn Hpd Hne HP Hslot Horph Hnull.
  set (g := Cluster.factors node ++ childFactors D) in *.
  set (res := f g (Cluster.keys node)) in *.
  assert (Hplt : p < length (heap st)) by (eapply lookup_lt_Some; eauto).
  rewrite EliminationPostOrderVisitor_unfold.
  destruct (Hrem g (Cluster.keys node)) as [r Hr]. fold res in Hr.
  erewrite bind_Ok.
  2:{ erewrite helper_run by eauto. fold g res. rewrite Hr.
      apply forwardRemaining_run; eauto. }
  destruct st as [h dl ni cl]. unfold afterElimination. simp_state.
  mstep_by derefData_run ltac:(rewrite list_lookup_insert_ne by done; exact HD).
  unfold nodeOf at 1. rewrite Hp. mstep @ret_run.
  edestruct (attachOrphans_run p (Cluster.factors node)) as (h' & Hrun & Hatt);
    [| |erewrite bind_Ok; [|exact Hrun]]; simp_state.
  { by rewrite length_insert. }
  { by rewrite length_insert. }
  destruct Hatt as [Hlen Hatt].
  destruct (Hatt p (Node.set_conditional (fst res) n)) as (n' & Hn' & Hc' & _).
  { apply list_lookup_insert_eq. done. }
  mstep_by derefNode_run ltac:(exact Hn').
  rewrite Hc'. simpl. fold g res. rewrite Hnull.
  eexists. split; [reflexivity|]. simpl. rewrite Hr.
  split; [done|]. split; [done|]. split; [done|].
  assert (Hpdlt : pd < length dl) by (eapply lookup_lt_Some; eauto).
  assert (Hilt : myIndexInParent D < length (childFactors P))
    by (eapply lookup_lt_Some; eauto).
  eexists _, r. split; [by apply list_lookup_insert_eq|]. simpl.
  split; [done|]. split; [by apply list_lookup_insert_eq|].
  split; [apply length_insert|].
  intros i Hi. by rewrite list_lookup_insert_ne.
Qed.

Lemma null_conditional_faults_after_publishing_witness :
  ∃ st',
    EliminationPostOrderVisitor Scenario.nullConditional Example.clusterB 1 Example_midBuild =
      (Fail (UndefinedBehaviour NullConditional), st') ∧
    dataList st' =
      <[0 := set_childFactors
               (<[0 := publish (snd (Scenario.nullConditional
                          (Cluster.factors Example.clusterB ++
                           [Some (BayesTreeOrphanWrapper [3%N] 0)])
                          (Cluster.keys Example.clusterB)))]> [None])
               {| parentData := None; myIndexInParent := 0;
                  childFactors := [None]; bayesTreeNode := Some 1 |}]>
        (dataList Example_midBuild) ∧
    calls st' = calls Example_midBuild ++
      [(Cluster.factors Example.clusterB ++ [Some (BayesTreeOrphanWrapper [3%N] 0)],
        Cluster.keys Example.clusterB)] ∧
    nodesIndex st' = nodesIndex Example_midBuild ∧
    ∃ P' r,
      dataList st' !! 0 = Some P' ∧
      snd (Scenario.nullConditional
             (Cluster.factors Example.clusterB ++ [Some (BayesTreeOrphanWrapper [3%N] 0)])
             (Cluster.keys Example.clusterB)) = Some r ∧
      childFactors P' !! 0 = Some (if Factor_empty r then None else Some r) ∧
      length (childFactors P') = 1 ∧
      ∀ i, i ≠ 0 → childFactors P' !! i = [None] !! i.
Proof.
  refine (null_conditional_faults_after_publishing Scenario.nullConditional Example.clusterB
            1 _ 2 _ 0 _ Example_midBuild _ eq_refl eq_refl eq_refl eq_refl _ eq_refl eq_refl
            _ eq_refl).
  - intros g o. eexists. reflexivity.
  - discriminate.
  - constructor.
Defined.

(** X11.  In the interleaving model of the traversal driver, with the
    visitors of either variant: once the post-order step of every root has
    run, the dummy root's slots hold what the roots publish in the
    reference semantics, whatever the schedule was. *)
Theorem uneliminated_factors_schedule_independent f forest rd st RC evs cfg :
  dataList st !! rd = Some RC → childFactors RC = [] →
  run (eliminationPreOrderVisitor EliminationData_ctor) (EliminationPostOrderVisitor f)
      forest (initial rd st) evs cfg ∨
  run (eliminationPreOrderVisitor EliminationDataInPlace_ctor)
      (EliminationPostOrderVisitorInPlace f) forest (initial rd st) evs cfg →
  (∀ i, i < length (roots_ forest) → In (PostOrder [i]) evs) →
  ∃ RC', dataList (machine cfg) !! rd = Some RC' ∧
         childFactors RC' = map (slotOf f) (roots_ forest).
Proof.
  intros HRC Hcf Hrun Hall.
  assert (∃ RC', dataList (machine cfg) !! rd = Some RC' ∧
                 childFactors RC' = map (slotOf f) (roots_ forest)) as (RC' & H1 & H2).
  { destruct Hrun as [Hrun|Hrun].
    - eapply (roots_published f _ _ forest reservesSlot_allocating (forwardsRemaining_build f));
        eauto.
      intros i Hi.
      apply (inv_events _ _ _ _ (Inv_run f _ _ forest reservesSlot_allocating
                                   (forwardsRemaining_build f) rd st RC _ _ HRC Hcf Hrun)).
      by apply Hall.
    - eapply (roots_published f _ _ forest reservesSlot_reusing (forwardsRemaining_inPlace f));
        eauto.
      intros i Hi.
      apply (inv_events _ _ _ _ (Inv_run f _ _ forest reservesSlot_reusing
                                   (forwardsRemaining_inPlace f) rd st RC _ _ HRC Hcf Hrun)).
      by apply Hall. }
  exists RC'. done.
Qed.

Lemma uneliminated_factors_schedule_independent_witness :
  ∃ cfg RC',
    run (eliminationPreOrderVisitor EliminationData_ctor)
        (EliminationPostOrderVisitor Example.symbolic)
        Example.forest (initial 0 Example_traversalStart) Example_schedule cfg ∧
    dataList (machine cfg) !! 0 = Some RC' ∧
    childFactors RC' = map (slotOf Example.symbolic) (roots_ Example.forest).
Proof.
  destruct Example_schedule_runs as [cfg Hrun].
  destruct (uneliminated_factors_schedule_independent Example.symbolic Example.forest 0
              Example_traversalStart _ Example_schedule cfg eq_refl eq_refl (or_introl Hrun))
    as (RC' & H1 & H2).
  - intros i Hi. simpl in Hi. assert (i = 0) as -> by lia. simpl. tauto.
  - exists cfg, RC'. done.
Defined.

(** X4.  On a forest without orphan wrappers and an existing tree of its
    shape in which no clique is matched twice, [eliminateInPlace] returns;
    the clique matched with a cluster then holds the conditional returned
    for that cluster and the cluster's problem size, with its parent and
    children as before; every other existing clique and the key index are
    untouched.  A null conditional is stored like any other. *)
Theorem in_place_updates_matched_cliques bayesTree f t st :
  returnsRemaining f → orphanFree (roots_ t) → existingTreeMatches st bayesTree t →
  NoDup (map snd (matchedForest st bayesTree t)) →
  ∃ remaining st',
    eliminateInPlace bayesTree f t st = (Ok remaining, st') ∧
    map fst (matchedForest st bayesTree t) = forestClusters t ∧
    (∀ c q n, (c, q) ∈ matchedForest st bayesTree t → heap st !! q = Some n →
       heap st' !! q =
       Some {| Node.conditional_ := fst (resultOf f c);
               Node.parent_ := Node.parent_ n;
               Node.children := Node.children n;
               Node.problemSize_ := Cluster.problemSize c |}) ∧
    (∀ q, q < length (heap st) → q ∉ map snd (matchedForest st bayesTree t) →
       heap st' !! q = heap st !! q) ∧
    nodesIndex st' = nodesIndex st.
Proof.
  intros Hrem Hfree Hshape Hnd.
  destruct (eliminateInPlace_exact bayesTree f t st Hrem Hfree Hshape Hnd)
    as (remaining & st' & Hrun & E & Hcl & Hset & Hframe).
  exists remaining, st'. split; [done|]. split; [done|].
  split; [exact Hset|]. split; [exact Hframe|]. by destruct E.
Qed.

Lemma in_place_updates_matched_cliques_witness :
  ∃ remaining st',
    eliminateInPlace Example.existingTree Example.symbolic Scenario.plainForest
      Example.existing = (Ok remaining, st') ∧
    map fst (matchedForest Example.existing Example.existingTree Scenario.plainForest) =
      forestClusters Scenario.plainForest ∧
    (∀ c q n,
       (c, q) ∈ matchedForest Example.existing Example.existingTree Scenario.plainForest →
       heap Example.existing !! q = Some n →
       heap st' !! q =
       Some {| Node.conditional_ := fst (resultOf Example.symbolic c);
               Node.parent_ := Node.parent_ n;
               Node.children := Node.children n;
               Node.problemSize_ := Cluster.problemSize c |}) ∧
    (∀ q, q < length (heap Example.existing) →
          q ∉ map snd (matchedForest Example.existing Example.existingTree
                         Scenario.plainForest) →
       heap st' !! q = heap Example.existing !! q) ∧
    nodesIndex st' = nodesIndex Example.existing.
Proof.
  apply in_place_updates_matched_cliques.
  - exact Example_returnsRemaining.
  - decide_by_computation.
  - reflexivity.
  - decide_by_computation.
Defined.


(** ** Product manifolds *)

Section ProductManifold.
Context {Scalar M1 M2 : Type}.
Context `{Manifold.HasManifoldPrereqs Scalar M1} `{Manifold.HasManifoldPrereqs Scalar M2}.

(** X12.  When [Retract] undoes [Local] on both factors, it does on their
    product: retracting the local coordinates of [q] at [p] gives [q]
    back. *)
Theorem ProductManifold_retract_localCoordinates :
  (∀ a b : M1, Manifold.Retract a (Manifold.Local a b) = b) →
  (∀ a b : M2, Manifold.Retract a (Manifold.Local a b) = b) →
  ∀ p q : M1 * M2, Manifold.Retract p (Manifold.Local p q) = q.
Proof.
  intros H1 H2 [p1 p2] [q1 q2].
  unfold Manifold.Retract at 1, Manifold.Local at 1. simpl.
  unfold Manifold.head, Manifold.tail.
  rewrite Vector.splitat_append. simpl. by rewrite H1, H2.
Qed.

(** X13.  When [Local] undoes [Retract] on both factors, it does on their
    product: [retract] hands the first [dimension1] coefficients to the
    first factor and the last [dimension2] to the second, and
    [localCoordinates] puts them back in that order. *)
Theorem ProductManifold_localCoordinates_retract :
  (∀ (a : M1) v, Manifold.Local a (Manifold.Retract a v) = v) →
  (∀ (a : M2) v, Manifold.Local a (Manifold.Retract a v) = v) →
  ∀ (p : M1 * M2) xi, Manifold.Local p (Manifold.Retract p xi) = xi.
Proof.
  intros H1 H2 [p1 p2] xi.
  unfold Manifold.Retract at 1, Manifold.Local at 1. simpl.
  unfold Manifold.head, Manifold.tail.
  rewrite H1, H2. symmetry. apply Vector.append_splitat.
  by destruct (Vector.splitat _ xi).
Qed.
End ProductManifold.

Lemma ZLine_retract_localCoordinates (a b : Z) :
  Manifold.Retract a (Manifold.Local a b) = b.
Proof. unfold Manifold.Retract, Manifold.Local. simpl. lia. Defined.

Lemma ZLine_localCoordinates_retract (a : Z) (v : Vector.t Z 1) :
  Manifold.Local a (Manifold.Retract a v) = v.
Proof.
  unfold Manifold.Retract, Manifold.Local. pattern v. apply Vector.caseS'. intros x t. pattern t. apply Vector.case0.
  simpl. f_equal. lia.
Defined.

Lemma ProductManifold_retract_localCoordinates_witness :
  Manifold.Retract (1, 2)%Z (Manifold.Local (1, 2)%Z (5, 7)%Z) = (5, 7)%Z.
Proof.
  apply (ProductManifold_retract_localCoordinates (M1 := Z) (M2 := Z)).
  - exact ZLine_retract_localCoordinates.
  - exact ZLine_retract_localCoordinates.
Defined.

Lemma ProductManifold_localCoordinates_retract_witness :
  Manifold.Local (1, 2)%Z
    (Manifold.Retract (1, 2)%Z
       (@Vector.cons Z 3%Z 1 (@Vector.cons Z 4%Z 0 (@Vector.nil Z)))) =
  @Vector.cons Z 3%Z 1 (@Vector.cons Z 4%Z 0 (@Vector.nil Z)).
Proof.
  apply (ProductManifold_localCoordinates_retract (M1 := Z) (M2 := Z)).
  - exact ZLine_localCoordinates_retract.
  - exact ZLine_localCoordinates_retract.
Defined.
